(** * MediaWiki dictionary back end of GoldenDict (mediawiki.cc)

    A shallow embedding of [src/mediawiki.cc]: the table-of-contents
    synthesizer ([MediaWikiSectionsParser]), the page-id filter
    ([SmallSet]), the article rewriting passes and the reply queue of
    [MediaWikiArticleRequest], followed by the properties the
    specification states about them.

    Conventions.
    - A [QString] is the list of its characters; every pattern the file
      looks for is ASCII, and a [QChar] is modelled by an 8-bit [ascii].
    - C++ [int] and [long long] values are integers in [Z].
    - Qt classes the file only calls (QString, QDom, QRegularExpression)
      are modelled by executable functions with the documented behaviour
      of the calls the file makes. *)

From Stdlib Require Import Ascii String.
From Stdlib Require Import List ZArith Lia Bool Arith DecimalString.
Import ListNotations.

Set Warnings "-register-all".

Coercion list_ascii_of_string : string >-> list.
Open Scope string_scope.
Open Scope list_scope.
Open Scope Z_scope.

(* ================================================================== *)
(** * Part I: definitions                                              *)
(* ================================================================== *)

(** ** QString *)

Definition QChar := ascii.
Definition QString := list ascii.

(** The newline and the double quote of the C++ literals. *)
Definition nl : QString := ["010"%char].
Definition dq : QString := ["034"%char].

Fixpoint QString_eqb (a b : QString) : bool :=
  match a, b with
  | [], [] => true
  | c :: a', d :: b' => Ascii.eqb c d && QString_eqb a' b'
  | _, _ => false
  end.

Fixpoint startsWith (needle s : QString) : bool :=
  match needle, s with
  | [], _ => true
  | c :: needle', d :: s' => Ascii.eqb c d && startsWith needle' s'
  | _ :: _, [] => false
  end.

(** [find_from needle s i]: [s] is the subject from index [i] on; the
    index of the first occurrence of [needle], or -1. *)
Fixpoint find_from (needle s : QString) (i : nat) : Z :=
  if startsWith needle s then Z.of_nat i
  else match s with
       | [] => -1
       | _ :: s' => find_from needle s' (S i)
       end.

(** [QString::indexOf( needle, from )]. *)
Definition indexOf (needle : QString) (from : nat) (s : QString) : Z :=
  if (from <=? length s)%nat then find_from needle (skipn from s) from else -1.

(** [QString::mid( pos, n )] and [QString::mid( pos )], for [pos], [n] >= 0. *)
Definition mid (pos n : nat) (s : QString) : QString := firstn n (skipn pos s).
Definition midToEnd (pos : nat) (s : QString) : QString := skipn pos s.

(** [QString::truncate( n )]. *)
Definition truncate (n : nat) (s : QString) : QString := firstn n s.

(** [QString::replace( pos, len, after )]. *)
Definition replaceAt (pos len : nat) (after s : QString) : QString :=
  firstn pos s ++ after ++ skipn (pos + len) s.

(** [QString::replace( QChar before, QString after )]. *)
Definition replaceChar (before : QChar) (after s : QString) : QString :=
  flat_map (fun c => if Ascii.eqb c before then after else [c]) s.

(** [QString::replace( QString before, QString after )] for a non-empty
    [before]: every occurrence, left to right, without rescanning the
    inserted text.  [skip] counts the characters of an occurrence that
    are still to be dropped. *)
Fixpoint replace_go (before after : QString) (skip : nat) (s : QString) : QString :=
  match s with
  | [] => []
  | c :: s' =>
      match skip with
      | S k => replace_go before after k s'
      | O =>
          if startsWith before s
          then after ++ replace_go before after (length before - 1) s'
          else c :: replace_go before after 0 s'
      end
  end.

Definition replaceStr (before after s : QString) : QString :=
  replace_go before after 0 s.

(** *** Number conversion: [QString::toInt] and [QString::toLongLong]

    Base 10, surrounding white space ignored, optional sign, at least
    one digit, nothing else; the conversion fails outside the range of
    the result type. *)

Definition isSpace (c : ascii) : bool :=
  let n := nat_of_ascii c in
  ((n =? 32) || ((9 <=? n) && (n <=? 13)))%nat.

Definition isDigit (c : ascii) : bool :=
  let n := nat_of_ascii c in ((48 <=? n) && (n <=? 57))%nat.

Fixpoint dropSpaces (s : QString) : QString :=
  match s with
  | c :: s' => if isSpace c then dropSpaces s' else s
  | [] => []
  end.

Definition trimmed (s : QString) : QString :=
  rev (dropSpaces (rev (dropSpaces s))).

Fixpoint digitsValue (acc : Z) (s : QString) : option Z :=
  match s with
  | [] => Some acc
  | c :: s' =>
      if isDigit c
      then digitsValue (10 * acc + (Z.of_nat (nat_of_ascii c) - 48)) s'
      else None
  end.

Definition parseDecimal (s : QString) : option Z :=
  let unsigned (d : QString) :=
    match d with
    | [] => None
    | _ :: _ => digitsValue 0 d
    end in
  match trimmed s with
  | "-"%char :: d => option_map Z.opp (unsigned d)
  | "+"%char :: d => unsigned d
  | d => unsigned d
  end.

Definition inRange (bits : Z) (v : Z) : bool :=
  (- 2 ^ (bits - 1) <=? v) && (v <? 2 ^ (bits - 1)).

(** [QString::toInt( &ok )]: [None] stands for [ok == false]. *)
Definition toInt (s : QString) : option Z :=
  match parseDecimal s with
  | Some v => if inRange 32 v then Some v else None
  | None => None
  end.

(** [QString::toLongLong()] without [ok]: 0 when the conversion fails. *)
Definition toLongLong (s : QString) : Z :=
  match parseDecimal s with
  | Some v => if inRange 64 v then v else 0
  | None => 0
  end.

(** ** QDom *)

Inductive QDomNode :=
| QDomElement (tagName : QString) (attributes : list (QString * QString))
              (childNodes : list QDomNode)
| QDomText (nodeValue : QString)
| QDomOther (name : QString). (* comment, processing instruction, ... *)

(** A parsed document is the list of its top-level nodes; a null node is
    [None]. *)
Definition QDomDocument := list QDomNode.

Definition nodeName (n : QDomNode) : QString :=
  match n with
  | QDomElement tag _ _ => tag
  | QDomText _ => "#text"
  | QDomOther name => name
  end.

Definition children (n : option QDomNode) : list QDomNode :=
  match n with
  | Some (QDomElement _ _ cs) => cs
  | _ => []
  end.

(** [QDomNode::namedItem]: the first direct child with that node name. *)
Definition namedItemIn (name : QString) (cs : list QDomNode) : option QDomNode :=
  find (fun c => QString_eqb (nodeName c) name) cs.

Definition namedItem (name : QString) (n : option QDomNode) : option QDomNode :=
  namedItemIn name (children n).

Definition isElementNamed (name : QString) (n : QDomNode) : bool :=
  match n with
  | QDomElement tag _ _ => QString_eqb tag name
  | _ => false
  end.

(** [firstChildElement( name )] followed by [nextSiblingElement( name )]
    until null enumerates these nodes. *)
Definition childElements (name : QString) (n : option QDomNode) : list QDomNode :=
  filter (isElementNamed name) (children n).

Definition firstChildElement (name : QString) (n : option QDomNode) : option QDomNode :=
  hd_error (childElements name n).

Fixpoint lookupAttribute (name : QString) (attrs : list (QString * QString)) : option QString :=
  match attrs with
  | [] => None
  | (k, v) :: rest => if QString_eqb k name then Some v else lookupAttribute name rest
  end.

(** [toElement().attribute( name )]: the empty string when the node is
    null, is not an element, or has no such attribute. *)
Definition attribute (name : QString) (n : option QDomNode) : QString :=
  match n with
  | Some (QDomElement _ attrs _) =>
      match lookupAttribute name attrs with
      | Some v => v
      | None => []
      end
  | _ => []
  end.

(** The text below a node: text nodes and, recursively, elements. *)
Fixpoint nodeText (n : QDomNode) : QString :=
  match n with
  | QDomText v => v
  | QDomElement _ _ cs => flat_map nodeText cs
  | QDomOther _ => []
  end.

(** [toElement().text()]: the text of all descendants, in order; the
    empty string for a node that is not an element. *)
Definition elementText (n : QDomNode) : QString :=
  match n with
  | QDomElement _ _ _ => nodeText n
  | _ => []
  end.

(** ** MediaWikiSectionsParser

    [previousLevel] is at most the number of sections read so far, so
    [previousLevel + 1] is computed without overflow. *)

Record MediaWikiSectionsParser := {
  tableOfContents : QString;
  previousLevel : Z
}.

Definition appendToc (p : MediaWikiSectionsParser) (s : QString) : MediaWikiSectionsParser :=
  {| tableOfContents := tableOfContents p ++ s; previousLevel := previousLevel p |}.

(** One turn of the [while] loop of [closeListTags]. *)
Definition closeDeeper (p : MediaWikiSectionsParser) : MediaWikiSectionsParser :=
  {| tableOfContents := tableOfContents p ++ "</ul>" ++ nl ++ "</li>" ++ nl;
     previousLevel := previousLevel p - 1 |}.

(** The loop [while( currentLevel < previousLevel )] runs
    [previousLevel - currentLevel] times, or not at all. *)
Definition closeListTags (currentLevel : Z) (p : MediaWikiSectionsParser)
  : MediaWikiSectionsParser :=
  Nat.iter (Z.to_nat (previousLevel p - currentLevel)) closeDeeper
           (appendToc p ("</li>" ++ nl)).

Definition addListLevel (levelString : QString) (p : MediaWikiSectionsParser)
  : bool * MediaWikiSectionsParser :=
  match toInt levelString with
  | None => (false, p)
  | Some level =>
      if level <=? 0 then (false, p)
      else if level >? previousLevel p + 1 then (false, p)
      else
        let p1 :=
          if level =? previousLevel p + 1
          then {| tableOfContents := tableOfContents p ++ nl ++ "<ul>" ++ nl;
                  previousLevel := level |}
          else closeListTags level p in
        (true, appendToc p1 "<li>")
  end.

Definition tocHeader : QString :=
  "<div id='toc' class='toc' role='navigation' aria-labelledby='mw-toc-heading'>"
  ++ "<div class='toctitle'><h2 id='mw-toc-heading'>Contents</h2></div>".

(** [el.attribute( "toclevel" )] *)
Definition toclevel (el : QDomNode) : QString := attribute "toclevel" (Some el).

(** The anchor appended for one [<s>] element. *)
Definition tocLink (el : QDomNode) : QString :=
  "<a href='#" ++ attribute "linkAnchor" (Some el) ++ "'>"
  ++ attribute "number" (Some el) ++ " " ++ attribute "line" (Some el) ++ "</a>".

(** The [do ... while( !el.isNull() )] loop over the [<s>] elements, and
    the code after it. *)
Fixpoint tocLoop (els : list QDomNode) (p : MediaWikiSectionsParser)
  : MediaWikiSectionsParser :=
  match els with
  | [] => appendToc (closeListTags 1 p) ("</ul>" ++ nl ++ "</div>")
  | el :: rest =>
      match addListLevel (toclevel el) p with
      | (false, p') =>
          {| tableOfContents := []; previousLevel := previousLevel p' |}
      | (true, p') => tocLoop rest (appendToc p' (tocLink el))
      end
  end.

Definition newParser : MediaWikiSectionsParser :=
  {| tableOfContents := []; previousLevel := 0 |}.

Definition generateTableOfContents (sectionsElement : QDomNode)
                                   (p : MediaWikiSectionsParser)
  : MediaWikiSectionsParser :=
  match childElements "s" (Some sectionsElement) with
  | [] => p
  | els =>
      tocLoop els {| tableOfContents := tocHeader;
                     previousLevel := previousLevel p |}
  end.

Definition emptyTocIndicator : QString :=
  "<meta property=" ++ dq ++ "mw:PageProp/toc" ++ dq ++ " />".

Definition generateTableOfContentsIfEmpty (parseNode : option QDomNode)
                                          (articleString : QString) : QString :=
  let emptyTocPos := indexOf emptyTocIndicator 0 articleString in
  if emptyTocPos =? -1 then articleString
  else
    match firstChildElement "sections" parseNode with
    | None => articleString
    | Some sectionsElement =>
        let parser := generateTableOfContents sectionsElement newParser in
        replaceAt (Z.to_nat emptyTocPos) (length emptyTocIndicator)
                  (tableOfContents parser) articleString
    end.

(** ** QRegularExpression

    The patterns of the file use literals, character classes, groups,
    alternation and greedy or lazy repetition.  [rmatch] is a
    backtracking matcher in continuation-passing style: it tries the
    alternatives in the order PCRE does, and the continuation [k]
    receives the remaining subject, its position and the captures. *)

Inductive Regex :=
| Eps
| Chr (p : ascii -> bool)
| Seq (r1 r2 : Regex)
| Alt (r1 r2 : Regex)
| Star (greedy : bool) (r : Regex)
| Grp (n : nat) (r : Regex).

Definition Plus (greedy : bool) (r : Regex) : Regex := Seq r (Star greedy r).

Fixpoint Lit (s : QString) : Regex :=
  match s with
  | [] => Eps
  | c :: s' => Seq (Chr (Ascii.eqb c)) (Lit s')
  end.

Definition toLower (c : ascii) : ascii :=
  let n := nat_of_ascii c in
  if ((65 <=? n) && (n <=? 90))%nat then ascii_of_nat (n + 32) else c.

(** A literal under [CaseInsensitiveOption]. *)
Fixpoint LitCI (s : QString) : Regex :=
  match s with
  | [] => Eps
  | c :: s' => Seq (Chr (fun d => Ascii.eqb (toLower d) (toLower c))) (LitCI s')
  end.

Fixpoint seqs (rs : list Regex) : Regex :=
  match rs with
  | [] => Eps
  | r :: rs' => Seq r (seqs rs')
  end.

Definition noneOf (cs : QString) (c : ascii) : bool :=
  negb (existsb (Ascii.eqb c) cs).
Definition oneOf (cs : QString) (c : ascii) : bool := existsb (Ascii.eqb c) cs.

(** [\w] and [\s] without Unicode properties, [.] with and without
    [DotMatchesEverythingOption]. *)
Definition isWord (c : ascii) : bool :=
  let n := nat_of_ascii c in
  (isDigit c || ((65 <=? n) && (n <=? 90)) || ((97 <=? n) && (n <=? 122))
   || (n =? 95))%nat.
Definition anyChar (c : ascii) : bool := true.
Definition notNewline (c : ascii) : bool := negb (Ascii.eqb c "010"%char).

Fixpoint numCaptures (r : Regex) : nat :=
  match r with
  | Eps | Chr _ => 0%nat
  | Seq r1 r2 | Alt r1 r2 => Nat.max (numCaptures r1) (numCaptures r2)
  | Star _ r1 => numCaptures r1
  | Grp n r1 => Nat.max n (numCaptures r1)
  end.

Definition Captures := list (nat * (nat * nat)).

(** A continuation: the rest of the pattern, given the remaining
    subject, its position and the captures so far. *)
Definition Cont := QString -> nat -> Captures -> option (nat * Captures).

(** Repetition of [body], greedy or lazy.  A turn that consumes nothing
    is not repeated, so [length s] turns suffice for the subject [s]. *)
Fixpoint starLoop (greedy : bool)
                  (body : QString -> nat -> Captures -> Cont
                          -> option (nat * Captures))
                  (k : Cont) (turns : nat)
                  (s : QString) (pos : nat) (caps : Captures) {struct turns}
  : option (nat * Captures) :=
  match turns with
  | O => k s pos caps
  | S turns' =>
      let again (_ : unit) :=
        body s pos caps
             (fun s' pos' caps' =>
                if (pos <? pos')%nat
                then starLoop greedy body k turns' s' pos' caps'
                else None) in
      if greedy
      then match again tt with
           | Some res => Some res
           | None => k s pos caps
           end
      else match k s pos caps with
           | Some res => Some res
           | None => again tt
           end
  end.

Fixpoint rmatch (r : Regex) (s : QString) (pos : nat) (caps : Captures)
                (k : Cont) : option (nat * Captures) :=
  match r with
  | Eps => k s pos caps
  | Chr p =>
      match s with
      | c :: s' => if p c then k s' (S pos) caps else None
      | [] => None
      end
  | Seq r1 r2 =>
      rmatch r1 s pos caps (fun s' pos' caps' => rmatch r2 s' pos' caps' k)
  | Alt r1 r2 =>
      match rmatch r1 s pos caps k with
      | Some res => Some res
      | None => rmatch r2 s pos caps k
      end
  | Grp n r1 =>
      rmatch r1 s pos caps
             (fun s' pos' caps' => k s' pos' ((n, (pos, pos')) :: caps'))
  | Star greedy r1 => starLoop greedy (rmatch r1) k (length s) s pos caps
  end.

Record QRegularExpressionMatch := {
  capturedStart : nat;
  capturedEnd : nat;
  groups : Captures
}.

Fixpoint lookupGroup (n : nat) (caps : Captures) : option (nat * nat) :=
  match caps with
  | [] => None
  | (g, span) :: rest => if (g =? n)%nat then Some span else lookupGroup n rest
  end.

(** [match.captured( n )]; [subject] is the string that was matched. *)
Definition captured (n : nat) (m : QRegularExpressionMatch) (subject : QString)
  : QString :=
  match n with
  | O => mid (capturedStart m) (capturedEnd m - capturedStart m) subject
  | _ =>
      match lookupGroup n (groups m) with
      | Some (b, e) => mid b (e - b) subject
      | None => []
      end
  end.

Definition matchAt (re : Regex) (s : QString) (pos : nat)
  : option QRegularExpressionMatch :=
  match rmatch re s pos [] (fun _ e caps => Some (e, caps)) with
  | Some (e, caps) =>
      Some {| capturedStart := pos; capturedEnd := e; groups := caps |}
  | None => None
  end.

(** [re.match( subject )]: the leftmost match.  [s] is the subject from
    position [pos] on. *)
Fixpoint firstMatch (re : Regex) (s : QString) (pos : nat)
  : option QRegularExpressionMatch :=
  match matchAt re s pos with
  | Some m => Some m
  | None =>
      match s with
      | [] => None
      | _ :: s' => firstMatch re s' (S pos)
      end
  end.

(** [re.globalMatch( subject )]: the successive non-overlapping matches.
    [skip] counts the characters of the last match still to be passed.
    No pattern of this file matches the empty string. *)
Fixpoint globalMatch_go (re : Regex) (skip : nat) (s : QString) (pos : nat)
  : list QRegularExpressionMatch :=
  match s with
  | [] => []
  | _ :: s' =>
      match skip with
      | S k => globalMatch_go re k s' (S pos)
      | O =>
          match matchAt re s pos with
          | Some m =>
              m :: globalMatch_go re (capturedEnd m - pos - 1) s' (S pos)
          | None => globalMatch_go re 0 s' (S pos)
          end
      end
  end.

Definition globalMatch (re : Regex) (subject : QString)
  : list QRegularExpressionMatch :=
  globalMatch_go re 0 subject 0.

(** The replacement text of [QString::replace( QRegularExpression, after )]:
    a backslash followed by the digit of an existing group stands for
    that group (the patterns here have at most two groups). *)
Fixpoint expandBackrefs (groupCount : nat) (after : QString)
                        (m : QRegularExpressionMatch) (subject : QString)
  : QString :=
  match after with
  | [] => []
  | c :: after' =>
      match after' with
      | d :: rest =>
          let no := (nat_of_ascii d - 48)%nat in
          if Ascii.eqb c "\"%char && isDigit d
             && (0 <? no)%nat && (no <=? groupCount)%nat
          then captured no m subject ++ expandBackrefs groupCount rest m subject
          else c :: expandBackrefs groupCount after' m subject
      | [] => [c]
      end
  end.

(** The shape shared by the three match loops of [requestFinished]:
    [pos] and [articleNewString] are the loop's variables, [body] is
    what the loop appends for a match, and the [if( pos )] after the loop
    keeps [articleString] when nothing matched. *)
Definition rewriteLoop (body : QRegularExpressionMatch -> QString)
                       (ms : list QRegularExpressionMatch)
                       (articleString : QString) : QString :=
  let '(pos, articleNewString) :=
    fold_left
      (fun (st : nat * QString) m =>
         let '(pos, articleNewString) := st in
         (capturedEnd m,
          articleNewString
            ++ mid pos (capturedStart m - pos) articleString ++ body m))
      ms (0%nat, []) in
  if (pos =? 0)%nat then articleString
  else articleNewString ++ midToEnd pos articleString.

(** [QString::replace( QRegularExpression re, QString after )]. *)
Definition replaceRegex (re : Regex) (after subject : QString) : QString :=
  rewriteLoop (fun m => expandBackrefs (numCaptures re) after m subject)
              (globalMatch re subject) subject.

(** An 8-bit [QString] is its own UTF-8 encoding. *)
Definition QByteArray := list ascii.
Definition toUtf8 (s : QString) : QByteArray := s.

(** ** The dictionary and its collaborators *)

(** A [QUrl], by the components the file reads. *)
Record QUrl := {
  scheme : QString;
  authority : QString;
  path : QString
}.

Definition setPath (p : QString) (u : QUrl) : QUrl :=
  {| scheme := scheme u; authority := authority u; path := p |}.

Definition urlToString (u : QUrl) : QString :=
  scheme u ++ "://" ++ authority u ++ path u.

(** What [requestFinished] reads from the dictionary: the configured
    [url] and its parse [QUrl( url )], [getId()], [isToLanguageRTL()] of
    [Dictionary::Class], and [addAudioLink] of audiolink.hh, which the
    file calls with a quoted URL and the dictionary id. *)
Record MediaWikiDictionary := {
  getId : QString;
  url : QString;
  parsedUrl : QUrl;
  isToLanguageRTL : bool;
  addAudioLink : QString -> QString -> QString
}.

(** ** The rewriting passes of [requestFinished], in source order *)

Definition regLinks : Regex :=
  seqs [Lit "<a"; Plus true (Chr isSpace); Lit ("href=" ++ dq ++ "/");
        Grp 1 (Plus true (Chr (noneOf dq))); Lit dq].

(** What the first loop appends for a match. *)
Definition linkRewriteBody (articleString : QString)
                           (m : QRegularExpressionMatch) : QString :=
  let link := captured 1 m articleString in
  if indexOf "://" 0 link >=? 0
  then captured 0 m articleString (* external link *)
  else
    let link := if indexOf ":" 0 link >=? 0
                then replaceChar ":"%char "%3A" link else link in
    let n := indexOf "#" 1 link in
    let link :=
      if n >? 0
      then
        let anchor := replaceChar "_"%char "%5F" (midToEnd (Z.to_nat n + 1) link) in
        truncate (Z.to_nat n) link ++ "?gdanchor=" ++ anchor
      else link in
    "<a href=" ++ dq ++ "/" ++ link ++ dq.

Definition passLinks (articleString : QString) : QString :=
  rewriteLoop (linkRewriteBody articleString)
              (globalMatch regLinks articleString) articleString.

Definition regIndexPhp : Regex :=
  seqs [Lit "<a"; Chr isSpace; Lit ("href=" ++ dq);
        Grp 1 (seqs [Lit "/";
                     Star true (Grp 2 (Seq (Star true (Chr isWord)) (Lit "/")));
                     Lit "index"; Chr notNewline; Lit "php?"])].

Definition reg1 : Regex :=
  seqs [LitCI "<audio"; Chr isSpace; Plus false (Chr anyChar); LitCI "</audio>"].

Definition reg2 : Regex :=
  seqs [LitCI "<source"; Plus true (Chr isSpace); LitCI ("src=" ++ dq);
        Grp 1 (Plus true (Chr (noneOf dq)))].

Definition playIcon : QString :=
  dq ++ "><img src=" ++ dq ++ "qrcx://localhost/icons/playsound.png" ++ dq
  ++ " border=" ++ dq ++ "0" ++ dq ++ " align=" ++ dq ++ "absmiddle" ++ dq
  ++ " alt=" ++ dq ++ "Play" ++ dq ++ "/></a>".

Definition audioTagBody (articleString : QString)
                        (m : QRegularExpressionMatch) : QString :=
  let tag := captured 0 m articleString in
  match firstMatch reg2 tag 0 with
  | Some match2 =>
      let ref := captured 1 match2 tag in
      "<a href=" ++ dq ++ ref ++ playIcon
  | None => captured 0 m articleString
  end.

Definition passAudioTag (articleString : QString) : QString :=
  rewriteLoop (audioTagBody articleString)
              (globalMatch reg1 articleString) articleString.

Definition regAudioUrl : Regex :=
  seqs [Lit "<a"; Plus true (Chr isSpace); Lit ("href=" ++ dq);
        Grp 1 (seqs [Lit "//upload.wikimedia.org/wikipedia/";
                     Star true (Chr (noneOf (dq ++ "'&")));
                     Lit ".og"; Chr (oneOf "ga");
                     Alt (Lit ".mp3") Eps]);
        Lit dq].

Definition rxLink : Regex :=
  seqs [Lit "<a"; Plus true (Chr isSpace); Lit ("href=" ++ dq);
        Plus true (Chr (noneOf ("/:" ++ dq ++ ">#")))].

(** [for( i = from; i < from + len; i++ ) if( s.at( i ) == '_' ) s[ i ] = ' '] *)
Fixpoint underscoresToSpaces (from len : nat) (s : QString) : QString :=
  match s with
  | [] => []
  | c :: s' =>
      match from with
      | S from' => c :: underscoresToSpaces from' len s'
      | O =>
          match len with
          | O => s
          | S len' =>
              (if Ascii.eqb c "_"%char then " "%char else c)
                :: underscoresToSpaces 0 len' s'
          end
      end
  end.

(** The matches are those of the string as it was before the loop; the
    assignments keep every position. *)
Definition passUnderscores (articleString : QString) : QString :=
  fold_left
    (fun s m =>
       underscoresToSpaces (capturedStart m + 9)
                           (capturedEnd m - (capturedStart m + 9)) s)
    (globalMatch rxLink articleString) articleString.

Definition regFileLink : Regex :=
  seqs [LitCI "<a"; Plus true (Chr isSpace); LitCI ("href=" ++ dq);
        Grp 1 (seqs [Star true (Chr (noneOf (":/" ++ dq)));
                     LitCI "file%3A";
                     Plus true (Chr (noneOf ("/" ++ dq)));
                     Lit dq])].

Definition regSrcset : Regex :=
  seqs [Lit " srcset"; Star true (Chr isSpace); Lit "=";
        Star true (Chr isSpace); Lit (dq ++ "/");
        Plus true (Chr (noneOf dq)); Lit dq].

Section Passes.

Variable dict : MediaWikiDictionary.

(** [QUrl wikiUrl( url ); wikiUrl.setPath( "/" );] *)
Definition wikiUrl : QUrl := setPath "/" (parsedUrl dict).

Definition passIndexPhp (articleString : QString) : QString :=
  replaceRegex regIndexPhp
               ("<a href=" ++ dq ++ urlToString wikiUrl ++ "\1") articleString.

Definition passAudioUrl (articleString : QString) : QString :=
  replaceRegex regAudioUrl
               (addAudioLink dict (dq ++ scheme wikiUrl ++ ":\1" ++ dq) (getId dict)
                ++ "<a href=" ++ dq ++ scheme wikiUrl ++ ":\1" ++ dq)
               articleString.

Definition passSrcScheme (articleString : QString) : QString :=
  replaceStr (" src=" ++ dq ++ "//") (" src=" ++ dq ++ scheme wikiUrl ++ "://")
             articleString.

Definition passSrcRoot (articleString : QString) : QString :=
  replaceStr ("src=" ++ dq ++ "/") ("src=" ++ dq ++ urlToString wikiUrl)
             articleString.

Definition passWikiPath (articleString : QString) : QString :=
  replaceStr ("<a href=" ++ dq ++ "/wiki/") ("<a href=" ++ dq) articleString.

Definition passFileLink (articleString : QString) : QString :=
  replaceRegex regFileLink
               ("<a href=" ++ dq ++ url dict ++ "/index.php?title=\1")
               articleString.

Definition passHrefScheme (articleString : QString) : QString :=
  replaceStr (" href=" ++ dq ++ "//") (" href=" ++ dq ++ scheme wikiUrl ++ "://")
             articleString.

Definition passCssUrl (articleString : QString) : QString :=
  replaceStr ("url(" ++ dq ++ "//") ("url(" ++ dq ++ scheme wikiUrl ++ "://")
             articleString.

Definition srcsetBody (articleString : QString)
                      (m : QRegularExpressionMatch) : QString :=
  replaceStr "//" (scheme wikiUrl ++ "://") (captured 0 m articleString).

Definition passSrcset (articleString : QString) : QString :=
  rewriteLoop (srcsetBody articleString)
              (globalMatch regSrcset articleString) articleString.

(** The passes by name, for statements about each of them. *)
Inductive Pass :=
| LinkRewrite | IndexPhp | AudioTag | AudioUrl | SrcScheme | SrcRoot
| WikiPath | Underscores | FileLink | HrefScheme | CssUrl | Srcset.

Definition pipeline : list Pass :=
  [LinkRewrite; IndexPhp; AudioTag; AudioUrl; SrcScheme; SrcRoot;
   WikiPath; Underscores; FileLink; HrefScheme; CssUrl; Srcset].

Definition runPass (p : Pass) : QString -> QString :=
  match p with
  | LinkRewrite => passLinks
  | IndexPhp => passIndexPhp
  | AudioTag => passAudioTag
  | AudioUrl => passAudioUrl
  | SrcScheme => passSrcScheme
  | SrcRoot => passSrcRoot
  | WikiPath => passWikiPath
  | Underscores => passUnderscores
  | FileLink => passFileLink
  | HrefScheme => passHrefScheme
  | CssUrl => passCssUrl
  | Srcset => passSrcset
  end.

(** Whether the pattern a pass looks for occurs in the string. *)
Definition occursRegex (re : Regex) (s : QString) : bool :=
  match globalMatch re s with [] => false | _ :: _ => true end.
Definition occursStr (needle s : QString) : bool :=
  negb (indexOf needle 0 s =? -1).

Definition passMatches (p : Pass) (s : QString) : bool :=
  match p with
  | LinkRewrite => occursRegex regLinks s
  | IndexPhp => occursRegex regIndexPhp s
  | AudioTag => occursRegex reg1 s
  | AudioUrl => occursRegex regAudioUrl s
  | SrcScheme => occursStr (" src=" ++ dq ++ "//") s
  | SrcRoot => occursStr ("src=" ++ dq ++ "/") s
  | WikiPath => occursStr ("<a href=" ++ dq ++ "/wiki/") s
  | Underscores => occursRegex rxLink s
  | FileLink => occursRegex regFileLink s
  | HrefScheme => occursStr (" href=" ++ dq ++ "//") s
  | CssUrl => occursStr ("url(" ++ dq ++ "//") s
  | Srcset => occursRegex regSrcset s
  end.

Definition transformPasses (articleString : QString) : QString :=
  fold_left (fun s p => runPass p s) pipeline articleString.

(** From [textNode.toElement().text()] to the bytes appended to [data]. *)
Definition articleBody (parseNode : option QDomNode) (textNode : QDomNode)
  : QByteArray :=
  let articleString :=
    generateTableOfContentsIfEmpty parseNode
      (transformPasses (elementText textNode)) in
  (if isToLanguageRTL dict
   then "<div class=" ++ dq ++ "mwiki" ++ dq ++ " dir=" ++ dq ++ "rtl" ++ dq ++ ">"
   else "<div class=" ++ dq ++ "mwiki" ++ dq ++ ">")
  ++ toUtf8 articleString ++ "</div>".

End Passes.

(** ** Notions used in the statements about the passes *)

(** A span of the subject: first position and position after the last. *)
Definition Span := (nat * nat)%type.

Definition spanOf (m : QRegularExpressionMatch) : Span :=
  (capturedStart m, capturedEnd m).

Definition regexSpans (re : Regex) (s : QString) : list Span :=
  map spanOf (globalMatch re s).

(** The occurrences [QString::replace( before, after )] replaces, found
    by the scan of [replace_go]. *)
Fixpoint occurrences_go (before : QString) (skip : nat) (s : QString)
                        (pos : nat) : list Span :=
  match s with
  | [] => []
  | _ :: s' =>
      match skip with
      | S k => occurrences_go before k s' (S pos)
      | O =>
          if startsWith before s
          then (pos, (pos + length before)%nat)
                 :: occurrences_go before (length before - 1) s' (S pos)
          else occurrences_go before 0 s' (S pos)
      end
  end.

Definition occurrences (before s : QString) : list Span :=
  occurrences_go before 0 s 0.

(** The spans of the subject that a pass matches. *)
Definition passSpans (p : Pass) (s : QString) : list Span :=
  match p with
  | LinkRewrite => regexSpans regLinks s
  | IndexPhp => regexSpans regIndexPhp s
  | AudioTag => regexSpans reg1 s
  | AudioUrl => regexSpans regAudioUrl s
  | SrcScheme => occurrences (" src=" ++ dq ++ "//") s
  | SrcRoot => occurrences ("src=" ++ dq ++ "/") s
  | WikiPath => occurrences ("<a href=" ++ dq ++ "/wiki/") s
  | Underscores => regexSpans rxLink s
  | FileLink => regexSpans regFileLink s
  | HrefScheme => occurrences (" href=" ++ dq ++ "//") s
  | CssUrl => occurrences ("url(" ++ dq ++ "//") s
  | Srcset => regexSpans regSrcset s
  end.

(** Non-empty spans that follow one another from [pos] on without
    overlap. *)
Fixpoint successive (pos : nat) (spans : list Span) : Prop :=
  match spans with
  | [] => True
  | (b, e) :: rest => (pos <= b)%nat /\ (b < e)%nat /\ successive e rest
  end.

(** The subject from [pos] on, with each span replaced by the text given
    for it and everything between the spans kept. *)
Fixpoint splice (spans : list Span) (texts : list QString) (pos : nat)
                (s : QString) : QString :=
  match spans, texts with
  | (b, e) :: spans', t :: texts' =>
      mid pos (b - pos) s ++ t ++ splice spans' texts' e s
  | _, _ => midToEnd pos s
  end.

(** A pattern that cannot match the empty string. *)
Fixpoint consumes (r : Regex) : bool :=
  match r with
  | Eps => false
  | Chr _ => true
  | Seq r1 r2 => consumes r1 || consumes r2
  | Alt r1 r2 => consumes r1 && consumes r2
  | Star _ _ => false
  | Grp _ r1 => consumes r1
  end.

(** A continuation whose result lies at least [d] after the position it
    is called at. *)
Definition advancingBy (d : nat) (k : Cont) : Prop :=
  forall s pos caps e c, k s pos caps = Some (e, c) -> (pos + d <= e)%nat.

(** ** SmallSet *)

Definition SmallSet (T : Type) := list T.

(** [SmallSet< long long >::insert]: the result and the set afterwards. *)
Definition insert (x : Z) (elements : SmallSet Z) : bool * SmallSet Z :=
  if existsb (Z.eqb x) elements (* std::find( ... ) != elements.end() *)
  then (false, elements)
  else (true, elements ++ [x]).

(** ** The network *)

(** A [QNetworkReply *] is the number of the request it answers. *)
Definition QNetworkReply := nat.

(** What a finished reply holds when [requestFinished] reads it:
    [error() != NoError] with its [errorString()], a body that
    [QDomDocument::setContent] rejects, or a parsed document. *)
Inductive ReplyOutcome :=
| NetworkError (errorString : QString)
| XmlParseError (errorStr : QString) (errorLine errorColumn : Z)
| XmlDocument (dd : QDomDocument).

Definition Network := QNetworkReply -> ReplyOutcome.

(** A request handed to [QNetworkAccessManager::get]: the URL literal
    and the item added by [Utils::Url::addQueryItem]. *)
Record QNetworkRequest := {
  reqUrl : QString;
  queryItem : QString * QString;
  transferTimeout : option Z
}.

(** The manager, by the requests it was given; [get] returns the reply
    of the new request. *)
Definition QNetworkAccessManager := list QNetworkRequest.

Definition get (req : QNetworkRequest) (mgr : QNetworkAccessManager)
  : QNetworkReply * QNetworkAccessManager :=
  (length mgr, mgr ++ [req]).

(** [gd::wstring] and [gd::toQString], one unit per character. *)
Definition wstring := list ascii.
Definition toQString (w : wstring) : QString := w.

(** ** MediaWikiArticleRequest *)

(** The members of the class and of its base [Dictionary::DataRequest].
    [finishedSignals] and [updateSignals] count the emissions of the
    signals [finished()] and [updated()].  [appendedPages] is a record
    kept for the statements only: the page id and the bytes of every
    append to [data], in order. *)
Record MediaWikiArticleRequest := {
  netReplies : list (QNetworkReply * bool);
  addedPageIds : SmallSet Z;
  data : QByteArray;
  hasAnyData : bool;
  errorString : QString;
  isFinishedFlag : bool;
  finishedSignals : nat;
  updateSignals : nat;
  appendedPages : list (Z * QByteArray)
}.

Definition withNetReplies (l : list (QNetworkReply * bool))
                          (st : MediaWikiArticleRequest) : MediaWikiArticleRequest :=
  {| netReplies := l; addedPageIds := addedPageIds st; data := data st;
     hasAnyData := hasAnyData st; errorString := errorString st;
     isFinishedFlag := isFinishedFlag st;
     finishedSignals := finishedSignals st; updateSignals := updateSignals st;
     appendedPages := appendedPages st |}.

Definition withAddedPageIds (ids : SmallSet Z)
                            (st : MediaWikiArticleRequest) : MediaWikiArticleRequest :=
  {| netReplies := netReplies st; addedPageIds := ids; data := data st;
     hasAnyData := hasAnyData st; errorString := errorString st;
     isFinishedFlag := isFinishedFlag st;
     finishedSignals := finishedSignals st; updateSignals := updateSignals st;
     appendedPages := appendedPages st |}.

(** Modelled from the spec: [Request::isFinished()] of the base class
    reads the terminal flag. *)
Definition isFinished (st : MediaWikiArticleRequest) : bool := isFinishedFlag st.

(** Modelled from the spec: [Request::finish()] of the base class sets
    the terminal flag and emits the completion signal, once: a finished
    request stays as it is. *)
Definition finish (st : MediaWikiArticleRequest) : MediaWikiArticleRequest :=
  if isFinishedFlag st then st
  else
    {| netReplies := netReplies st; addedPageIds := addedPageIds st;
       data := data st; hasAnyData := hasAnyData st;
       errorString := errorString st;
       isFinishedFlag := true;
       finishedSignals := S (finishedSignals st);
       updateSignals := updateSignals st;
       appendedPages := appendedPages st |}.

(** Modelled from the spec: [Request::update()] of the base class
    signals incremental progress of a request that has not finished. *)
Definition update (st : MediaWikiArticleRequest) : MediaWikiArticleRequest :=
  if isFinishedFlag st then st
  else
    {| netReplies := netReplies st; addedPageIds := addedPageIds st;
       data := data st; hasAnyData := hasAnyData st;
       errorString := errorString st;
       isFinishedFlag := isFinishedFlag st;
       finishedSignals := finishedSignals st;
       updateSignals := S (updateSignals st);
       appendedPages := appendedPages st |}.

(** Modelled from the spec: [Request::setErrorString] of the base class
    overwrites the one error string. *)
Definition setErrorString (str : QString) (st : MediaWikiArticleRequest)
  : MediaWikiArticleRequest :=
  {| netReplies := netReplies st; addedPageIds := addedPageIds st;
     data := data st; hasAnyData := hasAnyData st;
     errorString := str;
     isFinishedFlag := isFinishedFlag st;
     finishedSignals := finishedSignals st; updateSignals := updateSignals st;
     appendedPages := appendedPages st |}.

(** [data.resize( prevSize + articleBody.size() ); memcpy( ... );
    hasAnyData = true;] *)
Definition appendData (pageId : Z) (articleBody : QByteArray)
                      (st : MediaWikiArticleRequest) : MediaWikiArticleRequest :=
  {| netReplies := netReplies st; addedPageIds := addedPageIds st;
     data := data st ++ articleBody;
     hasAnyData := true;
     errorString := errorString st;
     isFinishedFlag := isFinishedFlag st;
     finishedSignals := finishedSignals st; updateSignals := updateSignals st;
     appendedPages := appendedPages st ++ [(pageId, articleBody)] |}.

Definition decimal (z : Z) : QString := NilZero.string_of_int (Z.to_int z).

(** [tr( "XML parse error: %1 at %2,%3" ).arg( errorStr ).arg( errorLine )
    .arg( errorColumn )], untranslated. *)
Definition xmlParseErrorMessage (errorStr : QString) (errorLine errorColumn : Z)
  : QString :=
  "XML parse error: " ++ errorStr ++ " at " ++ decimal errorLine
  ++ "," ++ decimal errorColumn.

Definition emptyRequest : MediaWikiArticleRequest :=
  {| netReplies := []; addedPageIds := []; data := []; hasAnyData := false;
     errorString := []; isFinishedFlag := false;
     finishedSignals := 0; updateSignals := 0; appendedPages := [] |}.

Definition articleApi : QString :=
  "/api.php?action=parse&prop=text|revid|sections&format=xml&redirects".

(** The request [addQuery] builds for a term. *)
Definition articleQuery (url : QString) (str : wstring) : QNetworkRequest :=
  {| reqUrl := url ++ articleApi;
     queryItem := ("page" : QString,
                   replaceChar "+"%char "%2B" (toQString str));
     transferTimeout := Some 3000 |}.

Definition addQuery (url : QString) (str : wstring)
                    (st : MediaWikiArticleRequest * QNetworkAccessManager)
  : MediaWikiArticleRequest * QNetworkAccessManager :=
  let '(this, mgr) := st in
  let req := articleQuery url str in
  let '(netReply, mgr') := get req mgr in
  (withNetReplies (netReplies this ++ [(netReply, false)]) this, mgr').

(** The constructor: [addQuery( mgr, str )], then one call per element
    of [alts]. *)
Definition newArticleRequest (str : wstring) (alts : list wstring)
                             (url : QString) (mgr : QNetworkAccessManager)
  : MediaWikiArticleRequest * QNetworkAccessManager :=
  fold_left (fun st alt => addQuery url alt st) alts
            (addQuery url str (emptyRequest, mgr)).

Definition cancel (st : MediaWikiArticleRequest) : MediaWikiArticleRequest :=
  finish st.

(** [dd.namedItem( "api" ).namedItem( "parse" )] *)
Definition parseNodeOf (dd : QDomDocument) : option QDomNode :=
  namedItem "parse" (namedItemIn "api" dd).

Section RequestFinished.

Variable net : Network.
Variable dict : MediaWikiDictionary.

(** The body of the [for] loop of [requestFinished] for the reply at
    the front of [netReplies]; the second component is whether it
    assigned [updated = true]. *)
Definition processReply (netReply : QNetworkReply)
                        (st : MediaWikiArticleRequest)
  : MediaWikiArticleRequest * bool :=
  match net netReply with
  | NetworkError str => (setErrorString str st, false)
  | XmlParseError errorStr errorLine errorColumn =>
      (setErrorString (xmlParseErrorMessage errorStr errorLine errorColumn) st,
       false)
  | XmlDocument dd =>
      let parseNode := parseNodeOf dd in
      match parseNode with
      | None => (st, false)
      | Some _ =>
          if QString_eqb (attribute "revid" parseNode) "0" then (st, false)
          else
            let pageId := toLongLong (attribute "pageid" parseNode) in
            let '(inserted, ids) := insert pageId (addedPageIds st) in
            let st := withAddedPageIds ids st in
            if inserted
            then
              match namedItem "text" parseNode with
              | None => (st, false)
              | Some textNode =>
                  (appendData pageId (articleBody dict parseNode textNode) st,
                   true)
              end
            else (st, false)
      end
  end.

(** [for( ; netReplies.size() && netReplies.front().second;
          netReplies.pop_front() )] *)
Fixpoint drain (replies : list (QNetworkReply * bool))
               (st : MediaWikiArticleRequest) (updated : bool)
  : MediaWikiArticleRequest * bool :=
  match replies with
  | (netReply, true) :: rest =>
      let '(st', u) := processReply netReply st in
      drain rest st' (u || updated)
  | _ => (withNetReplies replies st, updated)
  end.

(** The search loop: mark the first entry whose reply is [r]. *)
Fixpoint markFinished (r : QNetworkReply) (replies : list (QNetworkReply * bool))
  : option (list (QNetworkReply * bool)) :=
  match replies with
  | [] => None
  | (r', done) :: rest =>
      if (r' =? r)%nat then Some ((r', true) :: rest)
      else option_map (cons (r', done)) (markFinished r rest)
  end.

Definition requestFinished (r : QNetworkReply) (st : MediaWikiArticleRequest)
  : MediaWikiArticleRequest :=
  if isFinished st then st (* Was cancelled *)
  else
    match markFinished r (netReplies st) with
    | None => st (* not our reply *)
    | Some replies =>
        let '(st', updated) := drain replies st false in
        match netReplies st' with
        | [] => finish st'
        | _ :: _ => if updated then update st' else st'
        end
    end.

(** What can happen to a request after its construction. *)
Inductive Event :=
| ReplyFinished (r : QNetworkReply)
| Cancel.

Definition step (st : MediaWikiArticleRequest) (ev : Event)
  : MediaWikiArticleRequest :=
  match ev with
  | ReplyFinished r => requestFinished r st
  | Cancel => cancel st
  end.

Definition run (evs : list Event) (st : MediaWikiArticleRequest)
  : MediaWikiArticleRequest :=
  fold_left step evs st.

(** Processing replies one after the other, in the order given. *)
Definition processInOrder (rs : list QNetworkReply)
                          (st : MediaWikiArticleRequest)
  : MediaWikiArticleRequest :=
  fold_left (fun st r => fst (processReply r st)) rs st.

End RequestFinished.

(** ** MediaWikiDictionary::getArticle and ::prefixMatch *)

(** What [getArticle] returns: a [DataRequestInstant] of dictionary.hh
    or the request of this file. *)
Inductive DataRequest :=
| DataRequestInstant (succeeded : bool)
| ArticleRequest (req : MediaWikiArticleRequest).

(** Modelled from the spec: [DataRequestInstant] of dictionary.hh is a
    request that is finished at once and holds no data; its data flag is
    the constructor's argument. *)
Definition requestIsFinished (r : DataRequest) : bool :=
  match r with
  | DataRequestInstant _ => true
  | ArticleRequest req => isFinished req
  end.

Definition requestData (r : DataRequest) : QByteArray :=
  match r with
  | DataRequestInstant _ => []
  | ArticleRequest req => data req
  end.

Definition requestHasAnyData (r : DataRequest) : bool :=
  match r with
  | DataRequestInstant succeeded => succeeded
  | ArticleRequest req => hasAnyData req
  end.

Definition getArticle (dict : MediaWikiDictionary) (word : wstring)
                      (alts : list wstring) (netMgr : QNetworkAccessManager)
  : DataRequest * QNetworkAccessManager :=
  if (80 <? length word)%nat
  then (DataRequestInstant false, netMgr)
  else
    let '(req, netMgr') := newArticleRequest word alts (url dict) netMgr in
    (ArticleRequest req, netMgr').

(** The members of the class and, of its base
    [Dictionary::WordSearchRequest], the matches and the terminal
    flag. *)
Record MediaWikiWordSearchRequest := {
  netReply : option QNetworkReply;
  isCancelling : bool;
  matches : list wstring;
  searchFinishedFlag : bool
}.

Inductive WordSearchRequest :=
| WordSearchRequestInstant
| WordSearch (req : MediaWikiWordSearchRequest).

Definition searchApi : QString :=
  "/api.php?action=query&list=allpages&aplimit=40&format=xml".

(** The request the constructor of [MediaWikiWordSearchRequest] builds. *)
Definition searchQuery (url : QString) (str : wstring) : QNetworkRequest :=
  {| reqUrl := url ++ searchApi;
     queryItem := ("apfrom" : QString,
                   replaceChar "+"%char "%2B" (toQString str));
     transferTimeout := None |}.

Definition newWordSearchRequest (str : wstring) (url : QString)
                                (mgr : QNetworkAccessManager)
  : MediaWikiWordSearchRequest * QNetworkAccessManager :=
  let '(reply, mgr') := get (searchQuery url str) mgr in
  ({| netReply := Some reply; isCancelling := false; matches := [];
      searchFinishedFlag := false |}, mgr').

(** Modelled from the spec: [WordSearchRequestInstant] of dictionary.hh
    is a search that is finished at once and has no matches. *)
Definition searchIsFinished (r : WordSearchRequest) : bool :=
  match r with
  | WordSearchRequestInstant => true
  | WordSearch req => searchFinishedFlag req
  end.

Definition searchMatches (r : WordSearchRequest) : list wstring :=
  match r with
  | WordSearchRequestInstant => []
  | WordSearch req => matches req
  end.

Definition prefixMatch (dict : MediaWikiDictionary) (word : wstring)
                       (maxResults : Z) (netMgr : QNetworkAccessManager)
  : WordSearchRequest * QNetworkAccessManager :=
  if (80 <? length word)%nat
  then (WordSearchRequestInstant, netMgr)
  else
    let '(req, netMgr') := newWordSearchRequest word (url dict) netMgr in
    (WordSearch req, netMgr').

(** ** The table of contents as the specification describes it

    The synthesizer of the specification, written from its words: it
    keeps the current open nesting level and emits tags; [render] gives
    the text of a tag. *)

Inductive TocTag :=
| OpenToc
| OpenList
| CloseList
| OpenItem
| CloseItem
| Anchor (el : QDomNode)
| CloseToc.

Definition renderTag (t : TocTag) : QString :=
  match t with
  | OpenToc => tocHeader
  | OpenList => nl ++ "<ul>" ++ nl
  | CloseList => "</ul>" ++ nl
  | OpenItem => "<li>"
  | CloseItem => "</li>" ++ nl
  | Anchor el => tocLink el
  | CloseToc => "</div>"
  end.

Definition render (ts : list TocTag) : QString := flat_map renderTag ts.

(** Close the open item, and [k] lists with the items holding them. *)
Definition closeDown (k : nat) : list TocTag :=
  CloseItem :: concat (repeat [CloseList; CloseItem] k).

(** - level == current+1: open one new nested list, then one list item;
    - level == current: close the previous item, open a new item;
    - level < current: close items/lists down to that depth, then open a
      new item. *)
Definition specOpenItem (current level : Z) : list TocTag :=
  (if level =? current + 1 then [OpenList]
   else closeDown (Z.to_nat (current - level)))
  ++ [OpenItem].

(** Each item renders as an anchor to the section. *)
Definition specItem (current level : Z) (el : QDomNode) : list TocTag :=
  specOpenItem current level ++ [Anchor el].

(** After the loop, close all remaining open levels and the outer
    container. *)
Fixpoint specToc (current : Z) (items : list (Z * QDomNode)) : list TocTag :=
  match items with
  | [] => closeDown (Z.to_nat (current - 1)) ++ [CloseList; CloseToc]
  | (level, el) :: rest => specItem current level el ++ specToc level rest
  end.

Definition tocBySpec (levels : list Z) (els : list QDomNode) : list TocTag :=
  OpenToc :: specToc 0 (combine levels els).

(** Proper nesting of a tag sequence, checked with the stack of what is
    open: a list opens in the container or in an item, an item in a
    list, an anchor in an item, and a closing tag closes what was opened
    last. *)
Inductive Opened := InToc | InList | InItem.

Fixpoint wellNested (stack : list Opened) (ts : list TocTag) : bool :=
  match ts with
  | [] => match stack with [] => true | _ :: _ => false end
  | t :: ts' =>
      match t, stack with
      | OpenToc, [] => wellNested [InToc] ts'
      | OpenList, InToc :: _ => wellNested (InList :: stack) ts'
      | OpenList, InItem :: _ => wellNested (InList :: stack) ts'
      | OpenItem, InList :: _ => wellNested (InItem :: stack) ts'
      | Anchor _, InItem :: _ => wellNested stack ts'
      | CloseItem, InItem :: stack' => wellNested stack' ts'
      | CloseList, InList :: stack' => wellNested stack' ts'
      | CloseToc, InToc :: stack' => wellNested stack' ts'
      | _, _ => false
      end
  end.

(** What is open inside an item of nesting level [depth]. *)
Definition stackAt (depth : nat) : list Opened :=
  concat (repeat [InItem; InList] depth) ++ [InToc].

Definition isOpenList (t : TocTag) : bool :=
  match t with OpenList => true | _ => false end.
Definition isCloseList (t : TocTag) : bool :=
  match t with CloseList => true | _ => false end.
Definition isOpenItem (t : TocTag) : bool :=
  match t with OpenItem => true | _ => false end.
Definition isCloseItem (t : TocTag) : bool :=
  match t with CloseItem => true | _ => false end.

Definition countTags (f : TocTag -> bool) (ts : list TocTag) : nat :=
  length (filter f ts).

(** The [toclevel] attributes of the [<s>] children, as numbers. *)
Definition levelsAre (els : list QDomNode) (levels : list Z) : Prop :=
  map (fun el => toInt (toclevel el)) els = map Some levels.

Definition startsAtOne (levels : list Z) : bool :=
  match levels with
  | l :: _ => l =? 1
  | [] => false
  end.

Fixpoint increasesByAtMostOne (levels : list Z) : bool :=
  match levels with
  | l1 :: rest =>
      match rest with
      | l2 :: _ => (l2 <=? l1 + 1) && increasesByAtMostOne rest
      | [] => true
      end
  | [] => true
  end.

Definition allPositive (levels : list Z) : bool := forallb (fun l => 0 <? l) levels.

(** The levels the synthesizer accepts after a section of level
    [current]: positive and at most one above the level before. *)
Fixpoint acceptedFrom (current : Z) (levels : list Z) : bool :=
  match levels with
  | [] => true
  | l :: rest => (0 <? l) && (l <=? current + 1) && acceptedFrom l rest
  end.

(** A malformed level, with [current] the level of the section before:
    not a number, not positive, or more than one above [current]. *)
Fixpoint containsMalformedLevel (current : Z) (levelStrings : list QString) : bool :=
  match levelStrings with
  | [] => false
  | s :: rest =>
      match toInt s with
      | None => true
      | Some level =>
          (level <=? 0) || (level >? current + 1)
          || containsMalformedLevel level rest
      end
  end.

Definition wrapperOpen (dict : MediaWikiDictionary) : QByteArray :=
  if isToLanguageRTL dict
  then "<div class=" ++ dq ++ "mwiki" ++ dq ++ " dir=" ++ dq ++ "rtl" ++ dq ++ ">"
  else "<div class=" ++ dq ++ "mwiki" ++ dq ++ ">".

(** ** Notions used in the statements about a request *)

(** What a request has produced: everything but the queue, the
    terminal flag and the signal counts. *)
Definition contents (st : MediaWikiArticleRequest)
  : SmallSet Z * QByteArray * bool * QString * list (Z * QByteArray) :=
  (addedPageIds st, data st, hasAnyData st, errorString st, appendedPages st).

(** A completion event for reply [r] is among [evs]. *)
Definition completedBy (evs : list Event) (r : QNetworkReply) : Prop :=
  In (ReplyFinished r) evs.

(** Every entry of the queue that is marked finished satisfies [P]. *)
Definition marked (P : QNetworkReply -> Prop)
                  (replies : list (QNetworkReply * bool)) : Prop :=
  Forall (fun e => snd e = true -> P (fst e)) replies.

(** The record of appended pages agrees with the buffer and the page-id
    set, and no page id was appended twice. *)
Definition pagesConsistent (st : MediaWikiArticleRequest) : Prop :=
  NoDup (map fst (appendedPages st))
  /\ incl (map fst (appendedPages st)) (addedPageIds st)
  /\ data st = concat (map snd (appendedPages st)).

(** The error text of a failed reply: a transport error or an XML parse
    error. *)
Definition failureMessage (outcome : ReplyOutcome) : option QString :=
  match outcome with
  | NetworkError str => Some str
  | XmlParseError errorStr errorLine errorColumn =>
      Some (xmlParseErrorMessage errorStr errorLine errorColumn)
  | XmlDocument _ => None
  end.

Definition hasAttribute (name : QString) (n : option QDomNode) : bool :=
  match n with
  | Some (QDomElement _ attrs _) =>
      match lookupAttribute name attrs with
      | Some _ => true
      | None => false
      end
  | _ => false
  end.

Definition pageIdOf (dd : QDomDocument) : Z :=
  toLongLong (attribute "pageid" (parseNodeOf dd)).

(** ** Sample values for the examples *)

Definition sampleDocument (attrs : list (string * string))
                          (nodes : list QDomNode) : QDomDocument :=
  [QDomElement "api" []
     [QDomElement "parse"
        (map (fun kv => (list_ascii_of_string (fst kv),
                         list_ascii_of_string (snd kv))) attrs)
        nodes]].

Definition samplePage (attrs : list (string * string)) (nodes : list QDomNode)
  : ReplyOutcome :=
  XmlDocument (sampleDocument attrs nodes).

Definition sampleText (txt : QString) : QDomNode :=
  QDomElement "text" [] [QDomText txt].

(** A found page without text node, and a page that was not found. *)
Definition sampleTextlessDocument : QDomDocument :=
  sampleDocument [("revid", "9"); ("pageid", "13")]%string [].

Definition sampleNotFoundDocument : QDomDocument :=
  sampleDocument [("revid", "0"); ("pageid", "0")]%string [].

(** Replies 0 to 6: a page, a transport failure, a second term resolving
    to the page of reply 0, another page, a page without [revid], a
    page without text, and a second term resolving to that page; the
    others do not parse. *)
Definition sampleNet : Network :=
  fun r =>
    match r with
    | 0%nat => samplePage [("revid", "5"); ("pageid", "10")]%string
                          [sampleText "Alpha"]
    | 1%nat => NetworkError "Connection timed out"
    | 2%nat => samplePage [("revid", "5"); ("pageid", "10")]%string
                          [sampleText "Alpha again"]
    | 3%nat => samplePage [("revid", "8"); ("pageid", "11")]%string
                          [sampleText "Beta"]
    | 4%nat => samplePage [("pageid", "12")]%string [sampleText "Gamma"]
    | 5%nat => XmlDocument sampleTextlessDocument
    | 6%nat => samplePage [("revid", "9"); ("pageid", "13")]%string
                          [sampleText "Delta"]
    | _ => XmlParseError "unexpected end of file" 1 1
    end.


Definition sampleSection (level : string) : QDomNode :=
  QDomElement "s" [("toclevel" : QString, level : QString);
                   ("linkAnchor" : QString, "Early_life" : QString);
                   ("number" : QString, "1" : QString);
                   ("line" : QString, "Early life" : QString)] [].

Definition sampleSections (levels : list string) : QDomNode :=
  QDomElement "sections" [] (map sampleSection levels).

(** A dictionary for https://en.wikipedia.org/w; its audio registrar is a
    stand-in that returns a script element around its argument. *)
Definition sampleDict : MediaWikiDictionary :=
  {| getId := "wiki";
     url := "https://en.wikipedia.org/w";
     parsedUrl := {| scheme := "https"; authority := "en.wikipedia.org";
                     path := "/w" |};
     isToLanguageRTL := false;
     addAudioLink := fun u _ => "<script>" ++ u ++ "</script>" |}.

(** A parse node whose text has the empty-ToC marker and whose sections
    jump from level 1 to level 3. *)
Definition sampleMarkedText : QString := "Intro" ++ emptyTocIndicator ++ "Body".

Definition sampleMalformedParse : QDomNode :=
  QDomElement "parse" [("revid" : QString, "5" : QString)]
    [sampleText sampleMarkedText; sampleSections ["1"; "3"]%string].

(** Links as the API renders them. *)
Definition sampleWikiLink : QString :=
  "<a href=" ++ dq ++ "Main Page" ++ dq ++ ">Main Page</a>".

Definition sampleTwoFragments : QString :=
  "<a href=" ++ dq ++ "/wiki/A#b#c" ++ dq ++ ">".

Definition sampleNamespaceLink : QString :=
  "<a href=" ++ dq ++ "/wiki/Help:Contents_page#Top_part" ++ dq ++ ">".

(** A term of 81 characters. *)
Definition sampleLongTerm : wstring := repeat "a"%char 81.

(** The parse node of a parsed document. *)
Definition sampleParseNode (r : QNetworkReply) : option QDomNode :=
  match sampleNet r with
  | XmlDocument dd => parseNodeOf dd
  | _ => None
  end.

(* ================================================================== *)
(** * Part I, continued: the rest of the file                          *)
(* ================================================================== *)

(** ** MediaWikiSectionsParser: the assertions

    The two [Q_ASSERT]s of the class, evaluated along a run:
    [currentLevel <= previousLevel] on entry to [closeListTags] and
    [level == previousLevel] in [addListLevel]. *)

Definition closeListTags_assert (currentLevel : Z) (p : MediaWikiSectionsParser)
  : bool :=
  currentLevel <=? previousLevel p.

Definition addListLevel_asserts (levelString : QString)
                                (p : MediaWikiSectionsParser) : bool :=
  match toInt levelString with
  | None => true
  | Some level =>
      if level <=? 0 then true
      else if level >? previousLevel p + 1 then true
      else
        if level =? previousLevel p + 1
        then level =? level
        else closeListTags_assert level p
             && (level =? previousLevel (closeListTags level p))
  end.

Fixpoint tocLoop_asserts (els : list QDomNode) (p : MediaWikiSectionsParser)
  : bool :=
  match els with
  | [] => closeListTags_assert 1 p
  | el :: rest =>
      addListLevel_asserts (toclevel el) p
      && match addListLevel (toclevel el) p with
         | (false, _) => true
         | (true, p') => tocLoop_asserts rest (appendToc p' (tocLink el))
         end
  end.

Definition generateTableOfContents_asserts (sectionsElement : QDomNode)
                                           (p : MediaWikiSectionsParser) : bool :=
  match childElements "s" (Some sectionsElement) with
  | [] => true
  | els =>
      tocLoop_asserts els {| tableOfContents := tocHeader;
                             previousLevel := previousLevel p |}
  end.

(** ** MediaWikiWordSearchRequest *)

(** The elements below a node in document order, which is the order of
    [QDomElement::elementsByTagName]. *)
Fixpoint descendants (n : QDomNode) : list QDomNode :=
  match n with
  | QDomElement _ _ cs => flat_map (fun c => c :: descendants c) cs
  | _ => []
  end.

(** [toElement().elementsByTagName( name )]: empty for a null node and
    for a node that is not an element. *)
Definition elementsByTagName (name : QString) (n : option QDomNode)
  : list QDomNode :=
  match n with
  | Some e => filter (isElementNamed name) (descendants e)
  | None => []
  end.

(** The request with the members of the base class that
    [downloadFinished] and [cancel] write: the error string and the
    emissions of [finished()]. *)
Record WordSearchState := {
  searchRequest : MediaWikiWordSearchRequest;
  searchErrorString : QString;
  searchFinishedSignals : nat
}.

Definition newWordSearchState (str : wstring) (url : QString)
                              (mgr : QNetworkAccessManager)
  : WordSearchState * QNetworkAccessManager :=
  let '(req, mgr') := newWordSearchRequest str url mgr in
  ({| searchRequest := req; searchErrorString := [];
      searchFinishedSignals := 0 |}, mgr').

(** Modelled from the spec: [Request::finish()] of the base class sets
    the terminal flag and emits the completion signal, once. *)
Definition finishSearch (st : WordSearchState) : WordSearchState :=
  let req := searchRequest st in
  if searchFinishedFlag req then st
  else
    {| searchRequest :=
         {| netReply := netReply req; isCancelling := isCancelling req;
            matches := matches req; searchFinishedFlag := true |};
       searchErrorString := searchErrorString st;
       searchFinishedSignals := S (searchFinishedSignals st) |}.

(** Modelled from the spec: [Request::setErrorString] of the base class
    overwrites the one error string. *)
Definition setSearchErrorString (str : QString) (st : WordSearchState)
  : WordSearchState :=
  {| searchRequest := searchRequest st;
     searchErrorString := str;
     searchFinishedSignals := searchFinishedSignals st |}.

(** [matches.push_back( ... )] for each title. *)
Definition pushMatches (titles : list wstring) (st : WordSearchState)
  : WordSearchState :=
  let req := searchRequest st in
  {| searchRequest :=
       {| netReply := netReply req; isCancelling := isCancelling req;
          matches := matches req ++ titles;
          searchFinishedFlag := searchFinishedFlag req |};
     searchErrorString := searchErrorString st;
     searchFinishedSignals := searchFinishedSignals st |}.

(** [MediaWikiWordSearchRequest::cancel]:
    [isCancelling = true; netReply.reset(); finish();] *)
Definition cancelSearch (st : WordSearchState) : WordSearchState :=
  let req := searchRequest st in
  finishSearch
    {| searchRequest :=
         {| netReply := None; isCancelling := true;
            matches := matches req;
            searchFinishedFlag := searchFinishedFlag req |};
       searchErrorString := searchErrorString st;
       searchFinishedSignals := searchFinishedSignals st |}.

(** [dd.namedItem( "api" ).namedItem( "query" ).namedItem( "allpages" )] *)
Definition allpagesOf (dd : QDomDocument) : option QDomNode :=
  namedItem "allpages" (namedItem "query" (namedItemIn "api" dd)).

Definition titlesOf (pages : option QDomNode) : list wstring :=
  map (fun p => attribute "title" (Some p)) (elementsByTagName "p" pages).

(** [MediaWikiWordSearchRequest::downloadFinished].  [None] stands for
    the dereference of a reset [netReply]. *)
Definition downloadFinished (net : Network) (st : WordSearchState)
  : option WordSearchState :=
  let req := searchRequest st in
  if isCancelling req || searchFinishedFlag req then Some st (* Was cancelled *)
  else
    match netReply req with
    | None => None
    | Some r =>
        match net r with
        | NetworkError str => Some (finishSearch (setSearchErrorString str st))
        | XmlParseError errorStr errorLine errorColumn =>
            Some (finishSearch
                    (setSearchErrorString
                       (xmlParseErrorMessage errorStr errorLine errorColumn) st))
        | XmlDocument dd =>
            match allpagesOf dd with
            | None => Some (finishSearch st)
            | Some pages =>
                Some (finishSearch (pushMatches (titlesOf (Some pages)) st))
            end
        end
    end.

(** What can happen to a search after its construction. *)
Inductive SearchEvent :=
| DownloadFinished
| CancelSearch.

Definition searchStep (net : Network) (st : WordSearchState) (ev : SearchEvent)
  : option WordSearchState :=
  match ev with
  | DownloadFinished => downloadFinished net st
  | CancelSearch => Some (cancelSearch st)
  end.

Fixpoint runSearch (net : Network) (evs : list SearchEvent) (st : WordSearchState)
  : option WordSearchState :=
  match evs with
  | [] => Some st
  | ev :: evs' =>
      match searchStep net st ev with
      | Some st' => runSearch net evs' st'
      | None => None
      end
  end.

(** ** MediaWikiDictionary: constructor, loadIcon, makeDictionaries *)

Module DictionaryClass.

(** A [QIcon]: null, or made from a file or resource name. *)
Inductive QIcon :=
| NullIcon
| IconFrom (source : QString).

Definition isNull (i : QIcon) : bool :=
  match i with NullIcon => true | IconFrom _ => false end.

(** The members the constructor initializes. *)
Record Members := {
  id : QString;
  name : QString;
  url : QString;
  icon : QString;
  langId : Z
}.

(** The icon members of [Dictionary::Class] that [loadIcon] uses. *)
Record IconState := {
  dictionaryIconLoaded : bool;
  dictionaryIcon : QIcon;
  dictionaryNativeIcon : QIcon
}.

(** An entry of [Config::MediaWikis]. *)
Module Config.
Record MediaWiki := {
  id : QString;
  name : QString;
  url : QString;
  enabled : bool;
  icon : QString
}.
End Config.

Section Collaborators.

(** [LangCoder::code2toInt] of langcoder.hh, on the two characters it is
    given. *)
Variable code2toInt : QString -> Z.

(** [QFileInfo( QDir( Config::getConfigDir() ), icon )]: its
    [absoluteFilePath()] when [isFile()] holds. *)
Variable configFile : QString -> option QString.

(** [loadIconFromFile( path, true )] of [Dictionary::Class], by what it
    does to the icon members. *)
Variable loadIconFromFile : QString -> IconState -> IconState.

(** [url[ i ] == c] for an index inside the string. *)
Definition charAtIs (c : ascii) (i : nat) (s : QString) : bool :=
  match nth_error s i with
  | Some d => Ascii.eqb d c
  | None => false
  end.

(** The constructor: [langId] from the two characters before the first
    dot of [url]. *)
Definition newMediaWikiDictionary (id name url icon : QString) : Members :=
  let n := indexOf "." 0 url in
  {| id := id; name := name; url := url; icon := icon;
     langId :=
       if (n =? 2) || ((n >? 3) && charAtIs "/"%char (Z.to_nat (n - 3)) url)
       then code2toInt (mid (Z.to_nat (n - 2)) 2 url)
       else 0 |}.

(** [url.contains( s )] *)
Definition contains (needle s : QString) : bool :=
  negb (indexOf needle 0 s =? -1).

Definition setIcons (i : QIcon) (s : IconState) : IconState :=
  {| dictionaryIconLoaded := dictionaryIconLoaded s;
     dictionaryIcon := i; dictionaryNativeIcon := i |}.

Definition loadIcon (d : Members) (s : IconState) : IconState :=
  if dictionaryIconLoaded s then s
  else
    let s1 :=
      match icon d with
      | [] => s
      | _ :: _ =>
          match configFile (icon d) with
          | Some absoluteFilePath => loadIconFromFile absoluteFilePath s
          | None => s
          end
      end in
    let s2 :=
      if isNull (dictionaryIcon s1)
      then
        if contains "tionary" (url d)
        then setIcons (IconFrom ":/icons/wiktionary.png") s1
        else setIcons (IconFrom ":/icons/icon32_wiki.png") s1
      else s1 in
    {| dictionaryIconLoaded := true;
       dictionaryIcon := dictionaryIcon s2;
       dictionaryNativeIcon := dictionaryNativeIcon s2 |}.

(** The loop of [makeDictionaries] over [wikis]. *)
Definition makeDictionaries (wikis : list Config.MediaWiki) : list Members :=
  fold_left
    (fun result w =>
       if Config.enabled w
       then result ++ [newMediaWikiDictionary (Config.id w) (Config.name w)
                                              (Config.url w) (Config.icon w)]
       else result)
    wikis [].

End Collaborators.

End DictionaryClass.

(** ** Notions used in the further statements *)

(** The error text left by processing the replies [rs] in order: that
    of the last one that failed, or [e] when none did. *)
Definition lastFailure (net : Network) (rs : list QNetworkReply) (e : QString)
  : QString :=
  fold_left
    (fun e r => match failureMessage (net r) with Some m => m | None => e end)
    rs e.

(** A fragment as [requestFinished] appends it: an article wrapped in
    the container of the dictionary. *)
Definition wrappedFragment (dict : MediaWikiDictionary) (bytes : QByteArray)
  : Prop :=
  exists body : QByteArray, bytes = wrapperOpen dict ++ body ++ "</div>".

(** The characters. *)
Definition allAscii : list ascii := map ascii_of_nat (seq 0 256).

(** Every match of the pattern contains the character [c]. *)
Fixpoint mandatory (c : ascii) (r : Regex) : bool :=
  match r with
  | Eps => false
  | Chr p => forallb (fun d => implb (p d) (Ascii.eqb d c)) allAscii
  | Seq r1 r2 => mandatory c r1 || mandatory c r2
  | Alt r1 r2 => mandatory c r1 && mandatory c r2
  | Star _ _ => false
  | Grp _ r1 => mandatory c r1
  end.

(** A character the loop of [passUnderscores] may put in place of [c]. *)
Definition underscoreOrSame (c d : ascii) : Prop :=
  d = c \/ (c = "_"%char /\ d = " "%char).

(** ** Further sample values *)

Definition sampleAllpages : QDomDocument :=
  [QDomElement "api" []
     [QDomElement "query" []
        [QDomElement "allpages" []
           [QDomElement "p" [("title" : QString, "Rocq" : QString)] [];
            QDomElement "p" [("title" : QString, "Rocket" : QString)] []]]]].

Definition sampleSearchNet : Network :=
  fun r =>
    match r with
    | 0%nat => XmlDocument sampleAllpages
    | _ => NetworkError "Host not found"
    end.

Definition sampleReplies : list (QNetworkReply * bool) :=
  [(0%nat, false); (1%nat, false)].


(** A stand-in for [LangCoder::code2toInt] in the examples: the two
    character codes, the second one shifted by eight bits. *)
Definition sampleCode2toInt (code : QString) : Z :=
  match code with
  | [a; b] => Z.of_nat (nat_of_ascii a) + Z.shiftl (Z.of_nat (nat_of_ascii b)) 8
  | _ => 0
  end.

Definition sampleWikis : list DictionaryClass.Config.MediaWiki :=
  [ {| DictionaryClass.Config.id := "a"; DictionaryClass.Config.name := "English Wikipedia";
       DictionaryClass.Config.url := "https://en.wikipedia.org/w";
       DictionaryClass.Config.enabled := true; DictionaryClass.Config.icon := [] |};
    {| DictionaryClass.Config.id := "b"; DictionaryClass.Config.name := "Russian Wikipedia";
       DictionaryClass.Config.url := "https://ru.wikipedia.org/w";
       DictionaryClass.Config.enabled := false; DictionaryClass.Config.icon := [] |};
    {| DictionaryClass.Config.id := "c"; DictionaryClass.Config.name := "French Wiktionary";
       DictionaryClass.Config.url := "https://fr.wiktionary.org/w";
       DictionaryClass.Config.enabled := true; DictionaryClass.Config.icon := [] |} ].

(** The [pageid] of the parse node of [dd] cannot be read as a 64-bit
    number: the attribute is missing, is not a number, or is out of
    range. *)
Definition pageIdUnreadable (dd : QDomDocument) : Prop :=
  hasAttribute "pageid" (parseNodeOf dd) = false
  \/ parseDecimal (attribute "pageid" (parseNodeOf dd)) = None
  \/ exists v : Z,
      parseDecimal (attribute "pageid" (parseNodeOf dd)) = Some v
      /\ inRange 64 v = false.

(** Two different pages, the first without [pageid], the second with
    one that is not a number. *)
Definition sampleNoIdNet : Network :=
  fun r =>
    match r with
    | 0%nat => samplePage [("revid", "5")]%string [sampleText "First"]
    | _ => samplePage [("revid", "6"); ("pageid", "n/a")]%string
                      [sampleText "Second"]
    end.
(* ================================================================== *)
(** * Part II: properties                                              *)
(* ================================================================== *)

(** ** List facts *)

Lemma firstn_plus {A : Type} (k j : nat) (l : list A) :
  firstn (k + j) l = firstn k l ++ firstn j (skipn k l).
Proof.
  revert l; induction k as [|k IH]; intros [|a l]; simpl;
    try reflexivity.
  - now rewrite firstn_nil.
  - f_equal. apply IH.
Qed.

Lemma Forall_skipn_of {A : Type} (P : A -> Prop) (j : nat) (l : list A) :
  Forall P l -> Forall P (skipn j l).
Proof.
  intros H. rewrite <- (firstn_skipn j l) in H.
  now apply Forall_app in H.
Qed.

Lemma Forall_firstn_of {A : Type} (P : A -> Prop) (j : nat) (l : list A) :
  Forall P l -> Forall P (firstn j l).
Proof.
  intros H. rewrite <- (firstn_skipn j l) in H.
  now apply Forall_app in H.
Qed.

Lemma skipn_cons_step {A : Type} (pos : nat) (full : list A) (c : A) (s : list A) :
  skipn pos full = c :: s -> skipn (S pos) full = s.
Proof.
  intros H. change (S pos) with (1 + pos)%nat.
  now rewrite <- skipn_skipn, H.
Qed.

Lemma skipn_from {A : Type} (pos p : nat) (s1 s : list A) :
  skipn pos s1 = skipn pos s -> (pos <= p)%nat -> skipn p s1 = skipn p s.
Proof.
  intros H Hle. replace p with ((p - pos) + pos)%nat by lia.
  now rewrite <- !skipn_skipn, H.
Qed.

Lemma map_fst_combine {A B : Type} :
  forall (l : list A) (l' : list B),
    length l = length l' -> map fst (combine l l') = l.
Proof.
  induction l as [|a l IH]; intros [|b l'] H; try discriminate; [reflexivity|].
  simpl. f_equal. apply IH. now injection H.
Qed.

(** ** QString facts *)

Lemma startsWith_split (needle s : QString) :
  startsWith needle s = true -> s = needle ++ skipn (length needle) s.
Proof.
  revert s; induction needle as [|c needle IH]; intros [|d s]; simpl;
    try reflexivity; try discriminate.
  intros H. apply andb_true_iff in H as [Hc Hs].
  apply Ascii.eqb_eq in Hc. subst d. f_equal. now apply IH.
Qed.

Lemma find_from_found (needle : QString) :
  forall (s : QString) (i n : nat),
    find_from needle s i = Z.of_nat n ->
    (i <= n)%nat /\
    s = firstn (n - i) s ++ needle ++ skipn (n - i + length needle) s.
Proof.
  induction s as [|c s IH]; intros i n; simpl.
  - destruct (startsWith needle []) eqn:E; [|lia].
    intros H. apply Nat2Z.inj in H. subst n. split; [lia|].
    rewrite Nat.sub_diag. simpl. now apply startsWith_split in E.
  - destruct (startsWith needle (c :: s)) eqn:E.
    + intros H. apply Nat2Z.inj in H. subst n. split; [lia|].
      rewrite Nat.sub_diag. simpl. now apply startsWith_split in E.
    + intros H. apply IH in H as [Hle Hs]. split; [lia|].
      replace (n - i)%nat with (S (n - S i)) by lia. simpl.
      f_equal. exact Hs.
Qed.

Lemma indexOf_found (needle s : QString) (n : nat) :
  indexOf needle 0 s = Z.of_nat n ->
  s = firstn n s ++ needle ++ skipn (n + length needle) s.
Proof.
  unfold indexOf. simpl. intros H.
  apply find_from_found in H as [_ H]. now rewrite Nat.sub_0_r in H.
Qed.

(** ** The table-of-contents synthesizer *)

Lemma render_app (a b : list TocTag) : render (a ++ b) = render a ++ render b.
Proof. unfold render. apply flat_map_app. Qed.

Lemma iter_closeDeeper (n : nat) (p : MediaWikiSectionsParser) :
  Nat.iter n closeDeeper p
  = {| tableOfContents :=
         tableOfContents p ++ render (concat (repeat [CloseList; CloseItem] n));
       previousLevel := previousLevel p - Z.of_nat n |}.
Proof.
  induction n as [|n IH].
  - simpl. rewrite app_nil_r, Z.sub_0_r. now destruct p.
  - rewrite Nat.iter_succ, IH. unfold closeDeeper. simpl tableOfContents.
    simpl previousLevel. f_equal; [|lia].
    change (repeat [CloseList; CloseItem] (S n))
      with ([CloseList; CloseItem] :: repeat [CloseList; CloseItem] n).
    rewrite repeat_cons, concat_app, render_app, <- !app_assoc.
    reflexivity.
Qed.

Lemma closeListTags_spec (level : Z) (p : MediaWikiSectionsParser) :
  closeListTags level p
  = {| tableOfContents :=
         tableOfContents p
         ++ render (closeDown (Z.to_nat (previousLevel p - level)));
       previousLevel :=
         previousLevel p - Z.of_nat (Z.to_nat (previousLevel p - level)) |}.
Proof.
  unfold closeListTags. rewrite iter_closeDeeper. simpl.
  now rewrite <- !app_assoc.
Qed.

(** A level the guards of [addListLevel] let through. *)
Lemma addListLevel_accepts (levelString : QString) (level : Z)
      (p : MediaWikiSectionsParser) :
  toInt levelString = Some level ->
  0 < level <= previousLevel p + 1 ->
  addListLevel levelString p
  = (true,
     {| tableOfContents :=
          tableOfContents p ++ render (specOpenItem (previousLevel p) level);
        previousLevel := level |}).
Proof.
  intros Hint [Hpos Hle]. unfold addListLevel. rewrite Hint.
  destruct (level <=? 0) eqn:E1; [lia|].
  destruct (level >? previousLevel p + 1) eqn:E2; [lia|].
  unfold specOpenItem.
  destruct (level =? previousLevel p + 1) eqn:E3.
  - simpl. unfold appendToc. simpl. f_equal. f_equal.
    now rewrite <- !app_assoc.
  - rewrite closeListTags_spec. unfold appendToc. simpl tableOfContents.
    simpl previousLevel. f_equal. f_equal; [|lia].
    rewrite render_app. simpl. now rewrite <- !app_assoc.
Qed.

(** The three guards of [addListLevel]. *)
Lemma addListLevel_rejects (levelString : QString) (p : MediaWikiSectionsParser) :
  match toInt levelString with
  | None => True
  | Some level => level <= 0 \/ level > previousLevel p + 1
  end ->
  addListLevel levelString p = (false, p).
Proof.
  unfold addListLevel. destruct (toInt levelString) as [level|]; [|reflexivity].
  intros H. destruct (level <=? 0) eqn:E1; [reflexivity|].
  destruct (level >? previousLevel p + 1) eqn:E2; [reflexivity|]. lia.
Qed.

Lemma tocLoop_accepted :
  forall (els : list QDomNode) (levels : list Z) (p : MediaWikiSectionsParser),
    levelsAre els levels ->
    acceptedFrom (previousLevel p) levels = true ->
    tableOfContents (tocLoop els p)
    = tableOfContents p
      ++ render (specToc (previousLevel p) (combine levels els)).
Proof.
  unfold levelsAre.
  induction els as [|el els IH]; intros [|l levels] p Hlv Hacc;
    try discriminate.
  - simpl. rewrite closeListTags_spec. simpl.
    rewrite render_app. simpl. now rewrite <- !app_assoc.
  - simpl in Hlv. injection Hlv as Hl Hlv.
    simpl in Hacc. apply andb_true_iff in Hacc as [Hacc Hrest].
    apply andb_true_iff in Hacc as [Hpos Hle].
    cbn [tocLoop].
    rewrite (addListLevel_accepts _ l) by (auto; lia).
    rewrite IH with (levels := levels); auto.
    simpl. unfold specItem. rewrite !render_app. simpl.
    now rewrite <- !app_assoc, app_nil_r.
Qed.

Lemma tocLoop_malformed :
  forall (els : list QDomNode) (p : MediaWikiSectionsParser),
    containsMalformedLevel (previousLevel p) (map toclevel els) = true ->
    tableOfContents (tocLoop els p) = [].
Proof.
  induction els as [|el els IH]; intros p H; [discriminate|].
  cbn [map containsMalformedLevel] in H. cbn [tocLoop].
  destruct (toInt (toclevel el)) as [level|] eqn:Hint.
  - destruct (level <=? 0) eqn:E1.
    { rewrite addListLevel_rejects; [reflexivity|]. rewrite Hint. lia. }
    destruct (level >? previousLevel p + 1) eqn:E2.
    { rewrite addListLevel_rejects; [reflexivity|]. rewrite Hint. lia. }
    simpl in H.
    rewrite (addListLevel_accepts _ level) by (auto; lia).
    apply IH. exact H.
  - rewrite addListLevel_rejects; [reflexivity|]. now rewrite Hint.
Qed.

(** *** Nesting of the specified tag sequence *)

Lemma wellNested_closeDown (k depth : nat) (ts : list TocTag) :
  wellNested (stackAt (S (k + depth))) (closeDown k ++ ts)
  = wellNested (InList :: stackAt depth) ts.
Proof.
  unfold closeDown. simpl.
  induction k as [|k IH]; [reflexivity|]. simpl. exact IH.
Qed.

Lemma wellNested_specToc :
  forall (items : list (Z * QDomNode)) (current : Z),
    acceptedFrom current (map fst items) = true ->
    0 <= current ->
    (0 < current \/ items <> []) ->
    wellNested (stackAt (Z.to_nat current)) (specToc current items) = true.
Proof.
  induction items as [|[l el] items IH]; intros current Hacc Hcur Hne.
  - destruct Hne as [Hpos|Hne]; [|congruence]. cbn [specToc].
    replace (Z.to_nat current) with (S (Z.to_nat (current - 1) + 0)) by lia.
    rewrite wellNested_closeDown. reflexivity.
  - simpl in Hacc. apply andb_true_iff in Hacc as [Hacc Hrest].
    apply andb_true_iff in Hacc as [Hpos Hle].
    cbn [specToc]. unfold specItem, specOpenItem.
    assert (Hnext : wellNested (stackAt (Z.to_nat l)) (specToc l items) = true)
      by (apply IH; auto; lia).
    destruct (l =? current + 1) eqn:E.
    + assert (Hl : Z.to_nat l = S (Z.to_nat current)) by lia.
      rewrite Hl in Hnext. simpl.
      destruct (Z.to_nat current) eqn:Ed; simpl; exact Hnext.
    + rewrite <- !app_assoc.
      replace (Z.to_nat current)
        with (S (Z.to_nat (current - l) + (Z.to_nat l - 1))) by lia.
      rewrite wellNested_closeDown. simpl.
      replace (Z.to_nat l) with (S (Z.to_nat l - 1)) in Hnext by lia.
      exact Hnext.
Qed.

Lemma count_Opened_nested (ts : list TocTag) :
  forall stack : list Opened,
    wellNested stack ts = true ->
    (countTags isOpenList ts + length (filter (fun o => match o with InList => true | _ => false end) stack)
     = countTags isCloseList ts)%nat
    /\ (countTags isOpenItem ts + length (filter (fun o => match o with InItem => true | _ => false end) stack)
        = countTags isCloseItem ts)%nat.
Proof.
  unfold countTags.
  induction ts as [|t ts IH]; intros stack H.
  - destruct stack; [split; reflexivity | discriminate].
  - destruct t; destruct stack as [|[] stack]; simpl in H; try discriminate;
      apply IH in H; simpl in *; lia.
Qed.

Lemma acceptedFrom_of_steps :
  forall (levels : list Z) (current : Z),
    allPositive levels = true ->
    increasesByAtMostOne (current :: levels) = true ->
    acceptedFrom current levels = true.
Proof.
  induction levels as [|l levels IH]; intros current Hpos Hinc; [reflexivity|].
  simpl in Hpos. apply andb_true_iff in Hpos as [Hl Hpos].
  cbn [increasesByAtMostOne] in Hinc.
  apply andb_true_iff in Hinc as [Hle Hinc].
  cbn [acceptedFrom]. rewrite Hl, Hle. simpl. now apply IH.
Qed.

Lemma acceptedFrom_start (levels : list Z) :
  startsAtOne levels = true ->
  increasesByAtMostOne levels = true ->
  allPositive levels = true ->
  acceptedFrom 0 levels = true.
Proof.
  destruct levels as [|l levels]; [discriminate|].
  intros Hone Hinc Hpos. simpl in Hone. apply Z.eqb_eq in Hone. subst l.
  simpl in Hpos. cbn [acceptedFrom]. simpl.
  now apply acceptedFrom_of_steps.
Qed.

Lemma levelsAre_length (els : list QDomNode) (levels : list Z) :
  levelsAre els levels -> length els = length levels.
Proof.
  unfold levelsAre. intros H.
  apply (f_equal (@length _)) in H. now rewrite !length_map in H.
Qed.

(** C6, amended.  For every list of [<s>] elements whose [toclevel]
    values are positive numbers that start at 1 and never increase by
    more than one step, the synthesizer produces exactly the text of the
    tag sequence the specification's rules give (level == current+1
    opens one nested list and an item; level == current closes the
    previous item and opens a new one; level < current closes items and
    lists down to that depth), that sequence is properly nested, and it
    has as many closing as opening list tags and item tags. *)
Theorem toc_follows_rules_and_is_nested
        (sectionsElement : QDomNode) (levels : list Z) :
  levelsAre (childElements "s" (Some sectionsElement)) levels ->
  startsAtOne levels = true ->
  increasesByAtMostOne levels = true ->
  allPositive levels = true ->
  let ts := tocBySpec levels (childElements "s" (Some sectionsElement)) in
  tableOfContents (generateTableOfContents sectionsElement newParser) = render ts
  /\ wellNested [] ts = true
  /\ countTags isOpenList ts = countTags isCloseList ts
  /\ countTags isOpenItem ts = countTags isCloseItem ts.
Proof.
  intros Hlv Hone Hinc Hpos ts.
  pose proof (acceptedFrom_start levels Hone Hinc Hpos) as Hacc.
  pose proof (levelsAre_length _ _ Hlv) as Hlen.
  assert (Hnested : wellNested [] ts = true).
  { subst ts. unfold tocBySpec. cbn [wellNested].
    change [InToc] with (stackAt (Z.to_nat 0)).
    apply wellNested_specToc; [|lia|].
    - rewrite map_fst_combine by auto. exact Hacc.
    - right. destruct levels; [discriminate|].
      destruct (childElements "s" (Some sectionsElement)); discriminate. }
  split; [|split; [exact Hnested|]].
  - unfold generateTableOfContents.
    destruct (childElements "s" (Some sectionsElement)) as [|el els] eqn:Els.
    { destruct levels; discriminate. }
    rewrite (tocLoop_accepted _ levels) by auto.
    subst ts. reflexivity.
  - apply count_Opened_nested in Hnested. simpl in Hnested. lia.
Qed.

Lemma toc_follows_rules_and_is_nested_witness :
  let sectionsElement := sampleSections ["1"; "2"; "2"; "3"; "1"]%string in
  let ts := tocBySpec [1; 2; 2; 3; 1] (childElements "s" (Some sectionsElement)) in
  tableOfContents (generateTableOfContents sectionsElement newParser) = render ts
  /\ wellNested [] ts = true
  /\ countTags isOpenList ts = countTags isCloseList ts
  /\ countTags isOpenItem ts = countTags isCloseItem ts.
Proof.
  apply (toc_follows_rules_and_is_nested
           (sampleSections ["1"; "2"; "2"; "3"; "1"]%string) [1; 2; 2; 3; 1]);
    reflexivity.
Defined.

(** The text produced for the levels 1, 2, 1. *)
Example toc_for_levels_1_2_1 :
  tableOfContents
    (generateTableOfContents (sampleSections ["1"; "2"; "1"]%string) newParser)
  = tocHeader
    ++ nl ++ "<ul>" ++ nl
    ++ "<li><a href='#Early_life'>1 Early life</a>"
    ++ nl ++ "<ul>" ++ nl
    ++ "<li><a href='#Early_life'>1 Early life</a></li>" ++ nl
    ++ "</ul>" ++ nl ++ "</li>" ++ nl
    ++ "<li><a href='#Early_life'>1 Early life</a></li>" ++ nl
    ++ "</ul>" ++ nl ++ "</div>".
Proof. vm_compute. reflexivity. Qed.

(** C6 as stated fails: the levels 1, 0 start at 1 and never increase,
    yet the synthesizer rejects the level 0 and produces no list. *)
Lemma toc_level_zero_after_one_aborts :
  levelsAre (childElements "s" (Some (sampleSections ["1"; "0"]%string))) [1; 0]
  /\ startsAtOne [1; 0] = true
  /\ increasesByAtMostOne [1; 0] = true
  /\ tableOfContents
       (generateTableOfContents (sampleSections ["1"; "0"]%string) newParser) = []
  /\ render (tocBySpec [1; 0]
               (childElements "s" (Some (sampleSections ["1"; "0"]%string))))
     <> [].
Proof.
  repeat split; try reflexivity. discriminate.
Qed.

(** C7.  For every sections element with a malformed level (not a
    number, not positive, or more than one above the level before), the
    synthesizer ends with an empty table of contents; the marker found
    in the rewritten article text is cut out with nothing in its place,
    and the article body is still produced around the result. *)
Theorem toc_malformed_level_removes_marker
        (dict : MediaWikiDictionary) (parseNode : option QDomNode)
        (sectionsElement textNode : QDomNode) (pos : nat) :
  firstChildElement "sections" parseNode = Some sectionsElement ->
  containsMalformedLevel
    0 (map toclevel (childElements "s" (Some sectionsElement))) = true ->
  indexOf emptyTocIndicator 0 (transformPasses dict (elementText textNode))
  = Z.of_nat pos ->
  let s := transformPasses dict (elementText textNode) in
  let cut := firstn pos s ++ skipn (pos + length emptyTocIndicator) s in
  tableOfContents (generateTableOfContents sectionsElement newParser) = []
  /\ s = firstn pos s ++ emptyTocIndicator
         ++ skipn (pos + length emptyTocIndicator) s
  /\ generateTableOfContentsIfEmpty parseNode s = cut
  /\ articleBody dict parseNode textNode
     = wrapperOpen dict ++ cut ++ "</div>".
Proof.
  intros Hsec Hbad Hpos s cut.
  assert (Htoc : tableOfContents
                   (generateTableOfContents sectionsElement newParser) = []).
  { unfold generateTableOfContents.
    destruct (childElements "s" (Some sectionsElement)) as [|el els] eqn:Els;
      [discriminate|].
    now apply tocLoop_malformed. }
  assert (Hgen : generateTableOfContentsIfEmpty parseNode s = cut).
  { unfold generateTableOfContentsIfEmpty. fold s in Hpos. rewrite Hpos, Hsec.
    destruct (Z.of_nat pos =? -1) eqn:E; [lia|].
    rewrite Htoc, Nat2Z.id. reflexivity. }
  repeat split; auto.
  - now apply indexOf_found.
  - unfold articleBody. fold s. rewrite Hgen. reflexivity.
Qed.

Lemma toc_malformed_level_removes_marker_witness :
  let parseNode := Some sampleMalformedParse in
  let textNode := sampleText sampleMarkedText in
  containsMalformedLevel
    0 (map toclevel (childElements "s" (Some (sampleSections ["1"; "3"]%string))))
  = true
  /\ generateTableOfContentsIfEmpty
       parseNode (transformPasses sampleDict (elementText textNode))
     = "IntroBody"
  /\ articleBody sampleDict parseNode textNode
     = "<div class=" ++ dq ++ "mwiki" ++ dq ++ ">IntroBody</div>".
Proof.
  split; [reflexivity|].
  pose proof (toc_malformed_level_removes_marker
                sampleDict (Some sampleMalformedParse)
                (sampleSections ["1"; "3"]%string)
                (sampleText sampleMarkedText)
                5 eq_refl eq_refl eq_refl) as H.
  destruct H as (_ & _ & Hgen & Hbody). split; [exact Hgen | exact Hbody].
Defined.

(** ** The matcher *)

Lemma starLoop_advances (d : nat) (greedy : bool)
      (body : QString -> nat -> Captures -> Cont -> option (nat * Captures))
      (k : Cont) :
  (forall s pos caps k' e c,
      advancingBy d k' -> body s pos caps k' = Some (e, c) -> (pos + d <= e)%nat) ->
  advancingBy d k ->
  forall turns : nat, advancingBy d (starLoop greedy body k turns).
Proof.
  intros Hbody Hk. unfold advancingBy in *.
  induction turns as [|turns IHt]; intros s pos caps e c H; cbn [starLoop] in H.
  - now apply Hk in H.
  - assert (Hagain :
              body s pos caps
                   (fun s' pos' caps' =>
                      if (pos <? pos')%nat
                      then starLoop greedy body k turns s' pos' caps'
                      else None) = Some (e, c) ->
              (pos + d <= e)%nat).
    { apply Hbody. intros s' pos' caps' e' c' H'.
      destruct (pos <? pos')%nat; [|discriminate]. now apply IHt in H'. }
    cbv zeta in H. destruct greedy.
    + destruct (body s pos caps _) as [res|] eqn:E.
      * injection H as ->. now apply Hagain.
      * now apply Hk in H.
    + destruct (k s pos caps) as [res|] eqn:E.
      * injection H as ->. now apply Hk in E.
      * now apply Hagain.
Qed.

Lemma rmatch_advances (d : nat) :
  forall (r : Regex) (s : QString) (pos : nat) (caps : Captures) (k : Cont)
         (e : nat) (c : Captures),
    advancingBy d k ->
    rmatch r s pos caps k = Some (e, c) -> (pos + d <= e)%nat.
Proof.
  induction r as [|p|r1 IH1 r2 IH2|r1 IH1 r2 IH2|greedy r1 IH1|n r1 IH1];
    intros s pos caps k e c Hk H; cbn [rmatch] in H.
  - now apply Hk in H.
  - destruct s as [|a s]; [discriminate|].
    destruct (p a); [|discriminate]. apply Hk in H. lia.
  - eapply IH1; [|exact H]. intros s' pos' caps' e' c' H'.
    eapply IH2; eauto.
  - destruct (rmatch r1 s pos caps k) as [[e1 c1]|] eqn:E.
    + injection H as -> ->. eapply IH1; eauto.
    + eapply IH2; eauto.
  - eapply (starLoop_advances d greedy (rmatch r1) k); eauto.
  - eapply IH1; [|exact H]. intros s' pos' caps' e' c' H'.
    apply Hk in H'. exact H'.
Qed.

(** A pattern that consumes yields a non-empty match. *)
Lemma rmatch_consumes :
  forall (r : Regex) (s : QString) (pos : nat) (caps : Captures) (k : Cont)
         (e : nat) (c : Captures),
    consumes r = true ->
    advancingBy 0 k ->
    rmatch r s pos caps k = Some (e, c) -> (pos < e)%nat.
Proof.
  induction r as [|p|r1 IH1 r2 IH2|r1 IH1 r2 IH2|greedy r1 IH1|n r1 IH1];
    intros s pos caps k e c Hc Hk H; cbn [consumes] in Hc;
    try discriminate; cbn [rmatch] in H.
  - destruct s as [|a s]; [discriminate|].
    destruct (p a); [|discriminate]. apply Hk in H. lia.
  - destruct (consumes r1) eqn:C1.
    + eapply IH1; [reflexivity| |exact H].
      intros s' pos' caps' e' c' H'. eapply (rmatch_advances 0); eauto.
    + simpl in Hc.
      assert ((pos + 1 <= e)%nat); [|lia].
      eapply (rmatch_advances 1); [|exact H].
      intros s' pos' caps' e' c' H'.
      assert ((pos' < e')%nat); [|lia]. eapply IH2; eauto.
  - apply andb_true_iff in Hc as [C1 C2].
    destruct (rmatch r1 s pos caps k) as [[e1 c1]|] eqn:E.
    + injection H as -> ->. eapply IH1; eauto.
    + eapply IH2; eauto.
  - eapply IH1; [exact Hc| |exact H]. intros s' pos' caps' e' c' H'.
    apply Hk in H'. exact H'.
Qed.

Lemma matchAt_span (re : Regex) (s : QString) (pos : nat)
      (m : QRegularExpressionMatch) :
  consumes re = true ->
  matchAt re s pos = Some m ->
  capturedStart m = pos /\ (pos < capturedEnd m)%nat.
Proof.
  unfold matchAt. intros Hc H.
  destruct (rmatch re s pos [] _) as [[e caps]|] eqn:E; [|discriminate].
  injection H as <-. simpl. split; [reflexivity|].
  eapply rmatch_consumes; [exact Hc| |exact E].
  intros s' pos' caps' e' c' H'. injection H' as <- _. lia.
Qed.

Lemma successive_weaken (spans : list Span) (pos pos' : nat) :
  (pos' <= pos)%nat -> successive pos spans -> successive pos' spans.
Proof.
  destruct spans as [|[b e] rest]; simpl; [tauto|].
  intros Hle (H1 & H2 & H3). repeat split; auto. lia.
Qed.

Lemma globalMatch_go_successive (re : Regex) :
  consumes re = true ->
  forall (s : QString) (skip pos : nat),
    successive (pos + skip) (map spanOf (globalMatch_go re skip s pos)).
Proof.
  intros Hc. induction s as [|a s IH]; intros skip pos; [exact I|].
  cbn [globalMatch_go]. destruct skip as [|skip].
  - destruct (matchAt re (a :: s) pos) as [m|] eqn:E.
    + apply matchAt_span in E as [Hb He]; [|exact Hc].
      cbn [map spanOf]. unfold spanOf at 1. simpl. repeat split; try lia.
      replace (capturedEnd m) with (S pos + (capturedEnd m - pos - 1))%nat
        at 1 by lia.
      apply IH.
    + eapply successive_weaken; [|apply IH]. lia.
  - replace (pos + S skip)%nat with (S pos + skip)%nat by lia. apply IH.
Qed.

Lemma regexSpans_successive (re : Regex) (s : QString) :
  consumes re = true -> successive 0 (regexSpans re s).
Proof.
  intros Hc. unfold regexSpans, globalMatch.
  apply (globalMatch_go_successive re Hc s 0 0).
Qed.

(** ** The passes keep what lies between their matches *)

Lemma rewriteLoop_fold (body : QRegularExpressionMatch -> QString) (s : QString)
      (f : nat * QString -> QRegularExpressionMatch -> nat * QString) :
  (forall pos acc m,
      f (pos, acc) m
      = (capturedEnd m, acc ++ mid pos (capturedStart m - pos) s ++ body m)) ->
  forall (ms : list QRegularExpressionMatch) (pos : nat) (acc : QString),
    successive pos (map spanOf ms) ->
    snd (fold_left f ms (pos, acc)) ++ midToEnd (fst (fold_left f ms (pos, acc))) s
    = acc ++ splice (map spanOf ms) (map body ms) pos s
    /\ (ms <> [] -> (0 < fst (fold_left f ms (pos, acc)))%nat).
Proof.
  intros Hf. induction ms as [|m ms IH]; intros pos acc Hs.
  - simpl. split; [reflexivity | congruence].
  - cbn [map successive spanOf] in Hs. unfold spanOf at 1 in Hs.
    destruct Hs as (Hb & He & Hrest).
    cbn [fold_left]. rewrite Hf.
    destruct (IH (capturedEnd m)
                 (acc ++ mid pos (capturedStart m - pos) s ++ body m) Hrest)
      as [Heq Hpos].
    split.
    + etransitivity; [exact Heq|]. cbn [map splice spanOf]. unfold spanOf at 2.
      now rewrite <- !app_assoc.
    + intros _. destruct ms as [|m' ms].
      * simpl. lia.
      * apply Hpos. discriminate.
Qed.

Lemma rewriteLoop_splice (body : QRegularExpressionMatch -> QString)
      (ms : list QRegularExpressionMatch) (s : QString) :
  successive 0 (map spanOf ms) ->
  rewriteLoop body ms s = splice (map spanOf ms) (map body ms) 0 s.
Proof.
  intros Hs. unfold rewriteLoop.
  match goal with
  | |- context [fold_left ?f ms ?init] =>
      destruct (rewriteLoop_fold body s f (fun _ _ _ => eq_refl) ms 0%nat [] Hs)
        as [Heq Hpos];
      change (fold_left f ms (0%nat, [])) with (fold_left f ms init) in Heq, Hpos;
      destruct (fold_left f ms init) as [pos acc]
  end.
  simpl in Heq, Hpos.
  destruct (pos =? 0)%nat eqn:E.
  - apply Nat.eqb_eq in E. destruct ms as [|m ms]; [reflexivity|].
    assert (0 < pos)%nat by (apply Hpos; discriminate). lia.
  - exact Heq.
Qed.

Lemma splice_step (spans : list Span) (texts : list QString) (pos : nat)
      (full : QString) (c : ascii) (s : QString) :
  skipn pos full = c :: s ->
  successive (S pos) spans ->
  splice spans texts pos full = c :: splice spans texts (S pos) full.
Proof.
  intros Hsk Hs. pose proof (skipn_cons_step _ _ _ _ Hsk) as Hsk'.
  destruct spans as [|[b e] spans]; [|destruct texts as [|t texts]];
    cbn [splice]; unfold midToEnd, mid.
  - now rewrite Hsk, Hsk'.
  - now rewrite Hsk, Hsk'.
  - destruct Hs as (Hb & _). rewrite Hsk, Hsk'.
    replace (b - pos)%nat with (S (b - S pos)) by lia. reflexivity.
Qed.

Lemma occurrences_go_successive (before : QString) :
  before <> [] ->
  forall (s : QString) (skip pos : nat),
    successive (pos + skip) (occurrences_go before skip s pos).
Proof.
  intros Hne. assert (Hlen : (0 < length before)%nat).
  { destruct before; [congruence | simpl; lia]. }
  induction s as [|a s IH]; intros skip pos; [exact I|].
  cbn [occurrences_go]. destruct skip as [|skip].
  - destruct (startsWith before (a :: s)).
    + cbn [successive]. repeat split; try lia.
      replace (pos + length before)%nat
        with (S pos + (length before - 1))%nat by lia.
      apply IH.
    + eapply successive_weaken; [|apply IH]. lia.
  - replace (pos + S skip)%nat with (S pos + skip)%nat by lia. apply IH.
Qed.

Lemma replace_go_splice (before after full : QString) :
  before <> [] ->
  forall (s : QString) (skip pos : nat),
    skipn pos full = s ->
    replace_go before after skip s
    = splice (occurrences_go before skip s pos)
             (map (fun _ => after) (occurrences_go before skip s pos))
             (pos + skip) full.
Proof.
  intros Hne. assert (Hlen : (0 < length before)%nat).
  { destruct before; [congruence | simpl; lia]. }
  induction s as [|a s IH]; intros skip pos Hsk.
  - simpl. unfold midToEnd.
    assert (length full <= pos)%nat.
    { apply (f_equal (@length _)) in Hsk. rewrite length_skipn in Hsk.
      simpl in Hsk. lia. }
    symmetry. apply skipn_all2. lia.
  - pose proof (skipn_cons_step _ _ _ _ Hsk) as Hsk'.
    cbn [replace_go occurrences_go]. destruct skip as [|skip].
    + destruct (startsWith before (a :: s)).
      * cbn [map splice]. unfold mid.
        replace (pos - (pos + 0))%nat with 0%nat by lia. simpl firstn.
        rewrite (IH (length before - 1)%nat (S pos) Hsk').
        replace (S pos + (length before - 1))%nat
          with (pos + length before)%nat by lia.
        reflexivity.
      * rewrite (IH 0%nat (S pos) Hsk').
        replace (S pos + 0)%nat with (S pos) by lia.
        replace (pos + 0)%nat with pos by lia. symmetry.
        apply (splice_step _ _ pos full a s Hsk).
        pose proof (occurrences_go_successive before Hne s 0 (S pos)) as Hocc.
        rewrite Nat.add_0_r in Hocc. exact Hocc.
    + rewrite (IH skip (S pos) Hsk').
      replace (pos + S skip)%nat with (S pos + skip)%nat by lia.
      reflexivity.
Qed.

Lemma replaceStr_splice (before after s : QString) :
  before <> [] ->
  successive 0 (occurrences before s)
  /\ replaceStr before after s
     = splice (occurrences before s)
              (map (fun _ => after) (occurrences before s)) 0 s.
Proof.
  intros Hne. split.
  - apply (occurrences_go_successive before Hne s 0 0).
  - apply (replace_go_splice before after s Hne s 0%nat 0%nat). reflexivity.
Qed.

(** *** The underscore loop *)

Lemma underscores_offset (b : nat) :
  forall (from len : nat) (s : QString),
    underscoresToSpaces (b + from) len s
    = firstn b s ++ underscoresToSpaces from len (skipn b s).
Proof.
  induction b as [|b IH]; intros from len s; [reflexivity|].
  destruct s as [|c s]; [reflexivity|].
  simpl. f_equal. apply IH.
Qed.

Lemma underscores_none :
  forall (s : QString) (from : nat), underscoresToSpaces from 0 s = s.
Proof.
  induction s as [|c s IH]; intros from; [reflexivity|].
  destruct from as [|from]; [reflexivity|]. simpl. f_equal. apply IH.
Qed.

Lemma underscores_tail :
  forall (s : QString) (from len n : nat),
    (from + len <= n)%nat ->
    skipn n (underscoresToSpaces from len s) = skipn n s.
Proof.
  induction s as [|c s IH]; intros from len n Hn; [reflexivity|].
  destruct from as [|from].
  - destruct len as [|len]; [reflexivity|].
    destruct n as [|n]; [lia|]. simpl. apply IH. lia.
  - destruct n as [|n]; [lia|]. simpl. apply IH. lia.
Qed.

Lemma splice_ext (texts texts' : QString -> Span -> QString) (s1 s : QString) :
  (forall b e, skipn b s1 = skipn b s -> texts s1 (b, e) = texts' s (b, e)) ->
  forall (spans : list Span) (pos : nat),
    skipn pos s1 = skipn pos s ->
    successive pos spans ->
    splice spans (map (texts s1) spans) pos s1
    = splice spans (map (texts' s) spans) pos s.
Proof.
  intros Ht. induction spans as [|[b e] spans IH]; intros pos Hsk Hs.
  - exact Hsk.
  - destruct Hs as (Hb & He & Hrest). cbn [map splice]. unfold mid.
    rewrite Hsk, (Ht b e) by (eapply skipn_from; eauto).
    rewrite IH; auto. eapply skipn_from; eauto. lia.
Qed.

(** The text that replaces the span of a match of [rxLink]. *)
Lemma underscores_fold_splice :
  forall (ms : list QRegularExpressionMatch) (pos : nat) (s : QString),
    successive pos (map spanOf ms) ->
    fold_left
      (fun s m =>
         underscoresToSpaces (capturedStart m + 9)
                             (capturedEnd m - (capturedStart m + 9)) s)
      ms s
    = firstn pos s
      ++ splice (map spanOf ms)
                (map (fun sp : Span =>
                        firstn (snd sp - fst sp)
                               (underscoresToSpaces
                                  9 (snd sp - (fst sp + 9)) (skipn (fst sp) s)))
                     (map spanOf ms))
                pos s.
Proof.
  induction ms as [|m ms IH]; intros pos s Hs.
  - simpl. unfold midToEnd. now rewrite firstn_skipn.
  - cbn [map successive] in Hs. unfold spanOf at 1 in Hs.
    destruct Hs as (Hb & He & Hrest).
    cbn [fold_left map splice]. unfold spanOf at 1 3. cbn [fst snd].
    set (b := capturedStart m) in *. set (e := capturedEnd m) in *.
    set (s1 := underscoresToSpaces (b + 9) (e - (b + 9)) s).
    assert (Htail : skipn e s1 = skipn e s).
    { subst s1. destruct (le_lt_dec (b + 9) e) as [Hge|Hlt].
      - apply underscores_tail. lia.
      - replace (e - (b + 9))%nat with 0%nat by lia.
        now rewrite underscores_none. }
    assert (Hhead : firstn e s1
                    = firstn b s
                      ++ firstn (e - b)
                                (underscoresToSpaces 9 (e - (b + 9)) (skipn b s))).
    { subst s1. rewrite underscores_offset, firstn_app, firstn_firstn.
      replace (Nat.min e b) with b by lia. f_equal.
      rewrite length_firstn.
      destruct (le_lt_dec b (length s)) as [Hin|Hout].
      - now replace (Nat.min b (length s)) with b by lia.
      - rewrite (skipn_all2 s) by lia. cbn [underscoresToSpaces].
        now rewrite !firstn_nil. }
    rewrite (IH e s1 Hrest), Hhead.
    rewrite (splice_ext
               (fun s sp => firstn (snd sp - fst sp)
                              (underscoresToSpaces
                                 9 (snd sp - (fst sp + 9)) (skipn (fst sp) s)))
               (fun s sp => firstn (snd sp - fst sp)
                              (underscoresToSpaces
                                 9 (snd sp - (fst sp + 9)) (skipn (fst sp) s)))
               s1 s); auto.
    + rewrite <- !app_assoc. unfold mid.
      replace b with (pos + (b - pos))%nat at 1 by lia.
      rewrite firstn_plus, <- !app_assoc. reflexivity.
    + intros b' e' Hsk. cbn [fst snd]. now rewrite Hsk.
Qed.

Lemma passUnderscores_splice (s : QString) :
  exists texts : list QString,
    length texts = length (regexSpans rxLink s)
    /\ passUnderscores s = splice (regexSpans rxLink s) texts 0 s.
Proof.
  eexists. split; [|unfold passUnderscores, regexSpans].
  2: { rewrite (underscores_fold_splice (globalMatch rxLink s) 0 s).
       - simpl firstn. rewrite app_nil_l. reflexivity.
       - apply (regexSpans_successive rxLink s). reflexivity. }
  now rewrite length_map.
Qed.

Lemma regex_pass_splice (re : Regex)
      (body : QRegularExpressionMatch -> QString) (s : QString) :
  consumes re = true ->
  exists texts : list QString,
    length texts = length (regexSpans re s)
    /\ rewriteLoop body (globalMatch re s) s = splice (regexSpans re s) texts 0 s.
Proof.
  intros Hc. exists (map body (globalMatch re s)). split.
  - unfold regexSpans. now rewrite !length_map.
  - apply rewriteLoop_splice. now apply regexSpans_successive.
Qed.

Lemma literal_pass_splice (before after s : QString) :
  before <> [] ->
  exists texts : list QString,
    length texts = length (occurrences before s)
    /\ replaceStr before after s = splice (occurrences before s) texts 0 s.
Proof.
  intros Hne. exists (map (fun _ => after) (occurrences before s)). split.
  - now rewrite length_map.
  - now apply replaceStr_splice.
Qed.

Lemma passSpans_successive (p : Pass) (s : QString) :
  successive 0 (passSpans p s).
Proof.
  destruct p; cbn [passSpans];
    try (apply regexSpans_successive; reflexivity);
    apply replaceStr_splice; try exact []; discriminate.
Qed.

Lemma runPass_splice (dict : MediaWikiDictionary) (p : Pass) (s : QString) :
  exists texts : list QString,
    length texts = length (passSpans p s)
    /\ runPass dict p s = splice (passSpans p s) texts 0 s.
Proof.
  destruct p; cbn [passSpans runPass];
    try (apply regex_pass_splice; reflexivity);
    try (apply literal_pass_splice; discriminate).
  apply passUnderscores_splice.
Qed.

(** ** The passes: fixed points and strings without a match *)

Lemma replace_go_no_occurrence (before after : QString) :
  forall (s : QString) (i : nat),
    find_from before s i = -1 -> replace_go before after 0 s = s.
Proof.
  induction s as [|c s IH]; intros i H; [reflexivity|].
  cbn [find_from] in H. cbn [replace_go].
  destruct (startsWith before (c :: s)); [lia|].
  f_equal. now apply (IH (S i)).
Qed.

Lemma replaceStr_no_occurrence (before after s : QString) :
  occursStr before s = false -> replaceStr before after s = s.
Proof.
  unfold occursStr, indexOf, replaceStr. simpl.
  intros H. apply negb_false_iff, Z.eqb_eq in H.
  now apply (replace_go_no_occurrence before after s 0%nat).
Qed.

Lemma replaceRegex_no_match (re : Regex) (after s : QString) :
  occursRegex re s = false -> replaceRegex re after s = s.
Proof.
  unfold occursRegex, replaceRegex.
  destruct (globalMatch re s); [reflexivity | discriminate].
Qed.

Lemma rewriteLoop_pass_no_match (re : Regex)
      (body : QString -> QRegularExpressionMatch -> QString) (s : QString) :
  occursRegex re s = false ->
  rewriteLoop (body s) (globalMatch re s) s = s.
Proof.
  unfold occursRegex.
  destruct (globalMatch re s); [reflexivity | discriminate].
Qed.

Lemma passUnderscores_no_match (s : QString) :
  occursRegex rxLink s = false -> passUnderscores s = s.
Proof.
  unfold occursRegex, passUnderscores.
  destruct (globalMatch rxLink s); [reflexivity | discriminate].
Qed.

Lemma occurrences_go_none (before : QString) :
  forall (s : QString) (i pos : nat),
    find_from before s i = -1 -> occurrences_go before 0 s pos = [].
Proof.
  induction s as [|c s IH]; intros i pos H; [reflexivity|].
  cbn [find_from] in H. cbn [occurrences_go].
  destruct (startsWith before (c :: s)); [lia|].
  now apply (IH (S i)).
Qed.

Lemma passMatches_spans (p : Pass) (s : QString) :
  passMatches p s = false -> passSpans p s = [].
Proof.
  assert (Hre : forall re, occursRegex re s = false -> regexSpans re s = []).
  { intros re. unfold occursRegex, regexSpans.
    destruct (globalMatch re s); [reflexivity | discriminate]. }
  assert (Hstr : forall before, occursStr before s = false ->
                                occurrences before s = []).
  { intros before. unfold occursStr, indexOf, occurrences. simpl.
    intros H. apply negb_false_iff, Z.eqb_eq in H.
    now apply (occurrences_go_none before s 0%nat). }
  destruct p; cbn [passMatches passSpans]; auto.
Qed.

(** C9.  For every pass of the pipeline and every string: if the string
    is a fixed point of the pass, applying the pass twice gives what
    applying it once gives; if the pattern of the pass does not occur in
    the string, the pass has no span to work on and returns the string
    unchanged; and in every case the result is the string with the
    spans the pass matches, which follow one another without overlap,
    replaced by new text, everything outside these spans being kept as
    it is. *)
Theorem pass_fixed_points_and_unmatched_content
        (dict : MediaWikiDictionary) (p : Pass) (s : QString) :
  In p pipeline
  /\ (runPass dict p s = s ->
      runPass dict p (runPass dict p s) = runPass dict p s)
  /\ (passMatches p s = false ->
      passSpans p s = [] /\ runPass dict p s = s)
  /\ successive 0 (passSpans p s)
  /\ exists texts : list QString,
      length texts = length (passSpans p s)
      /\ runPass dict p s = splice (passSpans p s) texts 0 s.
Proof.
  split; [destruct p; simpl; tauto|].
  split; [intros Hfix; now rewrite !Hfix|].
  split; [|split; [apply passSpans_successive | apply runPass_splice]].
  intros H. split; [now apply passMatches_spans|].
  destruct p; cbn [passMatches runPass] in *.
  - now apply rewriteLoop_pass_no_match.
  - now apply replaceRegex_no_match.
  - now apply rewriteLoop_pass_no_match.
  - now apply replaceRegex_no_match.
  - now apply replaceStr_no_occurrence.
  - now apply replaceStr_no_occurrence.
  - now apply replaceStr_no_occurrence.
  - now apply passUnderscores_no_match.
  - now apply replaceRegex_no_match.
  - now apply replaceStr_no_occurrence.
  - now apply replaceStr_no_occurrence.
  - unfold passSrcset.
    now apply (rewriteLoop_pass_no_match regSrcset (srcsetBody dict)).
Qed.

Lemma pass_fixed_points_and_unmatched_content_witness :
  passMatches WikiPath sampleWikiLink = false
  /\ runPass sampleDict WikiPath sampleWikiLink = sampleWikiLink
  /\ runPass sampleDict WikiPath (runPass sampleDict WikiPath sampleWikiLink)
     = runPass sampleDict WikiPath sampleWikiLink.
Proof.
  pose proof (pass_fixed_points_and_unmatched_content
                sampleDict WikiPath sampleWikiLink) as (_ & Hfix & Hinert & _).
  split; [reflexivity|].
  destruct (Hinert eq_refl) as [_ Hsame].
  split; [exact Hsame | exact (Hfix Hsame)].
Defined.

(** Outside its fixed points the link rewrite is not idempotent: a
    second fragment sign in a link is moved by a second application. *)
Example passLinks_twice_differs :
  passLinks (passLinks sampleTwoFragments) <> passLinks sampleTwoFragments.
Proof. vm_compute. discriminate. Qed.

(** The pipeline on a link with a namespace and a fragment. *)
Example transformPasses_sample :
  transformPasses sampleDict sampleNamespaceLink
  = "<a href=" ++ dq ++ "Help%3AContents page?gdanchor=Top%5Fpart" ++ dq ++ ">".
Proof. vm_compute. reflexivity. Qed.

(** ** The request: construction *)

Lemma fold_addQuery (url : QString) :
  forall (alts : list wstring) (st : MediaWikiArticleRequest)
         (mgr : QNetworkAccessManager),
    fold_left (fun st alt => addQuery url alt st) alts (st, mgr)
    = (withNetReplies
         (netReplies st
          ++ map (fun r => (r, false)) (seq (length mgr) (length alts))) st,
       mgr ++ map (articleQuery url) alts).
Proof.
  induction alts as [|alt alts IH]; intros st mgr.
  - simpl. rewrite !app_nil_r. now destruct st.
  - cbn [fold_left]. unfold addQuery at 2. unfold get. rewrite IH.
    cbn [netReplies withNetReplies]. rewrite length_app. simpl length.
    rewrite <- !app_assoc. simpl.
    replace (length mgr + 1)%nat with (S (length mgr)) by lia.
    reflexivity.
Qed.

(** The queue after construction: one unfinished entry per term, in the
    order primary word, alternates; reply [length mgr + i] answers the
    request for the [i]-th term. *)
Lemma newArticleRequest_spec (str : wstring) (alts : list wstring)
      (url : QString) (mgr : QNetworkAccessManager) :
  newArticleRequest str alts url mgr
  = (withNetReplies
       (map (fun r => (r, false)) (seq (length mgr) (S (length alts))))
       emptyRequest,
     mgr ++ map (articleQuery url) (str :: alts)).
Proof.
  unfold newArticleRequest. unfold addQuery at 2. unfold get.
  rewrite fold_addQuery. cbn [netReplies withNetReplies emptyRequest].
  rewrite length_app. simpl length. rewrite <- !app_assoc. simpl.
  replace (length mgr + 1)%nat with (S (length mgr)) by lia.
  reflexivity.
Qed.

(** ** The request: one reply *)

Section RequestFacts.

Variable net : Network.
Variable dict : MediaWikiDictionary.

Lemma processReply_frame (r : QNetworkReply) (st : MediaWikiArticleRequest) :
  let st' := fst (processReply net dict r st) in
  netReplies st' = netReplies st
  /\ isFinishedFlag st' = isFinishedFlag st
  /\ finishedSignals st' = finishedSignals st
  /\ updateSignals st' = updateSignals st.
Proof.
  unfold processReply.
  destruct (net r) as [str|errorStr errorLine errorColumn|dd]; simpl; auto.
  destruct (parseNodeOf dd) as [n|]; simpl; auto.
  destruct (QString_eqb _ _); simpl; auto.
  destruct (insert _ _) as [[|] ids]; simpl; auto.
  destruct (namedItem _ _); simpl; auto.
Qed.

(** [processReply] reads and writes the contents only. *)
Lemma processReply_contents (r : QNetworkReply)
      (st1 st2 : MediaWikiArticleRequest) :
  contents st1 = contents st2 ->
  contents (fst (processReply net dict r st1))
  = contents (fst (processReply net dict r st2))
  /\ snd (processReply net dict r st1) = snd (processReply net dict r st2).
Proof.
  unfold contents. intros H. injection H as Hids Hdata Hany Herr Happ.
  unfold processReply.
  destruct (net r) as [str|errorStr errorLine errorColumn|dd]; simpl;
    try (split; congruence).
  destruct (parseNodeOf dd) as [n|]; simpl; try (split; congruence).
  destruct (QString_eqb _ _); simpl; try (split; congruence).
  rewrite Hids.
  destruct (insert _ _) as [[|] ids]; simpl; try (split; congruence).
  destruct (namedItem _ _); simpl; split; congruence.
Qed.

Lemma processInOrder_contents (rs : list QNetworkReply) :
  forall st1 st2 : MediaWikiArticleRequest,
    contents st1 = contents st2 ->
    contents (processInOrder net dict rs st1)
    = contents (processInOrder net dict rs st2).
Proof.
  induction rs as [|r rs IH]; intros st1 st2 H; [exact H|].
  simpl. apply IH. now apply processReply_contents.
Qed.

Lemma processInOrder_app (rs1 rs2 : list QNetworkReply)
      (st : MediaWikiArticleRequest) :
  processInOrder net dict (rs1 ++ rs2) st
  = processInOrder net dict rs2 (processInOrder net dict rs1 st).
Proof. unfold processInOrder. apply fold_left_app. Qed.

(** ** The request: the drain loop *)

Lemma drain_spec :
  forall (replies : list (QNetworkReply * bool))
         (st : MediaWikiArticleRequest) (updated : bool),
  exists j : nat,
    Forall (fun e => snd e = true) (firstn j replies)
    /\ netReplies (fst (drain net dict replies st updated)) = skipn j replies
    /\ contents (fst (drain net dict replies st updated))
       = contents (processInOrder net dict (map fst (firstn j replies)) st)
    /\ isFinishedFlag (fst (drain net dict replies st updated))
       = isFinishedFlag st
    /\ finishedSignals (fst (drain net dict replies st updated))
       = finishedSignals st.
Proof.
  induction replies as [|[r done] rest IH]; intros st updated.
  - exists 0%nat. simpl. auto.
  - destruct done.
    + cbn [drain].
      destruct (processReply net dict r st) as [st' u] eqn:E.
      destruct (IH st' (u || updated)) as (j & Hall & Hq & Hc & Hf & Hs).
      pose proof (processReply_frame r st) as (_ & Hf' & Hs' & _).
      rewrite E in Hf', Hs'. simpl in Hf', Hs'.
      exists (S j). cbn [firstn skipn map]. repeat split.
      * constructor; auto.
      * exact Hq.
      * rewrite Hc. simpl. now rewrite E.
      * congruence.
      * congruence.
    + exists 0%nat. simpl. auto.
Qed.

Lemma markFinished_spec (P : QNetworkReply -> Prop) (r : QNetworkReply) :
  forall replies replies' : list (QNetworkReply * bool),
    markFinished r replies = Some replies' ->
    map fst replies' = map fst replies
    /\ (marked P replies -> P r -> marked P replies').
Proof.
  unfold marked.
  induction replies as [|[r' done] rest IH]; intros replies' H;
    [discriminate|].
  cbn [markFinished] in H.
  destruct (r' =? r)%nat eqn:E.
  - injection H as <-. apply Nat.eqb_eq in E. subst r'. split; [reflexivity|].
    intros Hm HP. inversion Hm; subst. constructor; auto.
  - destruct (markFinished r rest) as [rest'|]; [|discriminate].
    injection H as <-. destruct (IH rest' eq_refl) as [Hfst Hmark].
    split; [simpl; now f_equal|].
    intros Hm HP. inversion Hm; subst. constructor; auto.
Qed.

(** What one completion event does to an unfinished request that owns
    the reply: it removes a prefix of the queue whose entries are all
    marked finished, and processes exactly these, front first. *)
Lemma requestFinished_spec (r : QNetworkReply) (st : MediaWikiArticleRequest) :
  requestFinished net dict r st = st
  \/ exists (replies : list (QNetworkReply * bool)) (j : nat),
      markFinished r (netReplies st) = Some replies
      /\ Forall (fun e => snd e = true) (firstn j replies)
      /\ netReplies (requestFinished net dict r st) = skipn j replies
      /\ contents (requestFinished net dict r st)
         = contents (processInOrder net dict (map fst (firstn j replies)) st).
Proof.
  unfold requestFinished.
  destruct (isFinished st); [now left|].
  destruct (markFinished r (netReplies st)) as [replies|] eqn:Hm; [|now left].
  right. exists replies.
  destruct (drain_spec replies st false) as (j & Hall & Hq & Hc & _).
  exists j.
  destruct (drain net dict replies st false) as [st' updated].
  simpl in Hq, Hc.
  assert (Hfin : netReplies (finish st') = netReplies st'
                 /\ contents (finish st') = contents st').
  { unfold finish. destruct (isFinishedFlag st'); auto. }
  assert (Hupd : netReplies (update st') = netReplies st'
                 /\ contents (update st') = contents st').
  { unfold update. destruct (isFinishedFlag st'); auto. }
  destruct Hfin as [Hfin1 Hfin2]. destruct Hupd as [Hupd1 Hupd2].
  destruct (netReplies st') eqn:Hn.
  - repeat split; auto; congruence.
  - destruct updated; repeat split; auto; congruence.
Qed.

(** ** The request: sequences of events *)

Lemma run_app (evs1 evs2 : list Event) (st : MediaWikiArticleRequest) :
  run net dict (evs1 ++ evs2) st = run net dict evs2 (run net dict evs1 st).
Proof. unfold run. apply fold_left_app. Qed.

Lemma finish_contents (st : MediaWikiArticleRequest) :
  netReplies (finish st) = netReplies st /\ contents (finish st) = contents st.
Proof. unfold finish. destruct (isFinishedFlag st); auto. Qed.

Lemma marked_weaken (P Q : QNetworkReply -> Prop)
      (replies : list (QNetworkReply * bool)) :
  (forall r, P r -> Q r) -> marked P replies -> marked Q replies.
Proof.
  unfold marked. intros HPQ H. eapply Forall_impl; [|exact H].
  simpl. auto.
Qed.

Lemma marked_finished (P : QNetworkReply -> Prop)
      (replies : list (QNetworkReply * bool)) :
  marked P replies ->
  Forall (fun e => snd e = true) replies ->
  Forall P (map fst replies).
Proof.
  unfold marked. induction replies as [|e replies IH]; intros Hm Hall;
    [constructor|].
  inversion Hm; subst. inversion Hall; subst. simpl. constructor; auto.
Qed.

(** The state after any sequence of events: a prefix of the submitted
    queue is gone, each of its replies had a completion event, and the
    contents are those of processing that prefix in submission
    order. *)
Lemma run_drains_prefix (st0 : MediaWikiArticleRequest) :
  marked (fun _ => False) (netReplies st0) ->
  forall evs : list Event,
  exists k : nat,
    map fst (netReplies (run net dict evs st0))
    = skipn k (map fst (netReplies st0))
    /\ Forall (completedBy evs) (firstn k (map fst (netReplies st0)))
    /\ contents (run net dict evs st0)
       = contents (processInOrder net dict
                     (firstn k (map fst (netReplies st0))) st0)
    /\ marked (completedBy evs) (netReplies (run net dict evs st0)).
Proof.
  intros Hinit evs. induction evs as [|ev evs IH] using rev_ind.
  - exists 0%nat. simpl. repeat split; auto.
  - destruct IH as (k & Hq & Hdone & Hc & Hm).
    rewrite run_app. simpl run.
    set (st := run net dict evs st0) in *.
    assert (Hmono : forall r, completedBy evs r -> completedBy (evs ++ [ev]) r).
    { unfold completedBy. intros r Hr. apply in_or_app. now left. }
    assert (Hsame : forall st',
               netReplies st' = netReplies st -> contents st' = contents st ->
               exists k : nat,
                 map fst (netReplies st') = skipn k (map fst (netReplies st0))
                 /\ Forall (completedBy (evs ++ [ev]))
                           (firstn k (map fst (netReplies st0)))
                 /\ contents st'
                    = contents (processInOrder net dict
                                  (firstn k (map fst (netReplies st0))) st0)
                 /\ marked (completedBy (evs ++ [ev])) (netReplies st')).
    { intros st' Hn Hct. exists k. rewrite Hn, Hct. repeat split; auto.
      - eapply Forall_impl; [|exact Hdone]. auto.
      - eapply marked_weaken; [|exact Hm]. auto. }
    destruct ev as [r|]; cbn [step].
    + destruct (requestFinished_spec r st) as [Hid|(replies & j & Hmark & Hall & Hn & Hct)].
      * rewrite Hid. now apply Hsame.
      * destruct (markFinished_spec (completedBy (evs ++ [ReplyFinished r]))
                    r _ _ Hmark) as [Hfst Hmk].
        assert (Hm' : marked (completedBy (evs ++ [ReplyFinished r])) replies).
        { apply Hmk.
          - eapply marked_weaken; [|exact Hm]. auto.
          - unfold completedBy. apply in_or_app. right. now left. }
        exists (k + j)%nat. repeat split.
        -- rewrite Hn, <- skipn_map, Hfst, Hq, skipn_skipn.
           f_equal. lia.
        -- rewrite firstn_plus. apply Forall_app. split.
           ++ eapply Forall_impl; [|exact Hdone]. auto.
           ++ rewrite <- Hq, <- Hfst, firstn_map.
              apply marked_finished; [|exact Hall].
              now apply Forall_firstn_of.
        -- rewrite Hct, firstn_plus, processInOrder_app.
           rewrite <- firstn_map, Hfst, Hq.
           now apply processInOrder_contents.
        -- rewrite Hn. now apply Forall_skipn_of.
    + unfold cancel. destruct (finish_contents st) as [Hn Hct].
      now apply Hsame.
Qed.

(** A property of the contents that every processed reply keeps holds
    after every sequence of events. *)
Lemma run_preserves (Q : MediaWikiArticleRequest -> Prop) :
  (forall st1 st2, contents st1 = contents st2 -> Q st1 -> Q st2) ->
  (forall r st, Q st -> Q (fst (processReply net dict r st))) ->
  forall (evs : list Event) (st : MediaWikiArticleRequest),
    Q st -> Q (run net dict evs st).
Proof.
  intros Hext Hstep evs.
  assert (Hin : forall rs st, Q st -> Q (processInOrder net dict rs st)).
  { induction rs as [|r rs IH]; intros st H; [exact H|].
    simpl. apply IH. now apply Hstep. }
  induction evs as [|ev evs IH]; intros st H; [exact H|].
  simpl. apply IH. destruct ev as [r|]; cbn [step].
  - destruct (requestFinished_spec r st) as [Hid|(replies & j & _ & _ & _ & Hct)].
    + now rewrite Hid.
    + eapply Hext; [symmetry; exact Hct|]. now apply Hin.
  - eapply Hext; [|exact H]. symmetry. apply finish_contents.
Qed.

End RequestFacts.

(** ** SmallSet *)

Lemma insert_spec (x : Z) (elements : SmallSet Z) :
  (fst (insert x elements) = false <-> In x elements)
  /\ (fst (insert x elements) = true -> snd (insert x elements) = elements ++ [x])
  /\ incl elements (snd (insert x elements))
  /\ In x (snd (insert x elements)).
Proof.
  unfold insert.
  destruct (existsb (Z.eqb x) elements) eqn:E; simpl.
  - apply existsb_exists in E as (y & Hy & Hxy). apply Z.eqb_eq in Hxy.
    subst y. repeat split; auto using incl_refl. discriminate.
  - assert (Hnot : ~ In x elements).
    { intros Hin. assert (existsb (Z.eqb x) elements = true); [|congruence].
      apply existsb_exists. exists x. split; [exact Hin | apply Z.eqb_refl]. }
    repeat split; auto.
    + discriminate.
    + intros Hin. contradiction.
    + apply incl_appl, incl_refl.
    + apply in_or_app. right. now left.
Qed.

(** ** The claims about the request *)

Lemma new_request_unmarked (str : wstring) (alts : list wstring)
      (url : QString) (mgr : QNetworkAccessManager) :
  marked (fun _ => False)
         (netReplies (fst (newArticleRequest str alts url mgr))).
Proof.
  rewrite newArticleRequest_spec. cbn [fst netReplies withNetReplies].
  unfold marked. apply Forall_forall. intros e He.
  apply in_map_iff in He as (r & <- & _). discriminate.
Qed.

(** C1.  The queue is created in the order primary word, alternates.  A
    completion event removes entries only from the front of the queue,
    and only entries marked finished.  After any sequence of events, in
    whatever order the replies complete, the queue is the submitted one
    without some prefix, every reply of that prefix had a completion
    event, and the buffer, with everything else the request has
    produced, is what processing that prefix in submission order
    gives. *)
Theorem fragments_follow_submission_order
        (net : Network) (dict : MediaWikiDictionary)
        (str : wstring) (alts : list wstring) (url : QString)
        (mgr : QNetworkAccessManager) (evs : list Event) :
  let created := newArticleRequest str alts url mgr in
  let st0 := fst created in
  let submitted := map fst (netReplies st0) in
  let st := run net dict evs st0 in
  submitted = seq (length mgr) (S (length alts))
  /\ snd created = mgr ++ map (articleQuery url) (str :: alts)
  /\ (forall r : QNetworkReply,
        requestFinished net dict r st = st
        \/ exists (replies : list (QNetworkReply * bool)) (j : nat),
            markFinished r (netReplies st) = Some replies
            /\ Forall (fun e => snd e = true) (firstn j replies)
            /\ netReplies (requestFinished net dict r st) = skipn j replies)
  /\ exists k : nat,
      map fst (netReplies st) = skipn k submitted
      /\ Forall (completedBy evs) (firstn k submitted)
      /\ contents st
         = contents (processInOrder net dict (firstn k submitted) st0)
      /\ data st = data (processInOrder net dict (firstn k submitted) st0)
      /\ appendedPages st
         = appendedPages (processInOrder net dict (firstn k submitted) st0).
Proof.
  intros created st0 submitted st.
  split; [|split; [|split]].
  - subst submitted st0 created. rewrite newArticleRequest_spec.
    cbn [fst netReplies withNetReplies]. rewrite map_map. simpl.
    now rewrite map_id.
  - subst created. now rewrite newArticleRequest_spec.
  - intros r.
    destruct (requestFinished_spec net dict r st)
      as [Hid|(replies & j & Hm & Hall & Hn & _)]; [now left|].
    right. exists replies, j. auto.
  - destruct (run_drains_prefix net dict st0
                (new_request_unmarked str alts url mgr) evs)
      as (k & Hq & Hdone & Hc & _).
    exists k. fold st in Hq, Hc. fold submitted in Hq, Hdone, Hc.
    repeat split; auto.
    + unfold contents in Hc. congruence.
    + unfold contents in Hc. congruence.
Qed.

(** Four terms; the replies complete in the order 3, 1, 2, 0.  Nothing is
    appended before reply 0 completes, and then the pages come out in
    submission order. *)
Example out_of_order_completion :
  let st0 := fst (newArticleRequest "w" ["x" : wstring; "y" : wstring; "z" : wstring]
                                    (url sampleDict) []) in
  data (run sampleNet sampleDict
            [ReplyFinished 3; ReplyFinished 1; ReplyFinished 2]%nat st0) = []
  /\ map fst (appendedPages
                (run sampleNet sampleDict
                     [ReplyFinished 3; ReplyFinished 1; ReplyFinished 2;
                      ReplyFinished 0]%nat st0)) = [10; 11].
Proof. vm_compute. split; reflexivity. Qed.

Lemma processReply_pagesConsistent (net : Network) (dict : MediaWikiDictionary)
      (r : QNetworkReply) (st : MediaWikiArticleRequest) :
  pagesConsistent st -> pagesConsistent (fst (processReply net dict r st)).
Proof.
  unfold pagesConsistent. intros (Hnd & Hincl & Hdata).
  unfold processReply.
  destruct (net r) as [str|errorStr errorLine errorColumn|dd]; simpl; auto.
  destruct (parseNodeOf dd) as [n|]; simpl; auto.
  destruct (QString_eqb _ _); simpl; auto.
  set (pageId := toLongLong _).
  destruct (insert_spec pageId (addedPageIds st)) as (Hfalse & Htrue & Hsub & Hin).
  destruct (insert pageId (addedPageIds st)) as [[|] ids]; simpl in *.
  - assert (Hnew : ~ In pageId (addedPageIds st)).
    { intros Hold. apply Hfalse in Hold. discriminate. }
    destruct (namedItem _ _); simpl.
    + rewrite !map_app, concat_app. simpl. rewrite app_nil_r.
      repeat split.
      * apply NoDup_app; auto.
        -- constructor; [tauto | constructor].
        -- intros a Ha [<-|[]]. apply Hnew. now apply Hincl.
      * apply incl_app; [eapply incl_tran; eauto|].
        intros a [<-|[]]. exact Hin.
      * now rewrite Hdata.
    + repeat split; auto. eapply incl_tran; eauto.
  - repeat split; auto. eapply incl_tran; eauto.
Qed.

Lemma processReply_ids_grow (net : Network) (dict : MediaWikiDictionary)
      (r : QNetworkReply) (st : MediaWikiArticleRequest) :
  incl (addedPageIds st) (addedPageIds (fst (processReply net dict r st))).
Proof.
  unfold processReply.
  destruct (net r) as [str|errorStr errorLine errorColumn|dd]; simpl;
    auto using incl_refl.
  destruct (parseNodeOf dd) as [n|]; simpl; auto using incl_refl.
  destruct (QString_eqb _ _); simpl; auto using incl_refl.
  set (pageId := toLongLong _).
  destruct (insert_spec pageId (addedPageIds st)) as (_ & _ & Hsub & _).
  destruct (insert pageId (addedPageIds st)) as [[|] ids]; simpl in *; auto.
  destruct (namedItem _ _); simpl; auto.
Qed.

Lemma run_ids_grow (net : Network) (dict : MediaWikiDictionary)
      (evs : list Event) (st : MediaWikiArticleRequest) :
  incl (addedPageIds st) (addedPageIds (run net dict evs st)).
Proof.
  apply (run_preserves net dict
           (fun s => incl (addedPageIds st) (addedPageIds s))).
  - unfold contents. intros st1 st2 H. injection H as -> _ _ _ _. auto.
  - intros r s Hs. eapply incl_tran; [exact Hs|]. apply processReply_ids_grow.
  - apply incl_refl.
Qed.

(** C2.  [insert] returns false exactly when the page id is already in
    the set, and leaves in the set all that was there; no event of a
    request removes a page id from the set; and after any sequence of
    events of a request no page id has been appended to the buffer
    twice, the buffer being the concatenation of the appended pages. *)
Theorem page_appended_at_most_once
        (net : Network) (dict : MediaWikiDictionary)
        (str : wstring) (alts : list wstring) (url : QString)
        (mgr : QNetworkAccessManager) (evs : list Event) :
  let st := run net dict evs (fst (newArticleRequest str alts url mgr)) in
  (forall (x : Z) (elements : SmallSet Z),
      (fst (insert x elements) = false <-> In x elements)
      /\ incl elements (snd (insert x elements))
      /\ In x (snd (insert x elements)))
  /\ (forall ev : Event,
         incl (addedPageIds st) (addedPageIds (step net dict st ev)))
  /\ NoDup (map fst (appendedPages st))
  /\ data st = concat (map snd (appendedPages st)).
Proof.
  intros st. split; [|split].
  - intros x elements.
    destruct (insert_spec x elements) as (H1 & _ & H3 & H4). auto.
  - intros ev. apply (run_ids_grow net dict [ev] st).
  - assert (H : pagesConsistent st).
    { apply (run_preserves net dict pagesConsistent).
      - unfold contents, pagesConsistent. intros st1 st2 H.
        injection H as -> -> _ _ ->. auto.
      - intros r s. apply processReply_pagesConsistent.
      - rewrite newArticleRequest_spec. simpl. repeat split.
        + constructor.
        + apply incl_refl. }
    destruct H as (Hnd & _ & Hdata). auto.
Qed.

(** C4, amended.  For every parsed reply: if the [revid] attribute of
    the api/parse node is the sentinel 0, the reply is skipped, nothing
    is appended and the page id is not recorded.  A parse node without
    [revid] attribute is not skipped: with a new page id and a text node
    its article body is appended. *)
Theorem revid_zero_page_is_skipped
        (net : Network) (dict : MediaWikiDictionary) (r : QNetworkReply)
        (dd : QDomDocument) (st : MediaWikiArticleRequest) :
  net r = XmlDocument dd ->
  (attribute "revid" (parseNodeOf dd) = "0" ->
   processReply net dict r st = (st, false))
  /\ (forall textNode : QDomNode,
         parseNodeOf dd <> None ->
         hasAttribute "revid" (parseNodeOf dd) = false ->
         ~ In (pageIdOf dd) (addedPageIds st) ->
         namedItem "text" (parseNodeOf dd) = Some textNode ->
         data (fst (processReply net dict r st))
         = data st ++ articleBody dict (parseNodeOf dd) textNode
         /\ snd (processReply net dict r st) = true).
Proof.
  intros Hnet. unfold processReply. rewrite Hnet. split.
  - intros Hrev. destruct (parseNodeOf dd) as [n|]; [|reflexivity].
    rewrite Hrev. reflexivity.
  - intros textNode Hsome Habsent Hnew Htext.
    destruct (parseNodeOf dd) as [n|] eqn:Hp; [|congruence].
    assert (Hrev : attribute "revid" (Some n) = []).
    { destruct n as [tag attrs cs|v|name]; simpl in *; try reflexivity.
      destruct (lookupAttribute _ attrs); [discriminate | reflexivity]. }
    rewrite Hrev. cbn [QString_eqb list_ascii_of_string].
    unfold pageIdOf in Hnew. rewrite Hp in Hnew.
    destruct (insert_spec (toLongLong (attribute "pageid" (Some n)))
                          (addedPageIds st)) as (Hfalse & _).
    destruct (insert _ (addedPageIds st)) as [[|] ids]; simpl in *.
    + rewrite Htext. simpl. auto.
    + exfalso. apply Hnew. now apply Hfalse.
Qed.

Lemma revid_zero_page_is_skipped_witness :
  attribute "revid" (parseNodeOf sampleNotFoundDocument) = "0"
  /\ processReply (fun _ => XmlDocument sampleNotFoundDocument)
                  sampleDict 0%nat emptyRequest
     = (emptyRequest, false).
Proof.
  split; [reflexivity|].
  apply (revid_zero_page_is_skipped
           (fun _ => XmlDocument sampleNotFoundDocument)
           sampleDict 0%nat sampleNotFoundDocument emptyRequest eq_refl).
  reflexivity.
Defined.

(** C4 as stated fails: reply 4 has an api/parse node without [revid],
    and its text is appended to the buffer. *)
Lemma page_without_revid_is_appended :
  hasAttribute "revid" (sampleParseNode 4%nat) = false
  /\ data emptyRequest = []
  /\ data (fst (processReply sampleNet sampleDict 4%nat emptyRequest))
     = "<div class=" ++ dq ++ "mwiki" ++ dq ++ ">Gamma</div>".
Proof. vm_compute. repeat split; reflexivity. Qed.

(** *** Cancellation *)

Lemma step_finished (net : Network) (dict : MediaWikiDictionary)
      (st : MediaWikiArticleRequest) (ev : Event) :
  isFinished st = true -> step net dict st ev = st.
Proof.
  unfold isFinished. intros H. destruct ev as [r|]; cbn [step].
  - unfold requestFinished, isFinished. now rewrite H.
  - unfold cancel, finish. now rewrite H.
Qed.

Lemma run_finished (net : Network) (dict : MediaWikiDictionary)
      (evs : list Event) :
  forall st : MediaWikiArticleRequest,
    isFinished st = true -> run net dict evs st = st.
Proof.
  induction evs as [|ev evs IH]; intros st H; [reflexivity|].
  simpl. rewrite step_finished by exact H. now apply IH.
Qed.

(** The completion signal has fired once in a finished request, and not
    yet in an unfinished one. *)
Lemma step_signal_count (net : Network) (dict : MediaWikiDictionary)
      (st : MediaWikiArticleRequest) (ev : Event) :
  finishedSignals st = (if isFinishedFlag st then 1 else 0)%nat ->
  finishedSignals (step net dict st ev)
  = (if isFinishedFlag (step net dict st ev) then 1 else 0)%nat.
Proof.
  intros H. destruct (isFinishedFlag st) eqn:Hf.
  { rewrite step_finished by exact Hf. now rewrite Hf. }
  assert (Hfin : forall s, isFinishedFlag s = false -> finishedSignals s = 0%nat ->
                           finishedSignals (finish s) = 1%nat
                           /\ isFinishedFlag (finish s) = true).
  { intros s Hs Hn. unfold finish. rewrite Hs. simpl. now rewrite Hn. }
  destruct ev as [r|]; cbn [step].
  - unfold requestFinished, isFinished. rewrite Hf.
    destruct (markFinished r (netReplies st)) as [replies|]; [|now rewrite Hf].
    destruct (drain_spec net dict replies st false) as (j & _ & _ & _ & Hflag & Hsig).
    destruct (drain net dict replies st false) as [st' updated].
    simpl in Hflag, Hsig. rewrite Hf in Hflag. rewrite H in Hsig.
    destruct (netReplies st').
    + destruct (Hfin st' Hflag Hsig) as [-> ->]. reflexivity.
    + destruct updated.
      * unfold update. rewrite Hflag. simpl. exact Hsig.
      * now rewrite Hflag.
  - unfold cancel. destruct (Hfin st Hf H) as [-> ->]. reflexivity.
Qed.

Lemma run_signal_count (net : Network) (dict : MediaWikiDictionary)
      (evs : list Event) :
  forall st : MediaWikiArticleRequest,
    finishedSignals st = (if isFinishedFlag st then 1 else 0)%nat ->
    finishedSignals (run net dict evs st)
    = (if isFinishedFlag (run net dict evs st) then 1 else 0)%nat.
Proof.
  induction evs as [|ev evs IH]; intros st H; [exact H|].
  simpl. apply IH. now apply step_signal_count.
Qed.

(** C5.  When [cancel] is called on a request that has not finished,
    after any events before it, the completion signal fires, and
    whatever events follow (replies completing, further calls of
    [cancel]) leave the request as [cancel] left it: the signal has
    fired exactly once and the buffer is the one at cancellation. *)
Theorem cancel_is_final
        (net : Network) (dict : MediaWikiDictionary)
        (str : wstring) (alts : list wstring) (url : QString)
        (mgr : QNetworkAccessManager) (before after : list Event) :
  let st := run net dict before (fst (newArticleRequest str alts url mgr)) in
  isFinished st = false ->
  finishedSignals st = 0%nat
  /\ finishedSignals (cancel st) = 1%nat
  /\ run net dict after (cancel st) = cancel st
  /\ finishedSignals (run net dict after (cancel st)) = 1%nat
  /\ data (run net dict after (cancel st)) = data st
  /\ contents (run net dict after (cancel st)) = contents st.
Proof.
  intros st Hlive. unfold isFinished in Hlive.
  assert (Hcount : finishedSignals st = 0%nat).
  { subst st. rewrite run_signal_count.
    - now rewrite Hlive.
    - now rewrite newArticleRequest_spec. }
  assert (Hcancel : isFinished (cancel st) = true
                    /\ finishedSignals (cancel st) = 1%nat
                    /\ contents (cancel st) = contents st).
  { unfold cancel, finish, isFinished. rewrite Hlive. simpl.
    now rewrite Hcount. }
  destruct Hcancel as (Hfin & Hone & Hsame).
  rewrite (run_finished net dict after _ Hfin).
  repeat split; auto.
  unfold contents in Hsame. congruence.
Qed.

Lemma cancel_is_final_witness :
  let st := fst (newArticleRequest "w" ["x" : wstring; "y" : wstring]
                                   (url sampleDict) []) in
  isFinished st = false
  /\ finishedSignals
       (run sampleNet sampleDict
            [ReplyFinished 0; ReplyFinished 1; ReplyFinished 2; Cancel]%nat
            (cancel st)) = 1%nat
  /\ data (run sampleNet sampleDict
               [ReplyFinished 0; ReplyFinished 1; ReplyFinished 2; Cancel]%nat
               (cancel st)) = [].
Proof.
  split; [reflexivity|].
  pose proof (cancel_is_final sampleNet sampleDict "w"
                ["x" : wstring; "y" : wstring] (url sampleDict) [] []
                [ReplyFinished 0; ReplyFinished 1; ReplyFinished 2; Cancel]%nat
                eq_refl) as (_ & _ & _ & Hsig & Hdata & _).
  split; [exact Hsig | exact Hdata].
Defined.

(** *** Failed replies *)

(** C8.  A reply that failed in transport or in XML parsing only
    overwrites the error string: the buffer, the page-id set and the
    data flag stay as they are, whatever error was recorded before.  The
    drain loop goes on behind it exactly as it would from the state with
    that error string, so the finished replies that follow in the
    prefix are processed and their content is appended. *)
Theorem failed_reply_only_sets_error
        (net : Network) (dict : MediaWikiDictionary) (r : QNetworkReply)
        (rest : list (QNetworkReply * bool)) (st : MediaWikiArticleRequest)
        (updated : bool) (msg : QString) :
  failureMessage (net r) = Some msg ->
  processReply net dict r st = (setErrorString msg st, false)
  /\ errorString (setErrorString msg st) = msg
  /\ data (setErrorString msg st) = data st
  /\ addedPageIds (setErrorString msg st) = addedPageIds st
  /\ hasAnyData (setErrorString msg st) = hasAnyData st
  /\ appendedPages (setErrorString msg st) = appendedPages st
  /\ drain net dict ((r, true) :: rest) st updated
     = drain net dict rest (setErrorString msg st) updated.
Proof.
  intros Hfail.
  assert (Hp : processReply net dict r st = (setErrorString msg st, false)).
  { unfold processReply.
    destruct (net r) as [str|errorStr errorLine errorColumn|dd];
      simpl in Hfail; try discriminate; now injection Hfail as <-. }
  repeat split; auto.
  cbn [drain]. now rewrite Hp.
Qed.

Lemma failed_reply_only_sets_error_witness :
  failureMessage (sampleNet 1%nat) = Some ("Connection timed out" : QString)
  /\ drain sampleNet sampleDict [(1%nat, true); (3%nat, true)] emptyRequest false
     = drain sampleNet sampleDict [(3%nat, true)]
             (setErrorString "Connection timed out" emptyRequest) false
  /\ data (fst (drain sampleNet sampleDict [(1%nat, true); (3%nat, true)]
                      emptyRequest false))
     = "<div class=" ++ dq ++ "mwiki" ++ dq ++ ">Beta</div>".
Proof.
  split; [reflexivity|].
  pose proof (failed_reply_only_sets_error
                sampleNet sampleDict 1%nat [(3%nat, true)] emptyRequest false
                "Connection timed out" eq_refl) as (_ & _ & _ & _ & _ & _ & H).
  split; [exact H | reflexivity].
Defined.

(** *** Pages without text *)

Lemma QString_eqb_eq (a b : QString) : QString_eqb a b = true <-> a = b.
Proof.
  revert b; induction a as [|c a IH]; intros [|d b]; simpl;
    try (split; [discriminate | discriminate]); try tauto.
  rewrite andb_true_iff, Ascii.eqb_eq, IH. split.
  - intros [-> ->]. reflexivity.
  - intros H. injection H as -> ->. auto.
Qed.

Lemma withAddedPageIds_same (st : MediaWikiArticleRequest) :
  withAddedPageIds (addedPageIds st) st = st.
Proof. now destruct st. Qed.

(** A reply whose page id is already in the set changes nothing. *)
Lemma processReply_duplicate (net : Network) (dict : MediaWikiDictionary)
      (r : QNetworkReply) (dd : QDomDocument) (st : MediaWikiArticleRequest) :
  net r = XmlDocument dd ->
  In (pageIdOf dd) (addedPageIds st) ->
  processReply net dict r st = (st, false).
Proof.
  intros Hnet Hin. unfold processReply. rewrite Hnet.
  unfold pageIdOf in Hin.
  destruct (parseNodeOf dd) as [n|]; [|reflexivity].
  destruct (QString_eqb _ _); [reflexivity|].
  destruct (insert_spec (toLongLong (attribute "pageid" (Some n)))
                        (addedPageIds st)) as (Hfalse & _).
  apply Hfalse in Hin.
  unfold insert in *.
  destruct (existsb _ (addedPageIds st)); simpl in *; [|discriminate].
  now rewrite withAddedPageIds_same.
Qed.

(** C10.  A parsed reply with a parse node, a [revid] other than 0, a
    page id not yet in the set and no text node appends nothing, yet its
    page id is in the set afterwards.  Whatever events follow, a reply
    that resolves to the same page id, with or without text, is then
    dropped: processing it changes nothing. *)
Theorem textless_page_blocks_later_duplicates
        (net : Network) (dict : MediaWikiDictionary) (r : QNetworkReply)
        (dd : QDomDocument) (st : MediaWikiArticleRequest) :
  net r = XmlDocument dd ->
  parseNodeOf dd <> None ->
  attribute "revid" (parseNodeOf dd) <> "0" ->
  ~ In (pageIdOf dd) (addedPageIds st) ->
  namedItem "text" (parseNodeOf dd) = None ->
  let st1 := fst (processReply net dict r st) in
  data st1 = data st
  /\ appendedPages st1 = appendedPages st
  /\ snd (processReply net dict r st) = false
  /\ addedPageIds st1 = addedPageIds st ++ [pageIdOf dd]
  /\ forall (evs : list Event) (r' : QNetworkReply) (dd' : QDomDocument),
      net r' = XmlDocument dd' ->
      pageIdOf dd' = pageIdOf dd ->
      processReply net dict r' (run net dict evs st1)
      = (run net dict evs st1, false).
Proof.
  intros Hnet Hsome Hrev Hnew Htext st1.
  assert (Hst1 : processReply net dict r st
                 = (withAddedPageIds (addedPageIds st ++ [pageIdOf dd]) st, false)).
  { unfold processReply. rewrite Hnet. unfold pageIdOf in *.
    destruct (parseNodeOf dd) as [n|]; [|congruence].
    destruct (QString_eqb (attribute "revid" (Some n)) "0") eqn:E.
    { apply QString_eqb_eq in E. contradiction. }
    destruct (insert_spec (toLongLong (attribute "pageid" (Some n)))
                          (addedPageIds st)) as (Hfalse & Htrue & _).
    destruct (insert _ (addedPageIds st)) as [[|] ids]; simpl in *.
    - rewrite (Htrue eq_refl), Htext. reflexivity.
    - exfalso. apply Hnew. now apply Hfalse. }
  subst st1. rewrite Hst1. cbn [fst snd].
  repeat split; auto.
  intros evs r' dd' Hnet' Hsame.
  apply (processReply_duplicate net dict r' dd'); [exact Hnet'|].
  rewrite Hsame. apply (run_ids_grow net dict evs). simpl.
  apply in_or_app. right. now left.
Qed.

Lemma textless_page_blocks_later_duplicates_witness :
  let st1 := fst (processReply sampleNet sampleDict 5%nat emptyRequest) in
  namedItem "text" (parseNodeOf sampleTextlessDocument) = None
  /\ namedItem "text" (sampleParseNode 6%nat) = Some (sampleText "Delta")
  /\ addedPageIds st1 = [13]
  /\ data st1 = []
  /\ processReply sampleNet sampleDict 6%nat st1 = (st1, false).
Proof.
  assert (H1 : parseNodeOf sampleTextlessDocument <> None) by discriminate.
  assert (H2 : attribute "revid" (parseNodeOf sampleTextlessDocument) <> "0")
    by discriminate.
  assert (H3 : ~ In (pageIdOf sampleTextlessDocument) (addedPageIds emptyRequest))
    by (simpl; tauto).
  destruct (textless_page_blocks_later_duplicates
              sampleNet sampleDict 5%nat sampleTextlessDocument emptyRequest
              eq_refl H1 H2 H3 eq_refl) as (Hdata & _ & _ & Hids & Hlater).
  split; [reflexivity|]. split; [reflexivity|].
  split; [exact Hids|]. split; [exact Hdata|].
  exact (Hlater [] 6%nat _ eq_refl eq_refl).
Defined.

(** *** The length guard *)

(** C3, amended.  When the primary word is longer than 80 units,
    [getArticle] issues no network operation, for the word or for any
    alternate, and returns a request that is finished and empty, and
    [prefixMatch] does the same for its term.  The alternates are not
    measured: when the primary word has at most 80 units one operation
    is issued for it and for every alternate, whatever their lengths. *)
Theorem long_primary_term_is_rejected
        (dict : MediaWikiDictionary) (word : wstring) (alts : list wstring)
        (maxResults : Z) (netMgr : QNetworkAccessManager) :
  ((80 < length word)%nat ->
   getArticle dict word alts netMgr = (DataRequestInstant false, netMgr)
   /\ requestIsFinished (fst (getArticle dict word alts netMgr)) = true
   /\ requestData (fst (getArticle dict word alts netMgr)) = []
   /\ requestHasAnyData (fst (getArticle dict word alts netMgr)) = false
   /\ prefixMatch dict word maxResults netMgr = (WordSearchRequestInstant, netMgr)
   /\ searchIsFinished (fst (prefixMatch dict word maxResults netMgr)) = true
   /\ searchMatches (fst (prefixMatch dict word maxResults netMgr)) = [])
  /\ ((length word <= 80)%nat ->
      snd (getArticle dict word alts netMgr)
      = netMgr ++ map (articleQuery (url dict)) (word :: alts)
      /\ snd (prefixMatch dict word maxResults netMgr)
         = netMgr ++ [searchQuery (url dict) word]).
Proof.
  unfold getArticle, prefixMatch. split; intros H.
  - apply Nat.ltb_lt in H. rewrite H. repeat split.
  - assert (E : (80 <? length word)%nat = false) by (apply Nat.ltb_ge; lia).
    rewrite E, newArticleRequest_spec. split; reflexivity.
Qed.

Lemma long_primary_term_is_rejected_witness :
  (80 < length sampleLongTerm)%nat
  /\ getArticle sampleDict sampleLongTerm ["x" : wstring] []
     = (DataRequestInstant false, [])
  /\ prefixMatch sampleDict sampleLongTerm 40 [] = (WordSearchRequestInstant, []).
Proof.
  pose proof (long_primary_term_is_rejected
                sampleDict sampleLongTerm ["x" : wstring] 40 []) as [H _].
  assert (Hlen : (80 < length sampleLongTerm)%nat) by (simpl; lia).
  destruct (H Hlen) as (Hget & _ & _ & _ & Hprefix & _).
  split; [exact Hlen|]. split; [exact Hget | exact Hprefix].
Defined.

(** C3 as stated fails for alternates: with a short primary word, a
    network operation is issued for an alternate of 81 units, and the
    request is not finished. *)
Lemma long_alternate_is_queried :
  (80 < length sampleLongTerm)%nat
  /\ snd (getArticle sampleDict "word" [sampleLongTerm] [])
     = [articleQuery (url sampleDict) "word";
        articleQuery (url sampleDict) sampleLongTerm]
  /\ requestIsFinished (fst (getArticle sampleDict "word" [sampleLongTerm] []))
     = false.
Proof. split; [simpl; lia | split; reflexivity]. Qed.

(* ================================================================== *)
(** * Part II, continued: further properties of the code               *)
(* ================================================================== *)

(** ** The table-of-contents synthesizer *)

Lemma addListLevel_asserts_hold (levelString : QString)
      (p : MediaWikiSectionsParser) :
  addListLevel_asserts levelString p = true.
Proof.
  unfold addListLevel_asserts, closeListTags_assert.
  destruct (toInt levelString) as [level|]; [|reflexivity].
  destruct (level <=? 0) eqn:E1; [reflexivity|].
  destruct (level >? previousLevel p + 1) eqn:E2; [reflexivity|].
  destruct (level =? previousLevel p + 1) eqn:E3; [apply Z.eqb_refl|].
  rewrite closeListTags_spec. simpl previousLevel.
  apply andb_true_iff. split; [lia|]. apply Z.eqb_eq. lia.
Qed.

Lemma addListLevel_level (levelString : QString)
      (p p' : MediaWikiSectionsParser) :
  addListLevel levelString p = (true, p') ->
  toInt levelString = Some (previousLevel p')
  /\ 0 < previousLevel p' <= previousLevel p + 1.
Proof.
  unfold addListLevel.
  destruct (toInt levelString) as [level|]; [|discriminate].
  destruct (level <=? 0) eqn:E1; [discriminate|].
  destruct (level >? previousLevel p + 1) eqn:E2; [discriminate|].
  intros H. injection H as <-.
  destruct (level =? previousLevel p + 1) eqn:E3; simpl.
  - split; [reflexivity | lia].
  - rewrite closeListTags_spec. simpl.
    replace (previousLevel p - Z.of_nat (Z.to_nat (previousLevel p - level)))
      with level by lia.
    split; [reflexivity | lia].
Qed.

Lemma tocLoop_asserts_hold :
  forall (els : list QDomNode) (p : MediaWikiSectionsParser),
    1 <= previousLevel p \/ els <> [] ->
    tocLoop_asserts els p = true.
Proof.
  induction els as [|el els IH]; intros p H.
  - destruct H as [H|H]; [|congruence].
    unfold tocLoop_asserts, closeListTags_assert. lia.
  - cbn [tocLoop_asserts]. rewrite addListLevel_asserts_hold. simpl.
    destruct (addListLevel (toclevel el) p) as [[|] p'] eqn:E; [|reflexivity].
    apply addListLevel_level in E as [_ Hl].
    apply IH. left. simpl. lia.
Qed.

(** X1.  Neither assertion of the parser can fail: for every sections
    element and every parser state, each call of [closeListTags] is
    entered with [currentLevel <= previousLevel], and [addListLevel]
    reaches its [Q_ASSERT( level == previousLevel )] with the two
    equal. *)
Theorem toc_assertions_never_fail
        (sectionsElement : QDomNode) (p : MediaWikiSectionsParser) :
  generateTableOfContents_asserts sectionsElement p = true.
Proof.
  unfold generateTableOfContents_asserts.
  destruct (childElements "s" (Some sectionsElement)) as [|el els];
    [reflexivity|].
  apply tocLoop_asserts_hold. right. discriminate.
Qed.

Lemma wellformed_levels_exist :
  forall (els : list QDomNode) (current : Z),
    containsMalformedLevel current (map toclevel els) = false ->
    exists levels : list Z,
      levelsAre els levels /\ acceptedFrom current levels = true.
Proof.
  unfold levelsAre.
  induction els as [|el els IH]; intros current H.
  - exists []. split; reflexivity.
  - cbn [map containsMalformedLevel] in H.
    destruct (toInt (toclevel el)) as [level|] eqn:E; [|discriminate].
    apply orb_false_iff in H as [H Hrest].
    apply orb_false_iff in H as [H1 H2].
    destruct (IH level Hrest) as (levels & Hlv & Hacc).
    exists (level :: levels). split.
    + simpl. now rewrite E, Hlv.
    + cbn [acceptedFrom]. rewrite Hacc.
      apply andb_true_iff. split; [|reflexivity].
      apply andb_true_iff. split; lia.
Qed.

(** X2.  The synthesizer is all or nothing.  Without an [<s>] child, or
    with a malformed level anywhere in the list, its result is the empty
    string; otherwise every level is a number and the result is the
    complete, properly nested table for all the sections, which is not
    empty. *)
Theorem toc_all_or_nothing (sectionsElement : QDomNode) :
  let els := childElements "s" (Some sectionsElement) in
  let toc := tableOfContents (generateTableOfContents sectionsElement newParser) in
  (els = [] \/ containsMalformedLevel 0 (map toclevel els) = true -> toc = [])
  /\ (els <> [] /\ containsMalformedLevel 0 (map toclevel els) = false ->
      toc <> []
      /\ exists levels : list Z,
          levelsAre els levels
          /\ acceptedFrom 0 levels = true
          /\ toc = render (tocBySpec levels els)
          /\ wellNested [] (tocBySpec levels els) = true).
Proof.
  intros els toc. subst toc. unfold generateTableOfContents. fold els.
  split.
  - intros [Hnone|Hbad].
    + now rewrite Hnone.
    + destruct els as [|el rest] eqn:Els; [discriminate|].
      now apply tocLoop_malformed.
  - intros [Hsome Hgood].
    destruct (wellformed_levels_exist els 0 Hgood) as (levels & Hlv & Hacc).
    destruct els as [|el rest] eqn:Els; [congruence|].
    assert (Htoc : tableOfContents
                     (tocLoop (el :: rest)
                              {| tableOfContents := tocHeader;
                                 previousLevel := previousLevel newParser |})
                   = render (tocBySpec levels (el :: rest))).
    { rewrite (tocLoop_accepted _ levels) by auto. reflexivity. }
    split.
    + rewrite Htoc. discriminate.
    + exists levels. repeat split; auto.
      unfold tocBySpec. cbn [wellNested].
      change [InToc] with (stackAt (Z.to_nat 0)).
      apply wellNested_specToc; [|lia|].
      * rewrite map_fst_combine; [exact Hacc|].
        symmetry. now apply levelsAre_length.
      * right. destruct levels; [discriminate|]. discriminate.
Qed.

Lemma find_from_first (needle : QString) :
  forall (s : QString) (i n : nat),
    find_from needle s i = Z.of_nat n ->
    forall j : nat, (j < n - i)%nat -> startsWith needle (skipn j s) = false.
Proof.
  induction s as [|c s IH]; intros i n H j Hj; cbn [find_from] in H.
  - destruct (startsWith needle []) eqn:E; [|lia].
    apply Nat2Z.inj in H. lia.
  - destruct (startsWith needle (c :: s)) eqn:E.
    + apply Nat2Z.inj in H. lia.
    + destruct j as [|j]; [exact E|]. simpl.
      apply (IH (S i) n H). apply find_from_found in H as [Hle _]. lia.
Qed.

(** X3.  [generateTableOfContentsIfEmpty] changes the article only at the
    first empty-ToC marker.  Without a marker, or without a sections
    child of the parse node, the article is returned as it is (in the
    second case with its marker).  Otherwise the marker really stands at
    the position found, no marker starts before it, and the result is
    the text before it, the synthesized table, and the text after it,
    later markers included. *)
Theorem toc_replaces_first_marker_only
        (parseNode : option QDomNode) (articleString : QString) :
  (indexOf emptyTocIndicator 0 articleString = -1 ->
   generateTableOfContentsIfEmpty parseNode articleString = articleString)
  /\ (firstChildElement "sections" parseNode = None ->
      generateTableOfContentsIfEmpty parseNode articleString = articleString)
  /\ (forall (pos : nat) (sectionsElement : QDomNode),
         indexOf emptyTocIndicator 0 articleString = Z.of_nat pos ->
         firstChildElement "sections" parseNode = Some sectionsElement ->
         articleString
         = firstn pos articleString ++ emptyTocIndicator
           ++ skipn (pos + length emptyTocIndicator) articleString
         /\ (forall j : nat,
                (j < pos)%nat ->
                startsWith emptyTocIndicator (skipn j articleString) = false)
         /\ generateTableOfContentsIfEmpty parseNode articleString
            = firstn pos articleString
              ++ tableOfContents
                   (generateTableOfContents sectionsElement newParser)
              ++ skipn (pos + length emptyTocIndicator) articleString).
Proof.
  unfold generateTableOfContentsIfEmpty. split; [|split].
  - intros ->. reflexivity.
  - intros ->. now destruct (_ =? -1).
  - intros pos sectionsElement Hpos Hsec. split; [|split].
    + now apply indexOf_found.
    + intros j Hj. unfold indexOf in Hpos. simpl in Hpos.
      apply (find_from_first _ _ 0%nat pos Hpos). lia.
    + rewrite Hpos, Hsec.
      destruct (Z.of_nat pos =? -1) eqn:E; [lia|].
      now rewrite Nat2Z.id.
Qed.

Lemma toc_replaces_first_marker_only_witness :
  indexOf emptyTocIndicator 0 (sampleMarkedText ++ emptyTocIndicator) = 5
  /\ generateTableOfContentsIfEmpty
       (Some (QDomElement "parse" [] [sampleSections ["1"]%string]))
       (sampleMarkedText ++ emptyTocIndicator)
     = "Intro"
       ++ tableOfContents
            (generateTableOfContents (sampleSections ["1"]%string) newParser)
       ++ "Body" ++ emptyTocIndicator.
Proof.
  split; [reflexivity|].
  destruct (toc_replaces_first_marker_only
              (Some (QDomElement "parse" [] [sampleSections ["1"]%string]))
              (sampleMarkedText ++ emptyTocIndicator)) as (_ & _ & H).
  destruct (H 5%nat (sampleSections ["1"]%string) eq_refl eq_refl)
    as (_ & _ & Hgen).
  exact Hgen.
Defined.

Lemma toc_all_or_nothing_witness :
  let sectionsElement := sampleSections ["1"; "2"; "2"; "3"; "1"]%string in
  childElements "s" (Some sectionsElement) <> []
  /\ tableOfContents (generateTableOfContents sectionsElement newParser) <> [].
Proof.
  split; [discriminate|].
  destruct (toc_all_or_nothing (sampleSections ["1"; "2"; "2"; "3"; "1"]%string))
    as [_ H].
  apply H. split; [discriminate | reflexivity].
Defined.

(** ** SmallSet, continued *)

(** X4.  [SmallSet::insert] keeps the elements distinct.  After
    [insert( x )] the set holds [x] and what it held before, nothing
    else; its size grew by one exactly when the call returned true; and
    a second [insert( x )] returns false and leaves the set as it is. *)
Theorem smallset_insert_keeps_elements_distinct
        (x : Z) (elements : SmallSet Z) :
  NoDup elements ->
  NoDup (snd (insert x elements))
  /\ (forall y : Z, In y (snd (insert x elements)) <-> y = x \/ In y elements)
  /\ length (snd (insert x elements))
     = (length elements + (if fst (insert x elements) then 1 else 0))%nat
  /\ insert x (snd (insert x elements)) = (false, snd (insert x elements)).
Proof.
  intros Hnd.
  pose proof (insert_spec x elements) as (Hfalse & Htrue & Hincl & Hin).
  assert (Hagain : insert x (snd (insert x elements))
                   = (false, snd (insert x elements))).
  { pose proof (insert_spec x (snd (insert x elements))) as (Hf & _).
    apply Hf in Hin. revert Hin. generalize (snd (insert x elements)).
    intros l. unfold insert. destruct (existsb (Z.eqb x) l);
      [reflexivity | discriminate]. }
  split; [|split; [|split; [|exact Hagain]]].
  - revert Hfalse Htrue. unfold insert.
    destruct (existsb (Z.eqb x) elements); simpl; intros Hfalse Htrue;
      [exact Hnd|].
    apply NoDup_app; auto.
    + constructor; [tauto | constructor].
    + intros a Ha [<-|[]]. apply Hfalse in Ha. discriminate.
  - revert Hfalse. unfold insert.
    destruct (existsb (Z.eqb x) elements); simpl; intros Hfalse y.
    + split; [tauto|]. intros [->|Hy]; [now apply Hfalse | exact Hy].
    + rewrite in_app_iff. simpl. intuition congruence.
  - unfold insert. destruct (existsb (Z.eqb x) elements); simpl.
    + lia.
    + now rewrite length_app.
Qed.

Lemma smallset_insert_keeps_elements_distinct_witness :
  NoDup [10; 11]
  /\ insert 10 [10; 11] = (false, [10; 11])
  /\ NoDup (snd (insert 12 [10; 11]))
  /\ insert 12 (snd (insert 12 [10; 11])) = (false, [10; 11; 12]).
Proof.
  assert (Hnd : NoDup [10; 11]).
  { constructor; [simpl; intros [H|[]]; discriminate|].
    constructor; [simpl; tauto | constructor]. }
  split; [exact Hnd|]. split; [reflexivity|].
  destruct (smallset_insert_keeps_elements_distinct 12 [10; 11] Hnd)
    as (H1 & _ & _ & H4).
  split; [exact H1 | exact H4].
Defined.

(** ** The request: replies that are not in the queue *)

Lemma markFinished_none (r : QNetworkReply) :
  forall replies : list (QNetworkReply * bool),
    ~ In r (map fst replies) <-> markFinished r replies = None.
Proof.
  induction replies as [|[r' done] rest IH]; [simpl; tauto|].
  cbn [markFinished]. simpl.
  destruct (r' =? r)%nat eqn:E.
  - apply Nat.eqb_eq in E. split; [tauto | discriminate].
  - apply Nat.eqb_neq in E.
    destruct (markFinished r rest) as [rest'|]; simpl.
    + split; [|discriminate]. intros H. exfalso.
      assert (Hn : ~ In r (map fst rest)) by tauto.
      apply IH in Hn. discriminate.
    + split; [reflexivity|]. intros _ [H|H]; [contradiction|].
      now apply IH in H.
Qed.

(** X5.  A completion event for a reply that is not in the queue of the
    request (a reply of another request of the shared manager, or one
    that was drained before) changes nothing: no mark, no signal, no
    data. *)
Theorem foreign_reply_is_ignored
        (net : Network) (dict : MediaWikiDictionary)
        (r : QNetworkReply) (st : MediaWikiArticleRequest) :
  ~ In r (map fst (netReplies st)) ->
  requestFinished net dict r st = st.
Proof.
  intros H. unfold requestFinished.
  destruct (isFinished st); [reflexivity|].
  apply markFinished_none in H. now rewrite H.
Qed.

Lemma foreign_reply_is_ignored_witness :
  ~ In 7%nat (map fst (netReplies (withNetReplies sampleReplies emptyRequest)))
  /\ requestFinished sampleNet sampleDict 7%nat
                     (withNetReplies sampleReplies emptyRequest)
     = withNetReplies sampleReplies emptyRequest.
Proof.
  assert (H : ~ In 7%nat
                (map fst (netReplies (withNetReplies sampleReplies emptyRequest)))).
  { simpl. intuition discriminate. }
  split; [exact H|].
  exact (foreign_reply_is_ignored sampleNet sampleDict 7%nat _ H).
Defined.

(** ** The request: the front of the queue and completion *)

Lemma drain_front (net : Network) (dict : MediaWikiDictionary) :
  forall (replies : list (QNetworkReply * bool))
         (st : MediaWikiArticleRequest) (updated : bool),
    match netReplies (fst (drain net dict replies st updated)) with
    | [] => True
    | (_, done) :: _ => done = false
    end.
Proof.
  induction replies as [|[r done] rest IH]; intros st updated.
  - exact I.
  - destruct done.
    + cbn [drain]. destruct (processReply net dict r st) as [st' u]. apply IH.
    + reflexivity.
Qed.

Lemma markFinished_entries (r : QNetworkReply) :
  forall replies replies' : list (QNetworkReply * bool),
    markFinished r replies = Some replies' ->
    NoDup (map fst replies) ->
    forall (h : QNetworkReply) (b : bool),
      In (h, b) replies' ->
      (h = r /\ b = true) \/ (h <> r /\ In (h, b) replies).
Proof.
  induction replies as [|[r' done] rest IH]; intros replies' H Hnd h b Hin;
    [discriminate|].
  cbn [markFinished] in H. simpl in Hnd. inversion Hnd as [|? ? Hnot Hnd']; subst.
  destruct (r' =? r)%nat eqn:E.
  - apply Nat.eqb_eq in E. subst r'. injection H as <-.
    destruct Hin as [Hin|Hin].
    + injection Hin as <- <-. now left.
    + right. split; [|now right].
      intros ->. apply Hnot. apply in_map_iff. exists (r, b). auto.
  - apply Nat.eqb_neq in E.
    destruct (markFinished r rest) as [rest'|] eqn:Hm; [|discriminate].
    injection H as <-. destruct Hin as [Hin|Hin].
    + injection Hin as <- <-. right. split; [exact E | now left].
    + destruct (IH rest' eq_refl Hnd' h b Hin) as [Hl|[Hne Hr]]; [now left|].
      right. split; [exact Hne | now right].
Qed.

Lemma In_skipn_of {A : Type} (x : A) (j : nat) (l : list A) :
  In x (skipn j l) -> In x l.
Proof.
  intros H. rewrite <- (firstn_skipn j l). apply in_or_app. now right.
Qed.

Lemma NoDup_skipn_of {A : Type} (j : nat) (l : list A) :
  NoDup l -> NoDup (skipn j l).
Proof.
  intros H. rewrite <- (firstn_skipn j l) in H.
  now apply NoDup_app_remove_l in H.
Qed.

(** What a completion event does to the queue of an unfinished request. *)
Lemma requestFinished_cases (net : Network) (dict : MediaWikiDictionary)
      (r : QNetworkReply) (st : MediaWikiArticleRequest) :
  isFinished st = false ->
  (markFinished r (netReplies st) = None
   /\ requestFinished net dict r st = st)
  \/ exists (replies : list (QNetworkReply * bool)) (j : nat),
      markFinished r (netReplies st) = Some replies
      /\ netReplies (requestFinished net dict r st) = skipn j replies
      /\ ((skipn j replies = []
           /\ isFinished (requestFinished net dict r st) = true)
          \/ (exists h rest, skipn j replies = (h, false) :: rest
              /\ isFinished (requestFinished net dict r st) = false)).
Proof.
  intros Hlive. unfold requestFinished. rewrite Hlive.
  destruct (markFinished r (netReplies st)) as [replies|] eqn:Hm; [|now left].
  right. exists replies.
  destruct (drain_spec net dict replies st false) as (j & _ & Hq & _ & Hf & _).
  pose proof (drain_front net dict replies st false) as Hfront.
  exists j. split; [reflexivity|].
  destruct (drain net dict replies st false) as [st' updated].
  simpl in Hq, Hf, Hfront. unfold isFinished in *. rewrite Hlive in Hf.
  destruct (netReplies st') as [|[h b] rest] eqn:Hn.
  - unfold finish. rewrite Hf. simpl. rewrite Hn. split; [exact Hq|].
    left. split; [now rewrite <- Hq | reflexivity].
  - subst b.
    assert (Hkeep : netReplies (if updated then update st' else st')
                    = netReplies st'
                    /\ isFinishedFlag (if updated then update st' else st')
                       = false).
    { destruct updated; [|auto]. unfold update. rewrite Hf. simpl. auto. }
    destruct Hkeep as [Hk1 Hk2]. rewrite Hk1, Hk2, Hn. split; [exact Hq|].
    right. exists h, rest. split; [now rewrite <- Hq | reflexivity].
Qed.

(** Between events: the front of the queue of an unfinished request is
    an unfinished reply, every reply in the queue that had a completion
    event is marked, and only [cancel] finishes a request with a
    non-empty queue. *)
Lemma run_front_invariant (net : Network) (dict : MediaWikiDictionary)
      (st0 : MediaWikiArticleRequest) :
  isFinished st0 = false ->
  netReplies st0 <> [] ->
  marked (fun _ => False) (netReplies st0) ->
  NoDup (map fst (netReplies st0)) ->
  forall evs : list Event,
    NoDup (map fst (netReplies (run net dict evs st0)))
    /\ (isFinished (run net dict evs st0) = true
        \/ exists h rest, netReplies (run net dict evs st0) = (h, false) :: rest)
    /\ (isFinished (run net dict evs st0) = false ->
        forall h b, In (h, b) (netReplies (run net dict evs st0)) ->
                    completedBy evs h -> b = true)
    /\ (isFinished (run net dict evs st0) = true ->
        In Cancel evs \/ netReplies (run net dict evs st0) = []).
Proof.
  intros Hlive Hne Hunmarked Hnd evs.
  induction evs as [|ev evs IH] using rev_ind.
  - simpl. split; [exact Hnd|]. split; [|split].
    + right. destruct (netReplies st0) as [|[h b] rest] eqn:E; [congruence|].
      exists h, rest. f_equal. f_equal.
      unfold marked in Hunmarked. inversion Hunmarked as [|? ? Hb _]; subst.
      simpl in Hb. destruct b; [exfalso; now apply Hb | reflexivity].
    + intros _ h b _ [].
    + congruence.
  - destruct IH as (Hnd' & Hfront & Hmarks & Hfin).
    rewrite run_app. simpl run.
    set (st := run net dict evs st0) in *.
    assert (Hcompl : forall h, completedBy (evs ++ [ev]) h ->
                               completedBy evs h \/ ev = ReplyFinished h).
    { unfold completedBy. intros h Hh.
      apply in_app_or in Hh as [Hh|[Hh|[]]]; auto. }
    destruct (isFinished st) eqn:Hst.
    { rewrite step_finished by exact Hst. rewrite Hst.
      split; [exact Hnd'|]. split; [now left|]. split; [discriminate|].
      intros _. destruct (Hfin eq_refl) as [Hc|Hq]; [|now right].
      left. apply in_or_app. now left. }
    destruct ev as [r|]; cbn [step].
    + destruct (requestFinished_cases net dict r st Hst)
        as [[Hnone Hid]|(replies & j & Hm & Hq & Hcase)].
      * rewrite Hid, Hst. split; [exact Hnd'|].
        split; [exact Hfront|]. split; [|discriminate].
        intros _ h b Hin Hh.
        destruct (Hcompl h Hh) as [Hold|Hnew];
          [now apply (Hmarks eq_refl h b)|].
        injection Hnew as ->. exfalso.
        apply markFinished_none in Hnone. apply Hnone.
        apply in_map_iff. exists (h, b). auto.
      * destruct (markFinished_spec (fun _ => True) r _ _ Hm) as [Hfst _].
        split; [|split; [|split]].
        -- rewrite Hq, <- skipn_map, Hfst. now apply NoDup_skipn_of.
        -- destruct Hcase as [[_ Hf]|(h & rest & Hh & _)]; [now left|].
           right. exists h, rest. now rewrite Hq.
        -- intros _ h b Hin Hh. rewrite Hq in Hin. apply In_skipn_of in Hin.
           destruct (markFinished_entries r _ _ Hm Hnd' h b Hin)
             as [[_ Hb]|[Hdiff Hold]]; [exact Hb|].
           destruct (Hcompl h Hh) as [Hc|Hnew];
             [now apply (Hmarks eq_refl h b)|].
           injection Hnew as ->. congruence.
        -- intros Hf. right. rewrite Hq.
           destruct Hcase as [[He _]|(h & rest & _ & Hf')];
             [exact He | congruence].
    + unfold cancel. destruct (finish_contents st) as [Hn _]. rewrite Hn.
      assert (Hf : isFinished (finish st) = true).
      { unfold isFinished, finish in *. rewrite Hst. reflexivity. }
      rewrite Hf. split; [exact Hnd'|]. split; [now left|].
      split; [discriminate|]. intros _. left. apply in_or_app. right. now left.
Qed.

Lemma newArticleRequest_state (str : wstring) (alts : list wstring)
      (url : QString) (mgr : QNetworkAccessManager) :
  let st0 := fst (newArticleRequest str alts url mgr) in
  isFinished st0 = false
  /\ netReplies st0 <> []
  /\ NoDup (map fst (netReplies st0))
  /\ finishedSignals st0 = 0%nat
  /\ contents st0 = contents emptyRequest.
Proof.
  rewrite newArticleRequest_spec. cbn [fst netReplies withNetReplies].
  split; [reflexivity|]. split; [discriminate|]. split; [|split; reflexivity].
  rewrite map_map. cbn [fst]. rewrite map_id. apply seq_NoDup.
Qed.

Lemma skipn_nil_all {A : Type} (k : nat) (l : list A) :
  skipn k l = [] -> firstn k l = l.
Proof.
  intros H. rewrite <- (firstn_skipn k l) at 2. rewrite H. now rewrite app_nil_r.
Qed.

(** X6.  A request whose replies have all completed, in whatever order,
    is finished and has emitted the completion signal exactly once.  If
    [cancel] was not called, its queue is empty and what it holds (page
    ids, buffer, data flag, error string) is what processing every
    submitted reply in submission order gives. *)
Theorem request_finishes_when_all_replies_completed
        (net : Network) (dict : MediaWikiDictionary)
        (str : wstring) (alts : list wstring) (url : QString)
        (mgr : QNetworkAccessManager) (evs : list Event) :
  let st0 := fst (newArticleRequest str alts url mgr) in
  let submitted := map fst (netReplies st0) in
  let st := run net dict evs st0 in
  Forall (completedBy evs) submitted ->
  isFinished st = true
  /\ finishedSignals st = 1%nat
  /\ (~ In Cancel evs ->
      netReplies st = []
      /\ contents st = contents (processInOrder net dict submitted st0)).
Proof.
  intros st0 submitted st Hall.
  destruct (newArticleRequest_state str alts url mgr)
    as (Hlive & Hne & Hnd & Hsig & _). fold st0 in Hlive, Hne, Hnd, Hsig.
  pose proof (new_request_unmarked str alts url mgr) as Hun. fold st0 in Hun.
  destruct (run_front_invariant net dict st0 Hlive Hne Hun Hnd evs)
    as (_ & Hfront & Hmarks & Hfin). fold st in Hfront, Hmarks, Hfin.
  destruct (run_drains_prefix net dict st0 Hun evs) as (k & Hq & _ & Hc & _).
  fold st in Hq, Hc. fold submitted in Hq, Hc.
  assert (Hdone : isFinished st = true).
  { destruct Hfront as [Hf|(h & rest & Hh)]; [exact Hf|].
    destruct (isFinished st) eqn:Hf; [reflexivity|].
    assert (Hin : In h submitted).
    { apply (In_skipn_of h k). rewrite <- Hq, Hh. now left. }
    rewrite Forall_forall in Hall.
    assert (false = true); [|discriminate].
    apply (Hmarks eq_refl h false); [rewrite Hh; now left | now apply Hall]. }
  split; [exact Hdone|]. split.
  - unfold st. rewrite run_signal_count.
    + fold st. unfold isFinished in Hdone. now rewrite Hdone.
    + fold st0. unfold isFinished in Hlive. now rewrite Hlive.
  - intros Hnc. destruct (Hfin Hdone) as [Hc'|Hempty]; [contradiction|].
    split; [exact Hempty|].
    rewrite Hempty in Hq. simpl in Hq. symmetry in Hq.
    apply skipn_nil_all in Hq. now rewrite Hq in Hc.
Qed.

Lemma request_finishes_when_all_replies_completed_witness :
  let evs := [ReplyFinished 1%nat; ReplyFinished 0%nat] in
  let st := run sampleNet sampleDict evs
                (fst (newArticleRequest "a" ["b" : wstring] "https://en.wiktionary.org" [])) in
  isFinished st = true /\ finishedSignals st = 1%nat /\ netReplies st = [].
Proof.
  assert (Hall : Forall (completedBy [ReplyFinished 1%nat; ReplyFinished 0%nat])
                        (map fst (netReplies
                           (fst (newArticleRequest "a" ["b" : wstring]
                                   "https://en.wiktionary.org" []))))).
  { rewrite newArticleRequest_spec. simpl.
    constructor; [right; now left|]. constructor; [now left | constructor]. }
  destruct (request_finishes_when_all_replies_completed
              sampleNet sampleDict "a" ["b" : wstring] "https://en.wiktionary.org"
              [] [ReplyFinished 1%nat; ReplyFinished 0%nat] Hall)
    as (H1 & H2 & H3).
  split; [exact H1|]. split; [exact H2|].
  apply H3. simpl. intuition discriminate.
Defined.

(** X7.  Between events a request is in one of two states: finished,
    with the completion signal emitted once; or unfinished, with no
    completion signal yet and a queue whose front is a reply that has
    not completed.  A request never waits on a reply it could
    process. *)
Theorem request_is_finished_or_waits_for_its_front
        (net : Network) (dict : MediaWikiDictionary)
        (str : wstring) (alts : list wstring) (url : QString)
        (mgr : QNetworkAccessManager) (evs : list Event) :
  let st := run net dict evs (fst (newArticleRequest str alts url mgr)) in
  (isFinished st = true /\ finishedSignals st = 1%nat)
  \/ (isFinished st = false /\ finishedSignals st = 0%nat
      /\ exists h rest, netReplies st = (h, false) :: rest
                        /\ ~ completedBy evs h).
Proof.
  intros st.
  destruct (newArticleRequest_state str alts url mgr)
    as (Hlive & Hne & Hnd & Hsig & _).
  pose proof (new_request_unmarked str alts url mgr) as Hun.
  destruct (run_front_invariant net dict _ Hlive Hne Hun Hnd evs)
    as (_ & Hfront & Hmarks & _). fold st in Hfront, Hmarks.
  assert (Hcount : finishedSignals st
                   = (if isFinishedFlag st then 1 else 0)%nat).
  { unfold st. apply run_signal_count.
    unfold isFinished in Hlive. now rewrite Hlive. }
  unfold isFinished in *.
  destruct (isFinishedFlag st) eqn:Hf; [now left|]. right.
  split; [reflexivity|]. split; [exact Hcount|].
  destruct Hfront as [Hf'|(h & rest & Hh)]; [discriminate|].
  exists h, rest. split; [exact Hh|].
  intros Hc. assert (false = true); [|discriminate].
  apply (Hmarks eq_refl h false); [rewrite Hh; now left | exact Hc].
Qed.

(** ** The request: the buffer, the signals and the error string *)

(** The two outcomes of processing one reply: nothing is appended, or
    one wrapped fragment is. *)
Lemma processReply_cases (net : Network) (dict : MediaWikiDictionary)
      (r : QNetworkReply) (st : MediaWikiArticleRequest) :
  (snd (processReply net dict r st) = false
   /\ appendedPages (fst (processReply net dict r st)) = appendedPages st
   /\ data (fst (processReply net dict r st)) = data st
   /\ hasAnyData (fst (processReply net dict r st)) = hasAnyData st)
  \/ (snd (processReply net dict r st) = true
      /\ exists (pageId : Z) (bytes : QByteArray),
          wrappedFragment dict bytes
          /\ appendedPages (fst (processReply net dict r st))
             = appendedPages st ++ [(pageId, bytes)]
          /\ data (fst (processReply net dict r st)) = data st ++ bytes
          /\ hasAnyData (fst (processReply net dict r st)) = true).
Proof.
  unfold processReply.
  destruct (net r) as [str|errorStr errorLine errorColumn|dd]; simpl; auto.
  destruct (parseNodeOf dd) as [n|]; simpl; auto.
  destruct (QString_eqb _ _); simpl; auto.
  destruct (insert _ _) as [[|] ids]; simpl; auto.
  destruct (namedItem _ _) as [textNode|]; simpl; auto.
  right. split; [reflexivity|].
  exists (toLongLong (attribute "pageid" (Some n))),
         (articleBody dict (Some n) textNode).
  split; [|auto].
  unfold wrappedFragment, articleBody, wrapperOpen. eexists. reflexivity.
Qed.

Lemma processReply_error (net : Network) (dict : MediaWikiDictionary)
      (r : QNetworkReply) (st : MediaWikiArticleRequest) :
  errorString (fst (processReply net dict r st))
  = match failureMessage (net r) with
    | Some m => m
    | None => errorString st
    end.
Proof.
  unfold processReply, failureMessage.
  destruct (net r) as [str|errorStr errorLine errorColumn|dd]; simpl; auto.
  destruct (parseNodeOf dd) as [n|]; simpl; auto.
  destruct (QString_eqb _ _); simpl; auto.
  destruct (insert _ _) as [[|] ids]; simpl; auto.
  destruct (namedItem _ _) as [textNode|]; simpl; auto.
Qed.

Lemma processInOrder_error (net : Network) (dict : MediaWikiDictionary)
      (rs : list QNetworkReply) :
  forall st : MediaWikiArticleRequest,
    errorString (processInOrder net dict rs st)
    = lastFailure net rs (errorString st).
Proof.
  induction rs as [|r rs IH]; intros st; [reflexivity|].
  simpl. rewrite IH, processReply_error. reflexivity.
Qed.

Lemma lastFailure_none (net : Network) (rs : list QNetworkReply) :
  forall e : QString,
    Forall (fun r => failureMessage (net r) = None) rs ->
    lastFailure net rs e = e.
Proof.
  induction rs as [|r rs IH]; intros e H; [reflexivity|].
  inversion H as [|? ? Hr Hrs]; subst. simpl. rewrite Hr. now apply IH.
Qed.

Lemma lastFailure_last (net : Network) (rs : list QNetworkReply)
      (r : QNetworkReply) (e : QString) :
  lastFailure net (rs ++ [r]) e
  = match failureMessage (net r) with
    | Some m => m
    | None => lastFailure net rs e
    end.
Proof. unfold lastFailure. rewrite fold_left_app. reflexivity. Qed.

(** What the drain loop appends, and when it sets [updated]. *)
Lemma drain_updated (net : Network) (dict : MediaWikiDictionary) :
  forall (replies : list (QNetworkReply * bool))
         (st : MediaWikiArticleRequest) (updated : bool),
  exists more : list (Z * QByteArray),
    appendedPages (fst (drain net dict replies st updated))
    = appendedPages st ++ more
    /\ snd (drain net dict replies st updated)
       = match more with [] => updated | _ :: _ => true end
    /\ updateSignals (fst (drain net dict replies st updated))
       = updateSignals st.
Proof.
  induction replies as [|[r done] rest IH]; intros st updated.
  - exists []. simpl. now rewrite app_nil_r.
  - destruct done.
    + cbn [drain].
      pose proof (processReply_cases net dict r st) as Hcases.
      pose proof (processReply_frame net dict r st) as (_ & _ & _ & Hup).
      destruct (processReply net dict r st) as [st' u].
      simpl in Hcases, Hup.
      destruct (IH st' (u || updated)) as (more & Happ & Hsnd & Hsig).
      destruct Hcases as [(-> & Hp & _)|(-> & pageId & bytes & _ & Hp & _)].
      * exists more. rewrite Happ, Hp, Hsnd, Hsig. auto.
      * exists ((pageId, bytes) :: more).
        rewrite Happ, Hp, Hsnd, Hsig, <- app_assoc. simpl.
        destruct more; auto.
    + exists []. simpl. now rewrite app_nil_r.
Qed.

(** X8.  One event emits the update signal at most once, and exactly
    when it appended data to the buffer and left the request
    unfinished: an event that appends nothing is silent, and the event
    that finishes the request emits the completion signal only. *)
Theorem update_signal_reports_new_data
        (net : Network) (dict : MediaWikiDictionary)
        (st : MediaWikiArticleRequest) (ev : Event) :
  let st' := step net dict st ev in
  updateSignals st'
  = (updateSignals st
     + (if negb (isFinished st')
           && (length (appendedPages st) <? length (appendedPages st'))%nat
        then 1 else 0))%nat
  /\ (updateSignals st' <> updateSignals st ->
      finishedSignals st' = finishedSignals st).
Proof.
  cbv zeta.
  assert (Hsame : updateSignals st
                  = (updateSignals st
                     + (if negb (isFinished st)
                           && (length (appendedPages st)
                               <? length (appendedPages st))%nat
                        then 1 else 0))%nat).
  { rewrite Nat.ltb_irrefl, andb_false_r. lia. }
  destruct (isFinished st) eqn:Hst.
  { rewrite step_finished by exact Hst. split; [|congruence].
    rewrite Hst. simpl. lia. }
  destruct ev as [r|]; cbn [step].
  - unfold requestFinished. rewrite Hst.
    destruct (markFinished r (netReplies st)) as [replies|];
      [|split; [rewrite Hst; exact Hsame | congruence]].
    destruct (drain_updated net dict replies st false)
      as (more & Happ & Hsnd & Hsig).
    destruct (drain_spec net dict replies st false)
      as (j & _ & _ & _ & Hflag & Hfs).
    destruct (drain net dict replies st false) as [st' updated].
    simpl in Happ, Hsnd, Hsig, Hflag, Hfs.
    unfold isFinished in *. rewrite Hst in Hflag.
    destruct (netReplies st').
    + unfold finish. rewrite Hflag. simpl. split; [|congruence]. lia.
    + destruct updated.
      * unfold update. rewrite Hflag. simpl. rewrite Happ, Hsig, Hfs.
        split; [|reflexivity].
        destruct more as [|page more]; [discriminate|].
        rewrite length_app. simpl.
        replace (length (appendedPages st)
                 <? length (appendedPages st) + S (length more))%nat
          with true; [simpl; lia|].
        symmetry. apply Nat.ltb_lt. lia.
      * rewrite Hflag, Happ, Hsig. split; [|congruence].
        destruct more as [|page more]; [|discriminate].
        rewrite app_nil_r, Nat.ltb_irrefl. simpl. lia.
  - unfold cancel, finish, isFinished in *. rewrite Hst. simpl.
    split; [lia | congruence].
Qed.

(** X9.  The buffer only grows.  After any further events, from any
    state, the buffer is the old buffer followed by the fragments
    appended since; the data flag stays set once it is set, and it is
    set when a fragment was appended. *)
Theorem buffer_is_append_only
        (net : Network) (dict : MediaWikiDictionary)
        (evs : list Event) (st : MediaWikiArticleRequest) :
  exists more : list (Z * QByteArray),
    appendedPages (run net dict evs st) = appendedPages st ++ more
    /\ data (run net dict evs st) = data st ++ concat (map snd more)
    /\ (hasAnyData st = true -> hasAnyData (run net dict evs st) = true)
    /\ (more <> [] -> hasAnyData (run net dict evs st) = true).
Proof.
  apply (run_preserves net dict
           (fun s => exists more : list (Z * QByteArray),
                appendedPages s = appendedPages st ++ more
                /\ data s = data st ++ concat (map snd more)
                /\ (hasAnyData st = true -> hasAnyData s = true)
                /\ (more <> [] -> hasAnyData s = true))).
  - unfold contents. intros st1 st2 H (more & H1 & H2 & H3 & H4).
    injection H as _ Hd Hh _ Ha. exists more. rewrite <- Hd, <- Hh, <- Ha. auto.
  - intros r s (more & H1 & H2 & H3 & H4).
    destruct (processReply_cases net dict r s)
      as [(_ & Hp & Hd & Hh)|(_ & pageId & bytes & _ & Hp & Hd & Hh)].
    + exists more. rewrite Hp, Hd, Hh. auto.
    + exists (more ++ [(pageId, bytes)]).
      rewrite Hp, Hd, Hh, H1, H2, map_app, concat_app, <- !app_assoc.
      simpl. rewrite app_nil_r. auto.
  - exists []. simpl. rewrite !app_nil_r.
    split; [reflexivity|]. split; [reflexivity|]. split; [auto | congruence].
Qed.

(** X10.  Every fragment in the buffer of a request is a complete
    container: the opening tag of the dictionary, a body, and the
    closing tag.  The data flag is set exactly when the buffer is not
    empty. *)
Theorem buffer_holds_wrapped_fragments
        (net : Network) (dict : MediaWikiDictionary)
        (str : wstring) (alts : list wstring) (url : QString)
        (mgr : QNetworkAccessManager) (evs : list Event) :
  let st := run net dict evs (fst (newArticleRequest str alts url mgr)) in
  Forall (wrappedFragment dict) (map snd (appendedPages st))
  /\ data st = concat (map snd (appendedPages st))
  /\ (hasAnyData st = true <-> data st <> []).
Proof.
  intros st.
  assert (H : Forall (wrappedFragment dict) (map snd (appendedPages st))
              /\ data st = concat (map snd (appendedPages st))
              /\ (hasAnyData st = true <-> appendedPages st <> [])).
  { apply (run_preserves net dict
             (fun s => Forall (wrappedFragment dict) (map snd (appendedPages s))
                       /\ data s = concat (map snd (appendedPages s))
                       /\ (hasAnyData s = true <-> appendedPages s <> []))).
    - unfold contents. intros st1 st2 H. injection H as _ Hd Hh _ Ha.
      rewrite <- Hd, <- Hh, <- Ha. auto.
    - intros r s (H1 & H2 & H3).
      destruct (processReply_cases net dict r s)
        as [(_ & Hp & Hd & Hh)|(_ & pageId & bytes & Hw & Hp & Hd & Hh)].
      + rewrite Hp, Hd, Hh. auto.
      + rewrite Hp, Hd, Hh, map_app, concat_app. simpl.
        rewrite app_nil_r, H2. split; [|split; [reflexivity|]].
        * apply Forall_app. split; [exact H1|]. constructor; [exact Hw|constructor].
        * split; [|reflexivity]. intros _ Hnil.
          apply app_eq_nil in Hnil as [_ Hnil]. discriminate.
    - rewrite newArticleRequest_spec. simpl. split; [constructor|].
      split; [reflexivity|]. split; [discriminate | congruence]. }
  destruct H as (Hw & Hd & Hflag). split; [exact Hw|]. split; [exact Hd|].
  rewrite Hflag, Hd. destruct (appendedPages st) as [|[pageId bytes] rest].
  - simpl. tauto.
  - split; [|discriminate]. intros _. simpl.
    inversion Hw as [|? ? (body & ->) _]; subst.
    unfold wrapperOpen. destruct (isToLanguageRTL dict); discriminate.
Qed.

(** X11.  The error string of a request is the message of the last
    failed reply among those drained so far, last in submission order
    and not in order of arrival; it is empty when none of them failed.
    A reply that succeeds never clears the message of an earlier
    failure. *)
Theorem error_string_is_last_failure_in_submission_order
        (net : Network) (dict : MediaWikiDictionary)
        (str : wstring) (alts : list wstring) (url : QString)
        (mgr : QNetworkAccessManager) (evs : list Event) :
  let st0 := fst (newArticleRequest str alts url mgr) in
  let submitted := map fst (netReplies st0) in
  let st := run net dict evs st0 in
  let drained := firstn (length submitted - length (netReplies st)) submitted in
  errorString st = lastFailure net drained []
  /\ (Forall (fun r => failureMessage (net r) = None) drained ->
      errorString st = [])
  /\ (forall r m, In r drained -> failureMessage (net r) = Some m ->
                  exists r' m', In r' drained
                                /\ failureMessage (net r') = Some m'
                                /\ errorString st = m').
Proof.
  intros st0 submitted st drained.
  pose proof (new_request_unmarked str alts url mgr) as Hun. fold st0 in Hun.
  destruct (run_drains_prefix net dict st0 Hun evs) as (k & Hq & _ & Hc & _).
  fold st in Hq, Hc. fold submitted in Hq, Hc.
  assert (Hk : drained = firstn k submitted).
  { unfold drained. rewrite <- (length_map fst (netReplies st)), Hq, length_skipn.
    destruct (Nat.le_gt_cases k (length submitted)) as [Hle|Hgt].
    - f_equal. lia.
    - replace (length submitted - (length submitted - k))%nat
        with (length submitted) by lia.
      rewrite !firstn_all2; auto; lia. }
  assert (Herr : errorString st = lastFailure net drained []).
  { unfold contents in Hc. injection Hc as _ _ _ He _.
    rewrite He, processInOrder_error, Hk. f_equal.
    unfold st0. now rewrite newArticleRequest_spec. }
  split; [exact Herr|]. split.
  - intros Hall. rewrite Herr. now apply lastFailure_none.
  - rewrite Herr. clear Herr Hk. induction drained as [|r' rs IH] using rev_ind.
    + intros r m [].
    + intros r m Hin Hm. rewrite lastFailure_last.
      destruct (failureMessage (net r')) as [m'|] eqn:Hr'.
      * exists r', m'. split; [apply in_or_app; right; now left | auto].
      * apply in_app_or in Hin as [Hin|[<-|[]]]; [|congruence].
        destruct (IH r m Hin Hm) as (r2 & m2 & Hin2 & Hm2 & He2).
        exists r2, m2. split; [apply in_or_app; now left | auto].
Qed.

(** ** The queries *)




(** ** MediaWikiWordSearchRequest *)

Lemma finishSearch_spec (st : WordSearchState) :
  searchFinishedFlag (searchRequest (finishSearch st)) = true
  /\ netReply (searchRequest (finishSearch st)) = netReply (searchRequest st)
  /\ isCancelling (searchRequest (finishSearch st))
     = isCancelling (searchRequest st)
  /\ matches (searchRequest (finishSearch st)) = matches (searchRequest st)
  /\ searchErrorString (finishSearch st) = searchErrorString st
  /\ searchFinishedSignals (finishSearch st)
     = (if searchFinishedFlag (searchRequest st)
        then searchFinishedSignals st
        else S (searchFinishedSignals st)).
Proof.
  unfold finishSearch.
  destruct (searchFinishedFlag (searchRequest st)) eqn:E; simpl; auto 10.
Qed.

(** A reset reply handle is only left behind by [cancel], which also
    sets [isCancelling]; under this invariant [downloadFinished] returns
    before it reads the handle. *)
Lemma searchStep_keeps_handle (net : Network) (st : WordSearchState)
      (ev : SearchEvent) :
  (netReply (searchRequest st) = None -> isCancelling (searchRequest st) = true) ->
  exists st' : WordSearchState,
    searchStep net st ev = Some st'
    /\ (netReply (searchRequest st') = None ->
        isCancelling (searchRequest st') = true).
Proof.
  intros Hinv. destruct ev; cbn [searchStep].
  - unfold downloadFinished.
    destruct (isCancelling (searchRequest st)) eqn:Hc; simpl.
    { exists st. split; [reflexivity|]. intros _. exact Hc. }
    destruct (searchFinishedFlag (searchRequest st)) eqn:Hf.
    { exists st. split; [reflexivity|]. intros H. rewrite Hc. now apply Hinv. }
    destruct (netReply (searchRequest st)) as [r|] eqn:Hr;
      [|specialize (Hinv eq_refl); congruence].
    assert (Hkeep : forall s : WordSearchState,
               netReply (searchRequest s) = Some r ->
               exists st' : WordSearchState,
                 Some (finishSearch s) = Some st'
                 /\ (netReply (searchRequest st') = None ->
                     isCancelling (searchRequest st') = true)).
    { intros s Hs. exists (finishSearch s). split; [reflexivity|].
      destruct (finishSearch_spec s) as (_ & Hn & _). rewrite Hn, Hs.
      discriminate. }
    destruct (net r) as [msg|errorStr errorLine errorColumn|dd].
    + apply Hkeep. exact Hr.
    + apply Hkeep. exact Hr.
    + destruct (allpagesOf dd); apply Hkeep; exact Hr.
  - exists (cancelSearch st). split; [reflexivity|]. intros _.
    unfold cancelSearch.
    destruct (finishSearch_spec
                {| searchRequest :=
                     {| netReply := None; isCancelling := true;
                        matches := matches (searchRequest st);
                        searchFinishedFlag :=
                          searchFinishedFlag (searchRequest st) |};
                   searchErrorString := searchErrorString st;
                   searchFinishedSignals := searchFinishedSignals st |})
      as (_ & _ & Hc & _).
    exact Hc.
Qed.

(** Every sequence of events returns; the handle is reset exactly when
    [cancel] was called. *)
Lemma runSearch_returns (net : Network) :
  forall (evs : list SearchEvent) (st0 : WordSearchState),
    (netReply (searchRequest st0) = None ->
     isCancelling (searchRequest st0) = true) ->
    exists st : WordSearchState,
      runSearch net evs st0 = Some st
      /\ (netReply (searchRequest st) = None
          <-> netReply (searchRequest st0) = None \/ In CancelSearch evs).
Proof.
  induction evs as [|ev evs IH]; intros st0 Hinv.
  - exists st0. split; [reflexivity|]. simpl. tauto.
  - destruct (searchStep_keeps_handle net st0 ev Hinv) as (st1 & Hstep & Hinv1).
    destruct (IH st1 Hinv1) as (st & Hrun & Hiff).
    exists st. cbn [runSearch]. rewrite Hstep. split; [exact Hrun|].
    rewrite Hiff. clear Hiff Hrun IH.
    assert (Hn : netReply (searchRequest st1) = None
                 <-> netReply (searchRequest st0) = None
                     \/ ev = CancelSearch).
    { destruct ev; cbn [searchStep] in Hstep.
      - unfold downloadFinished in Hstep.
        assert (Hsame : netReply (searchRequest st1)
                        = netReply (searchRequest st0)).
        { destruct (isCancelling (searchRequest st0)
                    || searchFinishedFlag (searchRequest st0));
            [injection Hstep as <-; reflexivity|].
          destruct (netReply (searchRequest st0)) as [r|] eqn:Hr;
            [|discriminate].
          assert (Hf : forall s, netReply (searchRequest (finishSearch s))
                                 = netReply (searchRequest s)).
          { intros s. apply finishSearch_spec. }
          destruct (net r) as [msg|errorStr errorLine errorColumn|dd];
            [| |destruct (allpagesOf dd)];
            injection Hstep as <-; rewrite Hf; exact Hr. }
        rewrite Hsame. split; [tauto|]. intros [H|H]; [exact H|discriminate].
      - injection Hstep as <-. split; [tauto|]. intros _.
        unfold cancelSearch.
        etransitivity; [apply finishSearch_spec | reflexivity]. }
    rewrite Hn. simpl. intuition congruence.
Qed.

Lemma newWordSearchState_handle (str : wstring) (url : QString)
      (mgr : QNetworkAccessManager) :
  netReply (searchRequest (fst (newWordSearchState str url mgr)))
  = Some (length mgr).
Proof. reflexivity. Qed.

(** X13.  A word search never reads its reply handle after [cancel] has
    reset it: whatever the order of calls of [cancel] and deliveries of
    the reply's signal, every call returns, and the handle is reset
    exactly when [cancel] was called. *)
Theorem search_never_reads_a_reset_reply
        (net : Network) (str : wstring) (url : QString)
        (mgr : QNetworkAccessManager) (evs : list SearchEvent) :
  exists st : WordSearchState,
    runSearch net evs (fst (newWordSearchState str url mgr)) = Some st
    /\ (netReply (searchRequest st) = None <-> In CancelSearch evs).
Proof.
  destruct (runSearch_returns net evs (fst (newWordSearchState str url mgr)))
    as (st & Hrun & Hiff).
  { rewrite newWordSearchState_handle. discriminate. }
  exists st. split; [exact Hrun|]. rewrite Hiff, newWordSearchState_handle.
  split; [intros [H|H]; [discriminate | exact H] | auto].
Qed.

(** A finished search keeps its results. *)
Lemma searchStep_finished (net : Network) (st st' : WordSearchState)
      (ev : SearchEvent) :
  searchFinishedFlag (searchRequest st) = true ->
  searchStep net st ev = Some st' ->
  searchFinishedFlag (searchRequest st') = true
  /\ matches (searchRequest st') = matches (searchRequest st)
  /\ searchErrorString st' = searchErrorString st
  /\ searchFinishedSignals st' = searchFinishedSignals st.
Proof.
  intros Hf Hstep. destruct ev; cbn [searchStep] in Hstep.
  - unfold downloadFinished in Hstep. rewrite Hf, orb_true_r in Hstep.
    injection Hstep as <-. auto.
  - injection Hstep as <-. unfold cancelSearch, finishSearch. simpl.
    rewrite Hf. simpl. auto.
Qed.

Lemma runSearch_finished (net : Network) (evs : list SearchEvent) :
  forall st st' : WordSearchState,
    searchFinishedFlag (searchRequest st) = true ->
    runSearch net evs st = Some st' ->
    searchFinishedFlag (searchRequest st') = true
    /\ matches (searchRequest st') = matches (searchRequest st)
    /\ searchErrorString st' = searchErrorString st
    /\ searchFinishedSignals st' = searchFinishedSignals st.
Proof.
  induction evs as [|ev evs IH]; intros st st' Hf Hrun; cbn [runSearch] in Hrun.
  - injection Hrun as <-. auto.
  - destruct (searchStep net st ev) as [st1|] eqn:Hstep; [|discriminate].
    destruct (searchStep_finished net st st1 ev Hf Hstep) as (Hf1 & Hm & He & Hs).
    destruct (IH st1 st' Hf1 Hrun) as (Hf' & Hm' & He' & Hs').
    rewrite Hm', He', Hs'. auto.
Qed.

(** X14.  The first event of a word search decides it.  Whether it is
    the reply's signal or [cancel], it finishes the search and emits the
    completion signal once; no later event changes the matches, the
    error string or the signal count.  A search cancelled first has no
    match and no error; one whose reply arrived first has the titles of
    the reply's page list, in document order, or the error of the reply
    and no match. *)
Theorem search_is_decided_by_its_first_event
        (net : Network) (str : wstring) (url : QString)
        (mgr : QNetworkAccessManager) (ev : SearchEvent)
        (evs : list SearchEvent) :
  exists st : WordSearchState,
    runSearch net (ev :: evs) (fst (newWordSearchState str url mgr)) = Some st
    /\ searchFinishedFlag (searchRequest st) = true
    /\ searchFinishedSignals st = 1%nat
    /\ matches (searchRequest st)
       = match ev with
         | CancelSearch => []
         | DownloadFinished =>
             match net (length mgr) with
             | XmlDocument dd => titlesOf (allpagesOf dd)
             | _ => []
             end
         end
    /\ searchErrorString st
       = match ev with
         | CancelSearch => []
         | DownloadFinished =>
             match failureMessage (net (length mgr)) with
             | Some m => m
             | None => []
             end
         end.
Proof.
  destruct (runSearch_returns net (ev :: evs)
                              (fst (newWordSearchState str url mgr)))
    as (st & Hrun & _).
  { rewrite newWordSearchState_handle. discriminate. }
  exists st. split; [exact Hrun|].
  cbn [runSearch] in Hrun.
  destruct (searchStep net (fst (newWordSearchState str url mgr)) ev)
    as [st1|] eqn:Hstep; [|discriminate].
  assert (H1 : searchFinishedFlag (searchRequest st1) = true
               /\ searchFinishedSignals st1 = 1%nat
               /\ matches (searchRequest st1)
                  = match ev with
                    | CancelSearch => []
                    | DownloadFinished =>
                        match net (length mgr) with
                        | XmlDocument dd => titlesOf (allpagesOf dd)
                        | _ => []
                        end
                    end
               /\ searchErrorString st1
                  = match ev with
                    | CancelSearch => []
                    | DownloadFinished =>
                        match failureMessage (net (length mgr)) with
                        | Some m => m
                        | None => []
                        end
                    end).
  { revert Hstep. unfold newWordSearchState, newWordSearchRequest, get.
    cbn [fst]. destruct ev; cbn [searchStep].
    - unfold downloadFinished. simpl.
      destruct (net (length mgr)) as [msg|errorStr errorLine errorColumn|dd];
        simpl.
      + intros H. injection H as <-. auto.
      + intros H. injection H as <-. auto.
      + unfold titlesOf. destruct (allpagesOf dd);
          intros H; injection H as <-; auto.
    - intros H. injection H as <-. auto. }
  destruct H1 as (Hf & Hs & Hm & He).
  destruct (runSearch_finished net evs st1 st Hf Hrun) as (Hf' & Hm' & He' & Hs').
  rewrite Hm', He', Hs'. auto.
Qed.

(** ** MediaWikiDictionary: the language of a URL *)

Lemma find_from_char (c : ascii) :
  forall (pre rest : QString) (i : nat),
    ~ In c pre ->
    find_from [c] (pre ++ c :: rest) i = Z.of_nat (i + length pre).
Proof.
  induction pre as [|d pre IH]; intros rest i H.
  - simpl. rewrite Ascii.eqb_refl. simpl. f_equal. lia.
  - simpl in H. cbn [app find_from startsWith].
    destruct (Ascii.eqb c d) eqn:E.
    + apply Ascii.eqb_eq in E. subst d. tauto.
    + simpl. rewrite IH by tauto. simpl. f_equal. lia.
Qed.

Lemma find_from_char_none (c : ascii) :
  forall (s : QString) (i : nat), ~ In c s -> find_from [c] s i = -1.
Proof.
  induction s as [|d s IH]; intros i H; [reflexivity|].
  simpl in H. cbn [find_from startsWith].
  destruct (Ascii.eqb c d) eqn:E.
  - apply Ascii.eqb_eq in E. subst d. tauto.
  - simpl. apply IH. tauto.
Qed.

Lemma indexOf_char (c : ascii) (pre rest : QString) :
  ~ In c pre -> indexOf [c] 0 (pre ++ [c] ++ rest) = Z.of_nat (length pre).
Proof.
  intros H. unfold indexOf. simpl. now rewrite find_from_char.
Qed.

Lemma nth_error_middle {A : Type} (pre : list A) (x : A) (rest : list A) :
  nth_error (pre ++ x :: rest) (length pre) = Some x.
Proof.
  rewrite nth_error_app2 by lia. now rewrite Nat.sub_diag.
Qed.

Section LangId.

Variable code2toInt : QString -> Z.

(** X15.  The language of a dictionary is read from the two characters
    that stand before the first dot of its URL, and only when they are
    the whole text before the dot or follow a slash that is not the
    first character.  A URL without a dot, with fewer than two
    characters before the first dot, with the slash as its first
    character, or with another character in the place of the slash has
    language 0. *)
Theorem language_comes_from_the_two_letters_before_the_first_dot
        (id name url icon : QString) :
  let langId :=
    DictionaryClass.langId
      (DictionaryClass.newMediaWikiDictionary code2toInt id name url icon) in
  (~ In "."%char url -> langId = 0)
  /\ (forall (a b : ascii) (rest : QString),
         url = [a; b] ++ "." ++ rest -> a <> "."%char -> b <> "."%char ->
         langId = code2toInt [a; b])
  /\ (forall (pre : QString) (a b : ascii) (rest : QString),
         url = pre ++ "/" ++ [a; b] ++ "." ++ rest ->
         ~ In "."%char pre -> a <> "."%char -> b <> "."%char ->
         langId = if (0 <? length pre)%nat then code2toInt [a; b] else 0)
  /\ (forall (pre : QString) (x a b : ascii) (rest : QString),
         url = pre ++ [x; a; b] ++ "." ++ rest ->
         ~ In "."%char (pre ++ [x; a; b]) -> x <> "/"%char ->
         langId = 0)
  /\ (forall pre rest : QString,
         url = pre ++ "." ++ rest -> ~ In "."%char pre ->
         (length pre < 2)%nat ->
         langId = 0).
Proof.
  cbv zeta.
  assert (Hdot : forall pre rest : QString,
             url = pre ++ "." ++ rest -> ~ In "."%char pre ->
             DictionaryClass.langId
               (DictionaryClass.newMediaWikiDictionary code2toInt id name url icon)
             = if (length pre =? 2)%nat
                  || ((3 <? length pre)%nat
                      && DictionaryClass.charAtIs "/"%char (length pre - 3) url)
               then code2toInt (mid (length pre - 2) 2 url)
               else 0).
  { intros pre rest Hurl Hno.
    unfold DictionaryClass.newMediaWikiDictionary.
    cbn [DictionaryClass.langId].
    assert (Hn : indexOf "." 0 url = Z.of_nat (length pre)).
    { rewrite Hurl. now apply (indexOf_char "."%char pre rest). }
    rewrite Hn.
    replace (Z.of_nat (length pre) =? 2) with (length pre =? 2)%nat.
    2:{ destruct (Nat.eqb_spec (length pre) 2) as [E|E]; symmetry;
          [apply Z.eqb_eq | apply Z.eqb_neq]; lia. }
    replace (Z.of_nat (length pre) >? 3) with (3 <? length pre)%nat.
    2:{ rewrite Z.gtb_ltb.
        destruct (Nat.ltb_spec 3 (length pre)) as [E|E]; symmetry;
          [apply Z.ltb_lt | apply Z.ltb_ge]; lia. }
    replace (Z.to_nat (Z.of_nat (length pre) - 3)) with (length pre - 3)%nat
      by lia.
    replace (Z.to_nat (Z.of_nat (length pre) - 2)) with (length pre - 2)%nat
      by lia.
    reflexivity. }
  split; [|split; [|split; [|split]]].
  - intros H. unfold DictionaryClass.newMediaWikiDictionary.
    cbn [DictionaryClass.langId]. unfold indexOf. simpl.
    change (find_from ["."%char] url 0 =? 2) with (find_from ["."%char] url 0 =? 2).
    rewrite (find_from_char_none "."%char url 0 H). reflexivity.
  - intros a b rest Hurl Ha Hb.
    rewrite (Hdot [a; b] rest Hurl) by (simpl; intuition congruence).
    rewrite Hurl. reflexivity.
  - intros pre a b rest Hurl Hpre Ha Hb.
    assert (Hurl' : url = (pre ++ ["/"%char; a; b]) ++ "." ++ rest).
    { rewrite Hurl, <- app_assoc. reflexivity. }
    rewrite (Hdot _ rest Hurl').
    2:{ rewrite in_app_iff. simpl. intuition (try congruence; discriminate). }
    rewrite length_app. simpl length.
    destruct pre as [|c pre]; [reflexivity|].
    simpl length.
    replace (S (length pre) + 3 =? 2)%nat with false
      by (symmetry; apply Nat.eqb_neq; lia).
    replace (3 <? S (length pre) + 3)%nat with true
      by (symmetry; apply Nat.ltb_lt; lia).
    replace (S (length pre) + 3 - 3)%nat with (length (c :: pre))
      by (simpl; lia).
    replace (S (length pre) + 3 - 2)%nat with (length ((c :: pre) ++ ["/"%char]))
      by (rewrite length_app; simpl; lia).
    assert (Hat : DictionaryClass.charAtIs "/"%char (length (c :: pre)) url
                  = true).
    { unfold DictionaryClass.charAtIs. rewrite Hurl.
      rewrite nth_error_app2, Nat.sub_diag by lia. reflexivity. }
    assert (Hmid : mid (length ((c :: pre) ++ ["/"%char])) 2 url = [a; b]).
    { unfold mid. rewrite Hurl.
      replace ((c :: pre) ++ "/" ++ [a; b] ++ "." ++ rest)
        with (((c :: pre) ++ ["/"%char]) ++ a :: b :: "." ++ rest)
        by (rewrite <- app_assoc; reflexivity).
      rewrite skipn_app, skipn_all, Nat.sub_diag. reflexivity. }
    rewrite Hat, Hmid. reflexivity.
  - intros pre x a b rest Hurl Hno Hx.
    assert (Hurl' : url = (pre ++ [x; a; b]) ++ "." ++ rest).
    { rewrite Hurl, <- app_assoc. reflexivity. }
    rewrite (Hdot _ rest Hurl' Hno).
    rewrite length_app. simpl length.
    replace (length pre + 3 =? 2)%nat with false
      by (symmetry; apply Nat.eqb_neq; lia).
    replace (length pre + 3 - 3)%nat with (length pre) by lia.
    assert (Hat : DictionaryClass.charAtIs "/"%char (length pre) url = false).
    { unfold DictionaryClass.charAtIs. rewrite Hurl.
      rewrite nth_error_app2, Nat.sub_diag by lia. simpl.
      now apply Ascii.eqb_neq. }
    rewrite Hat, andb_false_r. reflexivity.
  - intros pre rest Hurl Hno Hlen.
    rewrite (Hdot pre rest Hurl Hno).
    replace (length pre =? 2)%nat with false
      by (symmetry; apply Nat.eqb_neq; lia).
    replace (3 <? length pre)%nat with false
      by (symmetry; apply Nat.ltb_ge; lia).
    reflexivity.
Qed.

End LangId.

Lemma language_comes_from_the_two_letters_before_the_first_dot_witness :
  DictionaryClass.langId
    (DictionaryClass.newMediaWikiDictionary
       sampleCode2toInt "c" "French Wiktionary" "https://fr.wiktionary.org/w" [])
  = sampleCode2toInt "fr"
  /\ DictionaryClass.langId
       (DictionaryClass.newMediaWikiDictionary
          sampleCode2toInt "d" "Commons" "https://commons.wikimedia.org/w" [])
     = 0.
Proof.
  pose proof (language_comes_from_the_two_letters_before_the_first_dot
                sampleCode2toInt "c" "French Wiktionary"
                "https://fr.wiktionary.org/w" []) as (_ & _ & H3 & _).
  pose proof (language_comes_from_the_two_letters_before_the_first_dot
                sampleCode2toInt "d" "Commons"
                "https://commons.wikimedia.org/w" []) as (_ & _ & _ & H4 & _).
  cbv zeta in H3, H4. split.
  - apply (H3 ("https:/" : QString) "f"%char "r"%char
              ("wiktionary.org/w" : QString)).
    + reflexivity.
    + simpl. intuition discriminate.
    + discriminate.
    + discriminate.
  - apply (H4 ("https://comm" : QString) "o"%char "n"%char "s"%char
              ("wikimedia.org/w" : QString)).
    + reflexivity.
    + simpl. intuition discriminate.
    + discriminate.
Defined.

(** ** makeDictionaries and loadIcon *)

Section Dictionaries.

Variable code2toInt : QString -> Z.
Variable configFile : QString -> option QString.
Variable loadIconFromFile :
  QString -> DictionaryClass.IconState -> DictionaryClass.IconState.

(** X16.  [makeDictionaries] makes one dictionary for each enabled entry
    of the configuration and none for a disabled one, in the order of
    the configuration, each with the id, name, URL and icon of its
    entry. *)
Theorem makeDictionaries_keeps_the_enabled_entries_in_order
        (wikis : list DictionaryClass.Config.MediaWiki) :
  let made := DictionaryClass.makeDictionaries code2toInt wikis in
  let enabled := filter DictionaryClass.Config.enabled wikis in
  made
  = map (fun w =>
           DictionaryClass.newMediaWikiDictionary
             code2toInt
             (DictionaryClass.Config.id w) (DictionaryClass.Config.name w)
             (DictionaryClass.Config.url w) (DictionaryClass.Config.icon w))
        enabled
  /\ map DictionaryClass.id made = map DictionaryClass.Config.id enabled
  /\ map DictionaryClass.url made = map DictionaryClass.Config.url enabled
  /\ (length made <= length wikis)%nat.
Proof.
  cbv zeta.
  assert (Hmade :
            DictionaryClass.makeDictionaries code2toInt wikis
            = map (fun w =>
                     DictionaryClass.newMediaWikiDictionary
                       code2toInt
                       (DictionaryClass.Config.id w)
                       (DictionaryClass.Config.name w)
                       (DictionaryClass.Config.url w)
                       (DictionaryClass.Config.icon w))
                  (filter DictionaryClass.Config.enabled wikis)).
  { unfold DictionaryClass.makeDictionaries.
    assert (Hloop : forall (ws : list DictionaryClass.Config.MediaWiki)
                           (result : list DictionaryClass.Members),
               fold_left
                 (fun result w =>
                    if DictionaryClass.Config.enabled w
                    then result
                         ++ [DictionaryClass.newMediaWikiDictionary
                               code2toInt
                               (DictionaryClass.Config.id w)
                               (DictionaryClass.Config.name w)
                               (DictionaryClass.Config.url w)
                               (DictionaryClass.Config.icon w)]
                    else result)
                 ws result
               = result
                 ++ map (fun w =>
                           DictionaryClass.newMediaWikiDictionary
                             code2toInt
                             (DictionaryClass.Config.id w)
                             (DictionaryClass.Config.name w)
                             (DictionaryClass.Config.url w)
                             (DictionaryClass.Config.icon w))
                        (filter DictionaryClass.Config.enabled ws)).
    { induction ws as [|w ws IH]; intros result.
      - simpl. now rewrite app_nil_r.
      - cbn [fold_left filter]. destruct (DictionaryClass.Config.enabled w).
        + rewrite IH, <- app_assoc. reflexivity.
        + apply IH. }
    apply (Hloop wikis []). }
  rewrite Hmade. split; [reflexivity|].
  split; [|split].
  - rewrite map_map. reflexivity.
  - rewrite map_map. reflexivity.
  - rewrite length_map. apply filter_length_le.
Qed.

(** X17.  [loadIcon] loads once and never leaves the dictionary without
    an icon.  After the call the icon is marked loaded, and a second
    call changes nothing.  From a state that is not loaded the resulting
    icon is not null: it is what the configured file gave when that is
    not null, and otherwise the Wiktionary icon when the URL contains
    the text tionary and the Wikipedia icon when it does not. *)
Theorem loadIcon_loads_once_and_never_leaves_a_null_icon
        (d : DictionaryClass.Members) (s : DictionaryClass.IconState) :
  let loadIcon := DictionaryClass.loadIcon configFile loadIconFromFile d in
  let fromFile :=
    match DictionaryClass.icon d with
    | [] => s
    | _ :: _ =>
        match configFile (DictionaryClass.icon d) with
        | Some absoluteFilePath => loadIconFromFile absoluteFilePath s
        | None => s
        end
    end in
  DictionaryClass.dictionaryIconLoaded (loadIcon s) = true
  /\ loadIcon (loadIcon s) = loadIcon s
  /\ (DictionaryClass.dictionaryIconLoaded s = true -> loadIcon s = s)
  /\ (DictionaryClass.dictionaryIconLoaded s = false ->
      DictionaryClass.isNull (DictionaryClass.dictionaryIcon (loadIcon s))
      = false
      /\ (DictionaryClass.isNull (DictionaryClass.dictionaryIcon fromFile)
          = false ->
          DictionaryClass.dictionaryIcon (loadIcon s)
          = DictionaryClass.dictionaryIcon fromFile
          /\ DictionaryClass.dictionaryNativeIcon (loadIcon s)
             = DictionaryClass.dictionaryNativeIcon fromFile)
      /\ (DictionaryClass.isNull (DictionaryClass.dictionaryIcon fromFile)
          = true ->
          DictionaryClass.dictionaryIcon (loadIcon s)
          = DictionaryClass.IconFrom
              (if DictionaryClass.contains "tionary" (DictionaryClass.url d)
               then ":/icons/wiktionary.png" else ":/icons/icon32_wiki.png")
          /\ DictionaryClass.dictionaryNativeIcon (loadIcon s)
             = DictionaryClass.dictionaryIcon (loadIcon s))).
Proof.
  cbv zeta.
  assert (Hloaded : forall s0,
             DictionaryClass.dictionaryIconLoaded
               (DictionaryClass.loadIcon configFile loadIconFromFile d s0)
             = true).
  { intros s0. unfold DictionaryClass.loadIcon.
    destruct (DictionaryClass.dictionaryIconLoaded s0) eqn:E; [exact E|].
    reflexivity. }
  assert (Hid : forall s0,
             DictionaryClass.dictionaryIconLoaded s0 = true ->
             DictionaryClass.loadIcon configFile loadIconFromFile d s0 = s0).
  { intros s0 E. unfold DictionaryClass.loadIcon. now rewrite E. }
  split; [apply Hloaded|]. split; [apply Hid, Hloaded|].
  split; [apply Hid|].
  intros Hnot. unfold DictionaryClass.loadIcon. rewrite Hnot.
  set (fromFile :=
         match DictionaryClass.icon d with
         | [] => s
         | _ :: _ =>
             match configFile (DictionaryClass.icon d) with
             | Some absoluteFilePath => loadIconFromFile absoluteFilePath s
             | None => s
             end
         end).
  cbn [DictionaryClass.dictionaryIcon DictionaryClass.dictionaryNativeIcon].
  destruct (DictionaryClass.isNull (DictionaryClass.dictionaryIcon fromFile))
    eqn:Hnull.
  - destruct (DictionaryClass.contains "tionary" (DictionaryClass.url d));
      simpl; repeat split; auto; discriminate.
  - split; [exact Hnull|]. split; [auto|].
    intros H. rewrite H in Hnull. discriminate.
Qed.

End Dictionaries.

Lemma loadIcon_loads_once_and_never_leaves_a_null_icon_witness :
  let d := DictionaryClass.newMediaWikiDictionary
             sampleCode2toInt "c" "French Wiktionary"
             "https://fr.wiktionary.org/w" [] in
  let s := {| DictionaryClass.dictionaryIconLoaded := false;
              DictionaryClass.dictionaryIcon := DictionaryClass.NullIcon;
              DictionaryClass.dictionaryNativeIcon := DictionaryClass.NullIcon |} in
  DictionaryClass.dictionaryIcon
    (DictionaryClass.loadIcon (fun _ => None) (fun _ s => s) d s)
  = DictionaryClass.IconFrom ":/icons/wiktionary.png".
Proof.
  cbv zeta.
  pose proof (loadIcon_loads_once_and_never_leaves_a_null_icon
                (fun _ => None) (fun _ s => s)
                (DictionaryClass.newMediaWikiDictionary
                   sampleCode2toInt "c" "French Wiktionary"
                   "https://fr.wiktionary.org/w" [])
                {| DictionaryClass.dictionaryIconLoaded := false;
                   DictionaryClass.dictionaryIcon := DictionaryClass.NullIcon;
                   DictionaryClass.dictionaryNativeIcon := DictionaryClass.NullIcon |})
    as (_ & _ & _ & H).
  cbv zeta in H. destruct (H eq_refl) as (_ & _ & Hfallback).
  destruct (Hfallback eq_refl) as [Hicon _]. exact Hicon.
Defined.

Example makeDictionaries_sample :
  map DictionaryClass.id (DictionaryClass.makeDictionaries sampleCode2toInt sampleWikis)
  = ["a" : QString; "c" : QString]
  /\ map DictionaryClass.langId
         (DictionaryClass.makeDictionaries sampleCode2toInt sampleWikis)
     = [sampleCode2toInt "en"; sampleCode2toInt "fr"].
Proof. split; reflexivity. Qed.

(** ** The passes: what a pattern needs in the subject *)

Lemma In_allAscii (a : ascii) : In a allAscii.
Proof.
  unfold allAscii. apply in_map_iff. exists (nat_of_ascii a).
  split; [apply ascii_nat_embedding|].
  apply in_seq. pose proof (nat_ascii_bounded a). lia.
Qed.

(** A property of the subject that holds of every string with a suffix
    that has it, and of the subject a continuation succeeds on, holds of
    the subject of a successful match. *)
Lemma starLoop_upward (holds : QString -> Prop) (greedy : bool)
      (body : QString -> nat -> Captures -> Cont -> option (nat * Captures))
      (k : Cont) :
  (forall s pos caps k' res,
      (forall s' pos' caps' res', k' s' pos' caps' = Some res' -> holds s') ->
      body s pos caps k' = Some res -> holds s) ->
  (forall s pos caps res, k s pos caps = Some res -> holds s) ->
  forall (turns : nat) (s : QString) (pos : nat) (caps : Captures)
         (res : nat * Captures),
    starLoop greedy body k turns s pos caps = Some res -> holds s.
Proof.
  intros Hbody Hk.
  induction turns as [|turns IHt]; intros s pos caps res H; cbn [starLoop] in H.
  - now apply Hk in H.
  - assert (Hagain :
              forall res',
                body s pos caps
                     (fun s' pos' caps' =>
                        if (pos <? pos')%nat
                        then starLoop greedy body k turns s' pos' caps'
                        else None) = Some res' ->
                holds s).
    { intros res'. apply Hbody. intros s' pos' caps' res'' H'.
      destruct (pos <? pos')%nat; [|discriminate]. now apply IHt in H'. }
    cbv zeta in H. destruct greedy.
    + destruct (body s pos caps _) as [res'|] eqn:E.
      * now apply (Hagain res').
      * now apply Hk in H.
    + destruct (k s pos caps) as [res'|] eqn:E.
      * now apply Hk in E.
      * now apply (Hagain res).
Qed.

Lemma rmatch_upward (holds : QString -> Prop) :
  (forall (a : ascii) (s : QString), holds s -> holds (a :: s)) ->
  forall (r : Regex) (s : QString) (pos : nat) (caps : Captures) (k : Cont)
         (res : nat * Captures),
    (forall s' pos' caps' res', k s' pos' caps' = Some res' -> holds s') ->
    rmatch r s pos caps k = Some res -> holds s.
Proof.
  intros Hup.
  induction r as [|p|r1 IH1 r2 IH2|r1 IH1 r2 IH2|greedy r1 IH1|n r1 IH1];
    intros s pos caps k res Hk H; cbn [rmatch] in H.
  - now apply Hk in H.
  - destruct s as [|a s]; [discriminate|].
    destruct (p a); [|discriminate]. apply Hup. now apply Hk in H.
  - eapply IH1; [|exact H]. intros s' pos' caps' res' H'.
    exact (IH2 s' pos' caps' k res' Hk H').
  - destruct (rmatch r1 s pos caps k) as [res1|] eqn:E.
    + exact (IH1 s pos caps k res1 Hk E).
    + exact (IH2 s pos caps k res Hk H).
  - apply (starLoop_upward holds greedy (rmatch r1) k) with (2 := Hk) (3 := H).
    intros s0 pos0 caps0 k' res0 Hk' H0.
    exact (IH1 s0 pos0 caps0 k' res0 Hk' H0).
  - eapply IH1; [|exact H]. intros s' pos' caps' res' H'.
    now apply Hk in H'.
Qed.

(** A character that every match of the pattern contains is in the
    subject of a successful match. *)
Lemma rmatch_mandatory (c : ascii) :
  forall (r : Regex) (s : QString) (pos : nat) (caps : Captures) (k : Cont)
         (res : nat * Captures),
    mandatory c r = true ->
    rmatch r s pos caps k = Some res -> In c s.
Proof.
  induction r as [|p|r1 IH1 r2 IH2|r1 IH1 r2 IH2|greedy r1 IH1|n r1 IH1];
    intros s pos caps k res Hm H; cbn [mandatory] in Hm;
    try discriminate; cbn [rmatch] in H.
  - destruct s as [|a s]; [discriminate|].
    destruct (p a) eqn:Hp; [|discriminate].
    rewrite forallb_forall in Hm. specialize (Hm a (In_allAscii a)).
    rewrite Hp in Hm. simpl in Hm. apply Ascii.eqb_eq in Hm. now left.
  - apply orb_true_iff in Hm as [Hm|Hm].
    + exact (IH1 _ _ _ _ _ Hm H).
    + eapply (rmatch_upward (In c)); [| |exact H].
      * intros a s0 H0. now right.
      * intros s' pos' caps' res' H'. exact (IH2 _ _ _ _ _ Hm H').
  - apply andb_true_iff in Hm as [Hm1 Hm2].
    destruct (rmatch r1 s pos caps k) as [res1|] eqn:E.
    + exact (IH1 _ _ _ _ _ Hm1 E).
    + exact (IH2 _ _ _ _ _ Hm2 H).
  - exact (IH1 _ _ _ _ _ Hm H).
Qed.

Lemma globalMatch_mandatory (c : ascii) (re : Regex) (s : QString) :
  mandatory c re = true -> ~ In c s -> occursRegex re s = false.
Proof.
  intros Hm. unfold occursRegex, globalMatch.
  assert (Hgo : forall (s : QString) (skip pos : nat),
             ~ In c s -> globalMatch_go re skip s pos = []).
  { clear s. induction s as [|a s IH]; intros skip pos Hno; [reflexivity|].
    cbn [globalMatch_go]. destruct skip as [|skip].
    - unfold matchAt.
      destruct (rmatch re (a :: s) pos [] _) as [[e caps]|] eqn:E.
      + exfalso. apply Hno. eapply rmatch_mandatory; eauto.
      + apply IH. simpl in Hno. tauto.
    - apply IH. simpl in Hno. tauto. }
  intros Hno. now rewrite Hgo.
Qed.

Lemma startsWith_In (c : ascii) :
  forall needle s : QString,
    In c needle -> startsWith needle s = true -> In c s.
Proof.
  intros needle s Hin H. apply startsWith_split in H. rewrite H.
  apply in_or_app. now left.
Qed.

Lemma occursStr_mandatory (c : ascii) (needle s : QString) :
  In c needle -> ~ In c s -> occursStr needle s = false.
Proof.
  intros Hin Hno. unfold occursStr, indexOf. simpl.
  assert (Hgo : forall (s : QString) (i : nat),
             ~ In c s -> find_from needle s i = -1).
  { clear s Hno. induction s as [|a s IH]; intros i Hno; cbn [find_from].
    - destruct (startsWith needle []) eqn:E; [|reflexivity].
      exfalso. apply Hno. eapply startsWith_In; eauto.
    - destruct (startsWith needle (a :: s)) eqn:E.
      + exfalso. apply Hno. eapply startsWith_In; eauto.
      + apply IH. simpl in Hno. tauto. }
  now rewrite Hgo.
Qed.

Lemma In_dq_middle (a b : QString) : In "034"%char (a ++ dq ++ b).
Proof. apply in_or_app. right. now left. Qed.

(** Every pattern but that of the audio tag needs a double quote in the
    subject; the audio tag needs an angle bracket. *)
Lemma passMatches_needs_quote (p : Pass) (s : QString) :
  p <> AudioTag -> ~ In "034"%char s -> passMatches p s = false.
Proof.
  intros Hp Hno.
  destruct p; cbn [passMatches]; try congruence;
    try (apply (globalMatch_mandatory "034"%char); [vm_compute; reflexivity | exact Hno]);
    apply (occursStr_mandatory "034"%char); try exact Hno;
    vm_compute; tauto.
Qed.

Lemma passMatches_needs_bracket (s : QString) :
  ~ In "<"%char s -> passMatches AudioTag s = false.
Proof.
  intros Hno. cbn [passMatches].
  apply (globalMatch_mandatory "<"%char); [vm_compute; reflexivity | exact Hno].
Qed.

Lemma runPass_no_match (dict : MediaWikiDictionary) (p : Pass) (s : QString) :
  passMatches p s = false -> runPass dict p s = s.
Proof.
  intros H. destruct p; cbn [passMatches runPass] in *.
  - now apply rewriteLoop_pass_no_match.
  - now apply replaceRegex_no_match.
  - now apply rewriteLoop_pass_no_match.
  - now apply replaceRegex_no_match.
  - now apply replaceStr_no_occurrence.
  - now apply replaceStr_no_occurrence.
  - now apply replaceStr_no_occurrence.
  - now apply passUnderscores_no_match.
  - now apply replaceRegex_no_match.
  - now apply replaceStr_no_occurrence.
  - now apply replaceStr_no_occurrence.
  - unfold passSrcset.
    now apply (rewriteLoop_pass_no_match regSrcset (srcsetBody dict)).
Qed.

(** X18.  Text without markup passes through unchanged.  No pass but
    the audio-tag pass touches a string without a double quote; the
    audio-tag pass and the table-of-contents step do not touch a string
    without an opening angle bracket; so an article text with neither
    character comes out of the twelve passes and the table-of-contents
    step as it went in, and the fragment appended to the buffer is this
    text inside the container. *)
Theorem text_without_markup_passes_through
        (dict : MediaWikiDictionary) (s : QString) :
  (~ In "034"%char s ->
   forall p : Pass, p <> AudioTag ->
                    passMatches p s = false /\ runPass dict p s = s)
  /\ (~ In "<"%char s ->
      passMatches AudioTag s = false
      /\ runPass dict AudioTag s = s
      /\ forall parseNode : option QDomNode,
          generateTableOfContentsIfEmpty parseNode s = s)
  /\ (~ In "034"%char s -> ~ In "<"%char s ->
      transformPasses dict s = s
      /\ forall (parseNode : option QDomNode) (textNode : QDomNode),
          elementText textNode = s ->
          articleBody dict parseNode textNode
          = wrapperOpen dict ++ s ++ "</div>").
Proof.
  assert (Hq : ~ In "034"%char s -> forall p : Pass, p <> AudioTag ->
               passMatches p s = false /\ runPass dict p s = s).
  { intros Hno p Hp.
    pose proof (passMatches_needs_quote p s Hp Hno) as H.
    split; [exact H | now apply runPass_no_match]. }
  assert (Hb : ~ In "<"%char s ->
               passMatches AudioTag s = false
               /\ runPass dict AudioTag s = s
               /\ forall parseNode : option QDomNode,
                   generateTableOfContentsIfEmpty parseNode s = s).
  { intros Hno. pose proof (passMatches_needs_bracket s Hno) as H.
    split; [exact H|]. split; [now apply runPass_no_match|].
    intros parseNode. unfold generateTableOfContentsIfEmpty.
    assert (Hocc : occursStr emptyTocIndicator s = false).
    { apply (occursStr_mandatory "<"%char); [now left | exact Hno]. }
    unfold occursStr in Hocc. apply negb_false_iff in Hocc.
    cbv zeta. now rewrite Hocc. }
  split; [exact Hq|]. split; [exact Hb|].
  intros Hnq Hnb.
  assert (Hall : forall p : Pass, runPass dict p s = s).
  { intros p.
    destruct p; try (apply Hq; [exact Hnq | discriminate]).
    apply Hb. exact Hnb. }
  assert (Ht : transformPasses dict s = s).
  { unfold transformPasses. generalize pipeline. intros ps.
    induction ps as [|p ps IH]; [reflexivity|].
    simpl. rewrite Hall. exact IH. }
  split; [exact Ht|].
  intros parseNode textNode Htext.
  unfold articleBody, wrapperOpen, toUtf8. rewrite Htext, Ht.
  destruct (Hb Hnb) as (_ & _ & Htoc). rewrite Htoc. reflexivity.
Qed.

Lemma text_without_markup_passes_through_witness :
  transformPasses sampleDict "Plain text, no markup" = "Plain text, no markup"
  /\ articleBody sampleDict None (sampleText "Plain text, no markup")
     = wrapperOpen sampleDict ++ "Plain text, no markup" ++ "</div>".
Proof.
  pose proof (text_without_markup_passes_through
                sampleDict "Plain text, no markup") as (_ & _ & H).
  assert (Hq : ~ In "034"%char ("Plain text, no markup" : QString)).
  { vm_compute. intuition discriminate. }
  assert (Hb : ~ In "<"%char ("Plain text, no markup" : QString)).
  { vm_compute. intuition discriminate. }
  destruct (H Hq Hb) as [Ht Hbody]. split; [exact Ht|].
  apply Hbody. reflexivity.
Defined.

(** ** The passes: underscores and internal links *)

Lemma Forall2_same {A : Type} (R : A -> A -> Prop) (l : list A) :
  (forall x, R x x) -> Forall2 R l l.
Proof. intros H. induction l; constructor; auto. Qed.

Lemma underscoresToSpaces_pointwise :
  forall (s : QString) (from len : nat),
    Forall2 underscoreOrSame s (underscoresToSpaces from len s).
Proof.
  assert (Hrefl : forall c, underscoreOrSame c c) by (intros c; now left).
  induction s as [|c s IH]; intros from len; cbn [underscoresToSpaces].
  - constructor.
  - destruct from as [|from].
    + destruct len as [|len]; [now apply Forall2_same|].
      constructor; [|apply IH].
      destruct (Ascii.eqb c "_") eqn:E; [|now left].
      apply Ascii.eqb_eq in E. right. auto.
    + constructor; [apply Hrefl | apply IH].
Qed.

Lemma underscoreOrSame_trans (s t u : QString) :
  Forall2 underscoreOrSame s t -> Forall2 underscoreOrSame t u ->
  Forall2 underscoreOrSame s u.
Proof.
  intros H. revert u. induction H as [|c d s t Hcd Hst IH]; intros u Hu.
  - inversion Hu. constructor.
  - inversion Hu as [|? e ? u' Hde Htu]; subst. constructor; [|now apply IH].
    unfold underscoreOrSame in *.
    destruct Hcd as [->|[-> ->]]; [exact Hde|].
    destruct Hde as [->|[Habs _]]; [right; auto | discriminate].
Qed.

(** X19.  The underscore pass changes no position and no length: the
    result has the characters of the article one for one, except that an
    underscore may have become a space.  An article without underscores
    is returned as it is. *)
Theorem underscore_pass_only_turns_underscores_into_spaces
        (articleString : QString) :
  Forall2 underscoreOrSame articleString (passUnderscores articleString)
  /\ length (passUnderscores articleString) = length articleString
  /\ (~ In "_"%char articleString ->
      passUnderscores articleString = articleString).
Proof.
  assert (H : Forall2 underscoreOrSame articleString
                      (passUnderscores articleString)).
  { unfold passUnderscores.
    generalize (globalMatch rxLink articleString). intros ms.
    assert (Hgen : forall s : QString,
               Forall2 underscoreOrSame articleString s ->
               Forall2 underscoreOrSame articleString
                 (fold_left
                    (fun s m =>
                       underscoresToSpaces
                         (capturedStart m + 9)
                         (capturedEnd m - (capturedStart m + 9)) s)
                    ms s)).
    { induction ms as [|m ms IH]; intros s Hs; [exact Hs|].
      simpl. apply IH. eapply underscoreOrSame_trans; [exact Hs|].
      apply underscoresToSpaces_pointwise. }
    apply Hgen. apply Forall2_same. intros c. now left. }
  split; [exact H|]. split.
  - symmetry. eapply Forall2_length. exact H.
  - revert H. generalize (passUnderscores articleString). intros t H Hno.
    induction H as [|c d s t Hcd Hst IH]; [reflexivity|].
    simpl in Hno. f_equal.
    + destruct Hcd as [->|[-> _]]; [reflexivity|tauto].
    + apply IH. tauto.
Qed.




(** ** The request: pages without a readable page id *)

Lemma pageIdUnreadable_zero (dd : QDomDocument) :
  pageIdUnreadable dd -> pageIdOf dd = 0.
Proof.
  unfold pageIdUnreadable, pageIdOf, toLongLong.
  intros [H|[H|(v & Hv & Hr)]].
  - assert (Ha : attribute "pageid" (parseNodeOf dd) = []).
    { unfold hasAttribute, attribute in *.
      destruct (parseNodeOf dd) as [[tag attrs cs|v|nm]|]; try reflexivity.
      destruct (lookupAttribute "pageid" attrs); [discriminate | reflexivity]. }
    rewrite Ha. reflexivity.
  - now rewrite H.
  - now rewrite Hv, Hr.
Qed.

Lemma processReply_records_id (net : Network) (dict : MediaWikiDictionary)
      (r : QNetworkReply) (dd : QDomDocument) (st : MediaWikiArticleRequest) :
  net r = XmlDocument dd ->
  parseNodeOf dd <> None ->
  attribute "revid" (parseNodeOf dd) <> "0" ->
  In (pageIdOf dd) (addedPageIds (fst (processReply net dict r st))).
Proof.
  intros Hnet Hsome Hrev. unfold processReply. rewrite Hnet.
  unfold pageIdOf in *.
  destruct (parseNodeOf dd) as [n|]; [|congruence].
  destruct (QString_eqb (attribute "revid" (Some n)) "0") eqn:E.
  { apply QString_eqb_eq in E. contradiction. }
  destruct (insert_spec (toLongLong (attribute "pageid" (Some n)))
                        (addedPageIds st)) as (_ & _ & _ & Hin).
  destruct (insert _ (addedPageIds st)) as [[|] ids]; cbn [snd] in Hin.
  - destruct (namedItem "text" (Some n)); exact Hin.
  - exact Hin.
Qed.

(** X21.  Pages without a readable page id share the page id 0.
    [toLongLong] gives 0 for a [pageid] that is missing, is not a number
    or is out of range, and the result is not checked: once one such
    page has been processed, 0 is in the set, and every later page
    without a readable page id is dropped as a duplicate, whatever its
    text. *)
Theorem pages_without_readable_id_share_id_zero
        (net : Network) (dict : MediaWikiDictionary)
        (r1 r2 : QNetworkReply) (dd1 dd2 : QDomDocument)
        (st : MediaWikiArticleRequest) (evs : list Event) :
  net r1 = XmlDocument dd1 ->
  net r2 = XmlDocument dd2 ->
  parseNodeOf dd1 <> None ->
  attribute "revid" (parseNodeOf dd1) <> "0" ->
  pageIdUnreadable dd1 ->
  pageIdUnreadable dd2 ->
  let st1 := run net dict evs (fst (processReply net dict r1 st)) in
  In 0 (addedPageIds st1)
  /\ processReply net dict r2 st1 = (st1, false).
Proof.
  intros Hnet1 Hnet2 Hsome Hrev Hu1 Hu2 st1.
  assert (Hin : In 0 (addedPageIds st1)).
  { apply (run_ids_grow net dict evs).
    rewrite <- (pageIdUnreadable_zero dd1 Hu1).
    now apply processReply_records_id. }
  split; [exact Hin|].
  apply (processReply_duplicate net dict r2 dd2); [exact Hnet2|].
  now rewrite (pageIdUnreadable_zero dd2 Hu2).
Qed.

Lemma pages_without_readable_id_share_id_zero_witness :
  let st1 := fst (processReply sampleNoIdNet sampleDict 0%nat emptyRequest) in
  appendedPages st1
  = [(0, "<div class=" ++ dq ++ "mwiki" ++ dq ++ ">First</div>")]
  /\ processReply sampleNoIdNet sampleDict 1%nat st1 = (st1, false).
Proof.
  split; [vm_compute; reflexivity|].
  refine (proj2 (pages_without_readable_id_share_id_zero
                   sampleNoIdNet sampleDict 0%nat 1%nat _ _ emptyRequest []
                   eq_refl eq_refl _ _ _ _)).
  - discriminate.
  - discriminate.
  - left. reflexivity.
  - right. left. reflexivity.
Defined.
